(** * chess.cpp: the move-legality rules and the board model

    A shallow embedding of [chess.cpp]: the six [IsValidMove] overrides, the
    virtual dispatch over them, and [BoardModel] with [GetPieceAt],
    [MovePiece] and [SelectSpace]; then what [BoardView::Draw] hands to the
    window and the title [main] sets.  [BoardController::OnMouseClicked]
    divides pixel positions in floating point and is left out.

    - [int] is a 32-bit two's-complement integer, carried as a [Z] with the
      wrap-around written out in [Int32].  Signed overflow is undefined in
      C++; the wrap is what the usual targets compute.  Every statement below
      that depends on a difference of coordinates says for which origins it is
      stated.
    - [std::shared_ptr<Piece>] is [option Piece]: [nullptr] is [None].  A piece
      is never changed after its construction, so sharing is not observable.
    - [std::vector<std::shared_ptr<Piece>>] is a [list (option Piece)].
      [at] throws past the end, [operator[]] is undefined there, and [assert]
      aborts: the three are faults of [outcome]. *)

From Stdlib Require Import Zquot.
From stdpp Require Import base numbers list strings.

Local Open Scope Z_scope.

(** ** 32-bit [int] *)

Module Int32.

Definition min_int : Z := -2147483648.
Definition max_int : Z := 2147483647.
Definition modulus : Z := 4294967296.

Definition in_range (z : Z) : Prop := min_int <= z <= max_int.

(** The representative of [z] in [[min_int, max_int]]. *)
Definition wrap (z : Z) : Z := (z - min_int) mod modulus + min_int.

Definition add (a b : Z) : Z := wrap (a + b).
Definition sub (a b : Z) : Z := wrap (a - b).
Definition mul (a b : Z) : Z := wrap (a * b).
(** [abs]: [abs(INT_MIN)] comes back as [INT_MIN]. *)
Definition abs (a : Z) : Z := wrap (Z.abs a).

End Int32.

(** ** Faults *)

Inductive fault : Type :=
  | OutOfRange   (* vector::at threw std::out_of_range *)
  | AssertFail   (* assert(...) failed: abort *)
  | Undefined    (* operator[] past the end, or a null pointer followed *)
  | Diverges.    (* a loop of the model ran out of fuel *)

Inductive outcome (A : Type) : Type :=
  | Ret (a : A)
  | Fault (f : fault).

Arguments Ret {A} a.
Arguments Fault {A} f.

Definition bind {A B : Type} (m : outcome A) (k : A -> outcome B) : outcome B :=
  match m with
  | Ret a => k a
  | Fault f => Fault f
  end.

Notation "'do' v <- m ; k" := (bind m (fun v => k))
  (at level 10, v name, m at level 100, k at level 200).

(** ** Coordinates, players, pieces *)

(** [struct BoardCoord { int x; int y; }] *)
Record BoardCoord : Type := mkBoardCoord { x : Z; y : Z }.

(** [BoardCoord::operator==] *)
Definition coord_eqb (a other : BoardCoord) : bool :=
  (x a =? x other) && (y a =? y other).

Inductive Player : Type := White | Black.

Inductive PieceType : Type := King | Queen | Rook | Bishop | Knight | Pawn.

Definition player_eqb (p q : Player) : bool :=
  match p, q with
  | White, White | Black, Black => true
  | _, _ => false
  end.

Definition piece_type_eqb (k l : PieceType) : bool :=
  match k, l with
  | King, King | Queen, Queen | Rook, Rook
  | Bishop, Bishop | Knight, Knight | Pawn, Pawn => true
  | _, _ => false
  end.

(** An object of one of the six subclasses of [Piece]: the subclass, as the
    value its [PieceType()] returns, and the [m_player] field. *)
Record Piece : Type := mkPiece { piece_type : PieceType; m_player : Player }.

(** [Piece::GetPlayer] *)
Definition GetPlayer (pc : Piece) : Player := m_player pc.

(** The board: 64 slots in row-major order, index [y * 8 + x]. *)
Abbreviation Board := (list (option Piece)).

Definition is_piece (slot : option Piece) : bool :=
  match slot with Some _ => true | None => false end.

(** [board.at(i)] with an [int] index: the index is converted to the unsigned
    [size_type], so a negative one is past the end as well. *)
Definition vec_at (board : Board) (i : Z) : outcome (option Piece) :=
  if 0 <=? i then
    match board !! Z.to_nat i with
    | Some slot => Ret slot
    | None => Fault OutOfRange
    end
  else Fault OutOfRange.

(** [board[i]], reading. *)
Definition vec_get (board : Board) (i : Z) : outcome (option Piece) :=
  if 0 <=? i then
    match board !! Z.to_nat i with
    | Some slot => Ret slot
    | None => Fault Undefined
    end
  else Fault Undefined.

(** [board[i] = v]. *)
Definition vec_set (board : Board) (i : Z) (v : option Piece) : outcome Board :=
  if (0 <=? i) && (i <? Z.of_nat (length board)) then
    Ret (<[Z.to_nat i := v]> board)
  else Fault Undefined.

(** ** The legality checks *)

(** [tx >= 8 || tx < 0 || ty >= 8 || ty < 0] *)
Definition out_of_bounds (to : BoardCoord) : bool :=
  (x to >=? 8) || (x to <? 0) || (y to >=? 8) || (y to <? 0).

(** [King::IsValidMove] *)
Definition King_IsValidMove (board : Board) (from to : BoardCoord) : outcome bool :=
  let tx := x to in let ty := y to in
  let fx := x from in let fy := y from in
  if out_of_bounds to then Ret false
  else if (Int32.abs (Int32.sub fx tx) >? 1) || (Int32.abs (Int32.sub fy ty) >? 1)
  then Ret false
  else Ret true.

(** The loop that walks a diagonal, in [Bishop::IsValidMove] and, word for
    word, in [Queen::IsValidMove]:
    [while (ix != tx) { if (board.at(iy * 8 + ix) != nullptr) return false;
                        ix += xstep; iy += ystep; } return true;] *)
Fixpoint diagonal_walk (fuel : nat) (board : Board) (tx xstep ystep ix iy : Z)
  : outcome bool :=
  if ix =? tx then Ret true
  else
    match fuel with
    | O => Fault Diverges
    | S fuel' =>
        do piece <- vec_at board (Int32.add (Int32.mul iy 8) ix);
        if is_piece piece then Ret false
        else diagonal_walk fuel' board tx xstep ystep
               (Int32.add ix xstep) (Int32.add iy ystep)
    end.

(** [(tx != fx) ? board.at(ty * 8 + i) : board.at(i * 8 + tx)] *)
Definition axis_read (board : Board) (tx ty fx i : Z) : outcome (option Piece) :=
  if negb (tx =? fx)
  then vec_at board (Int32.add (Int32.mul ty 8) i)
  else vec_at board (Int32.add (Int32.mul i 8) tx).

(** The loop that walks a row or a column, in [Rook::IsValidMove] and, word
    for word, in [Queen::IsValidMove]:
    [for (int i = start + step; i != end; i += step) {
       auto piece = (tx != fx) ? board.at(ty * 8 + i) : board.at(i * 8 + tx);
       if (piece != nullptr) return false; } return true;] *)
Fixpoint axis_walk (fuel : nat) (board : Board) (tx ty fx : Z) (end_ step i : Z)
  : outcome bool :=
  if i =? end_ then Ret true
  else
    match fuel with
    | O => Fault Diverges
    | S fuel' =>
        do piece <- axis_read board tx ty fx i;
        if is_piece piece then Ret false
        else axis_walk fuel' board tx ty fx end_ step (Int32.add i step)
    end.

(** The loop variable starts one step from [start] and moves towards [end_];
    the distance bounds the number of iterations ([axis_walk_fuel] and
    [diagonal_walk_fuel] below). *)
Definition walk_fuel (start end_ : Z) : nat := Z.to_nat (Z.abs (end_ - start)).

(** The diagonal branch, from the choice of the steps on. *)
Definition diagonal_branch (board : Board) (from to : BoardCoord) : outcome bool :=
  let tx := x to in let ty := y to in
  let fx := x from in let fy := y from in
  let xstep := if fx <? tx then 1 else -1 in
  let ystep := if fy <? ty then 1 else -1 in
  let ix := Int32.add fx xstep in
  let iy := Int32.add fy ystep in
  diagonal_walk (walk_fuel fx tx) board tx xstep ystep ix iy.

(** The row or column branch, from the choice of [start] and [end] on. *)
Definition axis_branch (board : Board) (from to : BoardCoord) : outcome bool :=
  let tx := x to in let ty := y to in
  let fx := x from in let fy := y from in
  let '(start, end_) := if negb (tx =? fx) then (fx, tx) else (fy, ty) in
  let step := if start <? end_ then 1 else -1 in
  axis_walk (walk_fuel start end_) board tx ty fx end_ step (Int32.add start step).

(** [Queen::IsValidMove] *)
Definition Queen_IsValidMove (board : Board) (from to : BoardCoord) : outcome bool :=
  let tx := x to in let ty := y to in
  let fx := x from in let fy := y from in
  if coord_eqb to from then Ret false
  else if out_of_bounds to then Ret false
  else if Int32.abs (Int32.sub fx tx) =? Int32.abs (Int32.sub fy ty)
  then diagonal_branch board from to
  else if ((fx =? tx) && negb (fy =? ty)) || ((fy =? ty) && negb (fx =? tx))
  then axis_branch board from to
  else Ret false.

(** [Rook::IsValidMove] *)
Definition Rook_IsValidMove (board : Board) (from to : BoardCoord) : outcome bool :=
  let tx := x to in let ty := y to in
  let fx := x from in let fy := y from in
  if coord_eqb to from then Ret false
  else if out_of_bounds to then Ret false
  else if negb (tx =? fx) && negb (ty =? fy) then Ret false
  else axis_branch board from to.

(** [Bishop::IsValidMove] *)
Definition Bishop_IsValidMove (board : Board) (from to : BoardCoord) : outcome bool :=
  let tx := x to in let ty := y to in
  let fx := x from in let fy := y from in
  if coord_eqb to from then Ret false
  else if out_of_bounds to then Ret false
  else if (tx =? fx) || (ty =? fy) then Ret false
  else if negb (Int32.abs (Int32.sub fx tx) =? Int32.abs (Int32.sub fy ty))
  then Ret false
  else diagonal_branch board from to.

(** [Knight::IsValidMove] *)
Definition Knight_IsValidMove (board : Board) (from to : BoardCoord) : outcome bool :=
  let tx := x to in let ty := y to in
  let fx := x from in let fy := y from in
  if out_of_bounds to then Ret false
  else Ret (((Int32.abs (Int32.sub tx fx) =? 1) && (Int32.abs (Int32.sub ty fy) =? 2))
            || ((Int32.abs (Int32.sub tx fx) =? 2) && (Int32.abs (Int32.sub ty fy) =? 1))).

(** [Pawn::IsValidMove]; [player] is the pawn's [m_player]. *)
Definition Pawn_IsValidMove (player : Player) (board : Board) (from to : BoardCoord)
  : outcome bool :=
  let tx := x to in let ty := y to in
  let fx := x from in let fy := y from in
  if out_of_bounds to then Ret false
  else
    let valid_y := match player with
                   | White => Int32.sub fy ty =? 1
                   | Black => Int32.sub ty fy =? 1
                   end in
    let valid_x := Int32.abs (Int32.sub tx fx) <=? 1 in
    if valid_y && valid_x then
      do piece <- vec_get board (Int32.add (Int32.mul ty 8) tx);
      if Int32.abs (Int32.sub tx fx) =? 1 then Ret (is_piece piece)
      else Ret (negb (is_piece piece))
    else Ret false.

(** The virtual call [piece->IsValidMove(board, from, to)]. *)
Definition IsValidMove (pc : Piece) (board : Board) (from to : BoardCoord) : outcome bool :=
  match piece_type pc with
  | King => King_IsValidMove board from to
  | Queen => Queen_IsValidMove board from to
  | Rook => Rook_IsValidMove board from to
  | Bishop => Bishop_IsValidMove board from to
  | Knight => Knight_IsValidMove board from to
  | Pawn => Pawn_IsValidMove (m_player pc) board from to
  end.

(** ** The board model *)

(** The [int] expression [(c.y * 8) + c.x]. *)
Definition index_of (c : BoardCoord) : Z := Int32.add (Int32.mul (y c) 8) (x c).

(** The private fields of [class BoardModel]. *)
Record BoardModel : Type := mkBoardModel {
  m_board : Board;
  m_move_started : bool;
  m_space_selected : BoardCoord;
  m_game_over : bool;
  m_cur_player : Player
}.

Definition black (k : PieceType) : option Piece := Some (mkPiece k Black).
Definition white (k : PieceType) : option Piece := Some (mkPiece k White).

(** The constructor: 64 empty slots, then the 32 assignments in their order. *)
Definition initial_board : Board :=
  let assign (i : nat) (v : option Piece) (b : Board) : Board := <[i := v]> b in
  let b := replicate 64 None in
  (* black *)
  let b := assign (0 * 8 + 0)%nat (black Rook) b in
  let b := assign (0 * 8 + 1)%nat (black Knight) b in
  let b := assign (0 * 8 + 2)%nat (black Bishop) b in
  let b := assign (0 * 8 + 3)%nat (black Queen) b in
  let b := assign (0 * 8 + 4)%nat (black King) b in
  let b := assign (0 * 8 + 5)%nat (black Bishop) b in
  let b := assign (0 * 8 + 6)%nat (black Knight) b in
  let b := assign (0 * 8 + 7)%nat (black Rook) b in
  let b := assign (1 * 8 + 0)%nat (black Pawn) b in
  let b := assign (1 * 8 + 1)%nat (black Pawn) b in
  let b := assign (1 * 8 + 2)%nat (black Pawn) b in
  let b := assign (1 * 8 + 3)%nat (black Pawn) b in
  let b := assign (1 * 8 + 4)%nat (black Pawn) b in
  let b := assign (1 * 8 + 5)%nat (black Pawn) b in
  let b := assign (1 * 8 + 6)%nat (black Pawn) b in
  let b := assign (1 * 8 + 7)%nat (black Pawn) b in
  (* White *)
  let b := assign (7 * 8 + 0)%nat (white Rook) b in
  let b := assign (7 * 8 + 1)%nat (white Knight) b in
  let b := assign (7 * 8 + 2)%nat (white Bishop) b in
  let b := assign (7 * 8 + 3)%nat (white Queen) b in
  let b := assign (7 * 8 + 4)%nat (white King) b in
  let b := assign (7 * 8 + 5)%nat (white Bishop) b in
  let b := assign (7 * 8 + 6)%nat (white Knight) b in
  let b := assign (7 * 8 + 7)%nat (white Rook) b in
  let b := assign (6 * 8 + 0)%nat (white Pawn) b in
  let b := assign (6 * 8 + 1)%nat (white Pawn) b in
  let b := assign (6 * 8 + 2)%nat (white Pawn) b in
  let b := assign (6 * 8 + 3)%nat (white Pawn) b in
  let b := assign (6 * 8 + 4)%nat (white Pawn) b in
  let b := assign (6 * 8 + 5)%nat (white Pawn) b in
  let b := assign (6 * 8 + 6)%nat (white Pawn) b in
  let b := assign (6 * 8 + 7)%nat (white Pawn) b in
  b.

(** [BoardModel::BoardModel()] with the default member initializers. *)
Definition initial_model : BoardModel :=
  {| m_board := initial_board;
     m_move_started := false;
     m_space_selected := mkBoardCoord 0 0;
     m_game_over := false;
     m_cur_player := White |}.

(** [BoardModel::GetPieceAt].  The assertion compares the [int] index with
    the unsigned size, so it fails on a negative index too. *)
Definition GetPieceAt (st : BoardModel) (c : BoardCoord) : outcome (option Piece) :=
  let index := index_of c in
  if (0 <=? index) && (index <? Z.of_nat (length (m_board st)))
  then vec_get (m_board st) index
  else Fault AssertFail.

(** [BoardModel::GameOver], [GetCurPlayer], [SpaceSelected], [GetSpaceSelected] *)
Definition GameOver (st : BoardModel) : bool := m_game_over st.
Definition GetCurPlayer (st : BoardModel) : Player := m_cur_player st.
Definition SpaceSelected (st : BoardModel) : bool := m_move_started st.
Definition GetSpaceSelected (st : BoardModel) : BoardCoord := m_space_selected st.

(** [BoardModel::MovePiece]: the model after the call and the value returned. *)
Definition MovePiece (st : BoardModel) (p : Player) (from to : BoardCoord)
  : outcome (BoardModel * bool) :=
  do attacker_piece <- GetPieceAt st from;
  match attacker_piece with
  | None => Ret (st, false)
  | Some attacker =>
      do defender_piece <- GetPieceAt st to;
      do valid_move <- IsValidMove attacker (m_board st) from to;
      if valid_move
         && match defender_piece with
            | None => true
            | Some defender => negb (player_eqb (GetPlayer defender) p)
            end
      then
        let game_over :=
          match defender_piece with
          | Some defender =>
              if piece_type_eqb (piece_type defender) King then true
              else m_game_over st
          | None => m_game_over st
          end in
        do board1 <- vec_set (m_board st) (index_of to) (Some attacker);
        do board2 <- vec_set board1 (index_of from) None;
        Ret ({| m_board := board2;
                m_move_started := m_move_started st;
                m_space_selected := m_space_selected st;
                m_game_over := game_over;
                m_cur_player := m_cur_player st |}, true)
      else Ret (st, false)
  end.

Definition other_player (p : Player) : Player :=
  match p with White => Black | Black => White end.

(** [BoardModel::SelectSpace] *)
Definition SelectSpace (st : BoardModel) (coord : BoardCoord) : outcome BoardModel :=
  if GameOver st then Ret st
  else if m_move_started st then
    do moved <- MovePiece st (m_cur_player st) (m_space_selected st) coord;
    let '(st1, valid_move) := moved in
    let st2 := {| m_board := m_board st1;
                  m_move_started := false;
                  m_space_selected := m_space_selected st1;
                  m_game_over := m_game_over st1;
                  m_cur_player := m_cur_player st1 |} in
    if valid_move then
      Ret {| m_board := m_board st2;
             m_move_started := m_move_started st2;
             m_space_selected := m_space_selected st2;
             m_game_over := m_game_over st2;
             m_cur_player := match m_cur_player st2 with
                             | White => Black
                             | Black => White
                             end |}
    else Ret st2
  else
    (* check if clicked on empty space *)
    do clicked <- GetPieceAt st coord;
    if negb (is_piece clicked) then Ret st
    else
      (* check if selecting your piece *)
      do again <- GetPieceAt st coord;
      match again with
      | None => Fault Undefined
      | Some pc =>
          if negb (player_eqb (GetPlayer pc) (m_cur_player st)) then Ret st
          else Ret {| m_board := m_board st;
                      m_move_started := true;
                      m_space_selected := coord;
                      m_game_over := m_game_over st;
                      m_cur_player := m_cur_player st |}
      end.

(** A run of clicks, as [BoardController::OnMouseClicked] feeds them. *)
Fixpoint SelectSpaces (st : BoardModel) (coords : list BoardCoord) : outcome BoardModel :=
  match coords with
  | [] => Ret st
  | c :: rest => do st' <- SelectSpace st c; SelectSpaces st' rest
  end.

(** ** Vocabulary of the statements *)

(** A coordinate of the 8 x 8 board. *)
Definition on_board (c : BoardCoord) : Prop :=
  0 <= x c < 8 /\ 0 <= y c < 8.

(** An origin from which every difference with a coordinate of the board, and
    its absolute value, is a 32-bit [int]: no operation of a legality check
    overflows.  Every coordinate of the board is one. *)
Definition origin_ok (c : BoardCoord) : Prop :=
  Int32.min_int + 8 <= x c <= Int32.max_int /\
  Int32.min_int + 8 <= y c <= Int32.max_int.

(** The slot of a coordinate in the row-major vector. *)
Definition slot_of (c : BoardCoord) : nat := Z.to_nat (y c * 8 + x c).

Definition empty_at (board : Board) (c : BoardCoord) : Prop :=
  board !! slot_of c = Some None.

Definition occupied_at (board : Board) (c : BoardCoord) : Prop :=
  exists pc : Piece, board !! slot_of c = Some (Some pc).

(** The content of the slot of [(col, row)]; empty past the end of the vector. *)
Definition cell_of (board : Board) (col row : Z) : option Piece :=
  default None (board !! Z.to_nat (row * 8 + col)).

(** [i] lies strictly between [a] and [b], whichever is the smaller. *)
Definition between (a b i : Z) : Prop := a < i < b \/ b < i < a.

(** [c] lies strictly between [from] and [to] on their common row or column. *)
Definition strictly_between (from to c : BoardCoord) : Prop :=
  (y from = y to /\ y c = y to /\ between (x from) (x to) (x c)) \/
  (x from = x to /\ x c = x to /\ between (y from) (y to) (y c)).

(** [c] lies strictly between [from] and [to] on their common diagonal. *)
Definition diagonally_between (from to c : BoardCoord) : Prop :=
  between (x from) (x to) (x c) /\ between (y from) (y to) (y c) /\
  Z.abs (x c - x from) = Z.abs (y c - y from).

(** The row delta in the forward direction of [p]: White moves towards
    decreasing rows, Black towards increasing rows. *)
Definition forward_delta (p : Player) (from to : BoardCoord) : Z :=
  match p with
  | White => y from - y to
  | Black => y to - y from
  end.

(** [MovePiece]'s test on the destination: empty, or the other player's. *)
Definition may_land (defender_piece : option Piece) (p : Player) : bool :=
  match defender_piece with
  | None => true
  | Some defender => negb (player_eqb (GetPlayer defender) p)
  end.

Definition holds_king (defender_piece : option Piece) : bool :=
  match defender_piece with
  | Some defender => piece_type_eqb (piece_type defender) King
  | None => false
  end.

(** The model after an accepted move of [attacker] from [from] to [to], where
    [to] held [defender_piece]: the two writes in their order, and the flag. *)
Definition moved (st : BoardModel) (attacker : Piece) (defender_piece : option Piece)
    (from to : BoardCoord) : BoardModel :=
  {| m_board := <[Z.to_nat (index_of from) := None]>
                  (<[Z.to_nat (index_of to) := Some attacker]> (m_board st));
     m_move_started := m_move_started st;
     m_space_selected := m_space_selected st;
     m_game_over := holds_king defender_piece || m_game_over st;
     m_cur_player := m_cur_player st |}.

(** The model with the pending selection dropped. *)
Definition deselected (st : BoardModel) : BoardModel :=
  {| m_board := m_board st;
     m_move_started := false;
     m_space_selected := m_space_selected st;
     m_game_over := m_game_over st;
     m_cur_player := m_cur_player st |}.

(** The model with [coord] as the pending selection. *)
Definition selected (st : BoardModel) (coord : BoardCoord) : BoardModel :=
  {| m_board := m_board st;
     m_move_started := true;
     m_space_selected := coord;
     m_game_over := m_game_over st;
     m_cur_player := m_cur_player st |}.

(** The model with the turn passed to the other player. *)
Definition turned (st : BoardModel) : BoardModel :=
  {| m_board := m_board st;
     m_move_started := m_move_started st;
     m_space_selected := m_space_selected st;
     m_game_over := m_game_over st;
     m_cur_player := other_player (m_cur_player st) |}.

(** A position with a Black Rook at (0,0) and a clear column down to the
    White King at (0,7), Black to move with the Rook selected. *)
Definition rook_takes_king : BoardModel :=
  {| m_board := <[56%nat := white King]> (<[0%nat := black Rook]> (replicate 64 None));
     m_move_started := true;
     m_space_selected := mkBoardCoord 0 0;
     m_game_over := false;
     m_cur_player := Black |}.

(** The states the program reaches: [main] builds one [BoardModel] and the
    controller only ever calls [SelectSpace] on it. *)
Inductive reachable : BoardModel -> Prop :=
  | reachable_initial : reachable initial_model
  | reachable_select (st st' : BoardModel) (coord : BoardCoord) :
      reachable st -> SelectSpace st coord = Ret st' -> reachable st'.

(** What [SelectSpace] maintains: 64 slots; a finished game has no pending
    selection; a pending selection is a piece of the player to move. *)
Definition model_inv (st : BoardModel) : Prop :=
  length (m_board st) = 64%nat /\
  (m_game_over st = true -> m_move_started st = false) /\
  (m_move_started st = true ->
   exists pc, GetPieceAt st (m_space_selected st) = Ret (Some pc)
              /\ GetPlayer pc = m_cur_player st).

(** ** The view and the main loop *)

(** [PlayerToString] *)
Definition PlayerToString (p : Player) : string :=
  if player_eqb p White then "White" else "Black".

(** The title [main] sets on every frame. *)
Definition window_title (st : BoardModel) : string :=
  let cur_player := GetCurPlayer st in
  if negb (GameOver st) then
    ("Chess: " +:+ PlayerToString cur_player +:+ "'s Move")%string
  else
    let winner := if player_eqb cur_player White then "Black" else "White" in
    ("Chess: Game Finished - " +:+ winner +:+ " Wins!")%string.

(** [struct SpriteDim { int x; int y; int w; int h; }] *)
Module SpriteDim.
Record t : Type := mk { x : Z; y : Z; w : Z; h : Z }.
End SpriteDim.

(** The six overrides of [GetSpriteDim], behind the virtual call. *)
Definition GetSpriteDim (pc : Piece) : SpriteDim.t :=
  match piece_type pc with
  | King =>
      if player_eqb (m_player pc) Black then SpriteDim.mk 860 0 300 273
      else SpriteDim.mk 860 340 300 314
  | Queen =>
      if player_eqb (m_player pc) Black then SpriteDim.mk 557 0 298 292
      else SpriteDim.mk 557 351 298 292
  | Rook =>
      if player_eqb (m_player pc) Black then SpriteDim.mk 0 0 250 280
      else SpriteDim.mk 0 368 250 280
  | Bishop =>
      if player_eqb (m_player pc) Black then SpriteDim.mk 246 0 305 300
      else SpriteDim.mk 246 354 305 300
  | Knight =>
      if player_eqb (m_player pc) Black then SpriteDim.mk 1164 0 280 267
      else SpriteDim.mk 1164 370 280 267
  | Pawn =>
      if player_eqb (m_player pc) Black then SpriteDim.mk 1490 0 230 270
      else SpriteDim.mk 1490 376 230 270
  end.

(** The macros [SPACE_WHITE] and [SPACE_BLACK]. *)
Inductive SpaceColor : Type := SPACE_WHITE | SPACE_BLACK.

(** The colour [BoardView::Draw] gives the space of [row] and [col];
    [%] is the remainder of the division that truncates. *)
Definition space_color (row col : Z) : SpaceColor :=
  if Z.rem row 2 =? 0 then
    if Z.rem col 2 =? 0 then SPACE_WHITE else SPACE_BLACK
  else
    if negb (Z.rem col 2 =? 0) then SPACE_WHITE else SPACE_BLACK.

(** What [BoardView::Draw] hands to [window.draw], by the cell it is placed
    on (the pixel position is the cell times [SPACE_SIZE]; the scaling of a
    sprite to the cell is left out). *)
Inductive DrawCmd : Type :=
  | DrawSpace (col row : Z) (color : SpaceColor)
  | DrawPiece (col row : Z) (dim : SpriteDim.t)
  | DrawHighlight (col row : Z).

(** One after the other, stopping at the first fault. *)
Fixpoint for_each {A B : Type} (l : list A) (body : A -> outcome (list B))
  : outcome (list B) :=
  match l with
  | [] => Ret []
  | a :: rest =>
      do first <- body a;
      do others <- for_each rest body;
      Ret (first ++ others)
  end.

(** The body of the inner loop of [Draw]. *)
Definition draw_cell (st : BoardModel) (row col : Z) : outcome (list DrawCmd) :=
  let space := DrawSpace col row (space_color row col) in
  do piece <- GetPieceAt st (mkBoardCoord col row);
  match piece with
  | Some pc => Ret [space; DrawPiece col row (GetSpriteDim pc)]
  | None => Ret [space]
  end.

(** [BoardView::Draw]: [for (row = 0; row < 8; row++) for (col = 0; col < 8;
    col++)], then the highlight. *)
Definition Draw (st : BoardModel) : outcome (list DrawCmd) :=
  do cells <- for_each (seqZ 0 8)
                (fun row => for_each (seqZ 0 8) (fun col => draw_cell st row col));
  if SpaceSelected st
  then Ret (cells ++ [DrawHighlight (x (GetSpaceSelected st)) (y (GetSpaceSelected st))])
  else Ret cells.

(** ** Further vocabulary *)

(** The number of slots of [board] that satisfy [f]. *)
Fixpoint count_slots (f : option Piece -> bool) (board : Board) : nat :=
  match board with
  | [] => 0
  | slot :: rest => ((if f slot then 1 else 0) + count_slots f rest)%nat
  end.

(** The slot holds the King of [p]. *)
Definition is_king_of (p : Player) (slot : option Piece) : bool :=
  match slot with
  | Some pc => piece_type_eqb (piece_type pc) King && player_eqb (GetPlayer pc) p
  | None => false
  end.

(** The slot holds a piece of [p]. *)
Definition is_piece_of (p : Player) (slot : option Piece) : bool :=
  match slot with
  | Some pc => player_eqb (GetPlayer pc) p
  | None => false
  end.

(** The states of a game played with clicks on the board: the input layer
    is to hand [SelectSpace] coordinates of the 8 x 8 board only. *)
Inductive played : BoardModel -> Prop :=
  | played_initial : played initial_model
  | played_select (st st' : BoardModel) (coord : BoardCoord) :
      played st -> on_board coord -> SelectSpace st coord = Ret st' -> played st'.

(** What such a game maintains. *)
Definition game_inv (st : BoardModel) : Prop :=
  length (m_board st) = 64%nat /\
  (m_game_over st = true -> m_move_started st = false) /\
  (m_move_started st = true ->
   on_board (m_space_selected st) /\
   exists pc, GetPieceAt st (m_space_selected st) = Ret (Some pc)
              /\ GetPlayer pc = m_cur_player st) /\
  (m_game_over st = false ->
   count_slots (is_king_of White) (m_board st) = 1%nat /\
   count_slots (is_king_of Black) (m_board st) = 1%nat) /\
  (m_game_over st = true ->
   count_slots (is_king_of (m_cur_player st)) (m_board st) = 0%nat /\
   count_slots (is_king_of (other_player (m_cur_player st))) (m_board st) = 1%nat).

(** What [Draw] hands over for the cell of [row] and [col] of [board]. *)
Definition cell_cmds (board : Board) (row col : Z) : list DrawCmd :=
  DrawSpace col row (space_color row col)
  :: match cell_of board col row with
     | Some pc => [DrawPiece col row (GetSpriteDim pc)]
     | None => []
     end.

(** ** Proof steps used throughout *)

(** Unfolds the range predicates down to linear constraints. *)
Ltac ranges :=
  unfold origin_ok, on_board, Int32.in_range, Int32.min_int, Int32.max_int in *;
  simpl in *.

(** Cases on every comparison of integers in the goal. *)
Ltac zcases :=
  repeat match goal with
    | |- context [?a >? ?b] => rewrite (Z.gtb_ltb a b)
    | |- context [?a >=? ?b] => rewrite (Z.geb_leb a b)
    | |- context [?a =? ?b] => destruct (Z.eqb_spec a b)
    | |- context [?a <? ?b] => destruct (Z.ltb_spec a b)
    | |- context [?a <=? ?b] => destruct (Z.leb_spec a b)
    end.

(** * Proofs *)

(** ** Arithmetic of [int] *)

Lemma wrap_in_range (z : Z) : Int32.in_range z -> Int32.wrap z = z.
Proof.
  unfold Int32.in_range, Int32.wrap, Int32.min_int, Int32.max_int, Int32.modulus.
  intros Hz. rewrite Z.mod_small; lia.
Qed.

Lemma wrap_range (z : Z) : Int32.in_range (Int32.wrap z).
Proof.
  unfold Int32.in_range, Int32.wrap, Int32.min_int, Int32.max_int, Int32.modulus.
  pose proof (Z.mod_pos_bound (z - -2147483648) 4294967296); lia.
Qed.

Lemma sub_exact (a b : Z) : Int32.in_range (a - b) -> Int32.sub a b = a - b.
Proof. apply wrap_in_range. Qed.

Lemma add_exact (a b : Z) : Int32.in_range (a + b) -> Int32.add a b = a + b.
Proof. apply wrap_in_range. Qed.

Lemma mul_exact (a b : Z) : Int32.in_range (a * b) -> Int32.mul a b = a * b.
Proof. apply wrap_in_range. Qed.

Lemma abs_exact (a : Z) : Int32.in_range (Z.abs a) -> Int32.abs a = Z.abs a.
Proof. apply wrap_in_range. Qed.

Lemma out_of_bounds_false (c : BoardCoord) : out_of_bounds c = false <-> on_board c.
Proof.
  unfold out_of_bounds, on_board. zcases; simpl; split; intros; try discriminate; try lia; reflexivity.
Qed.

Lemma out_of_bounds_true (c : BoardCoord) : out_of_bounds c = true <-> ~ on_board c.
Proof.
  rewrite <- out_of_bounds_false. destruct (out_of_bounds c); split; congruence.
Qed.

Lemma on_board_origin_ok (c : BoardCoord) : on_board c -> origin_ok c.
Proof. ranges; lia. Qed.

Lemma coord_eqb_eq (a b : BoardCoord) : coord_eqb a b = true <-> a = b.
Proof.
  destruct a as [ax ay], b as [bx by']; unfold coord_eqb; simpl.
  rewrite andb_true_iff, !Z.eqb_eq. split; [intros []; congruence | intros [= -> ->]; auto].
Qed.

Lemma coord_eqb_refl (a : BoardCoord) : coord_eqb a a = true.
Proof. apply coord_eqb_eq; reflexivity. Qed.

(** The differences a legality check takes, for an origin free of overflow
    and a destination of the board. *)
Lemma deltas_exact (from to : BoardCoord) :
  origin_ok from -> on_board to ->
  Int32.sub (x from) (x to) = x from - x to /\
  Int32.sub (y from) (y to) = y from - y to /\
  Int32.sub (x to) (x from) = x to - x from /\
  Int32.sub (y to) (y from) = y to - y from /\
  Int32.abs (x from - x to) = Z.abs (x from - x to) /\
  Int32.abs (y from - y to) = Z.abs (y from - y to) /\
  Int32.abs (x to - x from) = Z.abs (x to - x from) /\
  Int32.abs (y to - y from) = Z.abs (y to - y from).
Proof.
  intros Hf Ht.
  repeat split; first [apply sub_exact | apply abs_exact]; ranges; lia.
Qed.

(** ** King *)

Lemma King_IsValidMove_returns (board : Board) (from to : BoardCoord) :
  origin_ok from ->
  exists b, King_IsValidMove board from to = Ret b /\
    (b = true <-> on_board to /\ Z.abs (x from - x to) <= 1
                              /\ Z.abs (y from - y to) <= 1).
Proof.
  intros Hf. unfold King_IsValidMove.
  destruct (out_of_bounds to) eqn:Hoob.
  - exists false. split; [reflexivity |].
    apply out_of_bounds_true in Hoob. split; [discriminate | tauto].
  - apply out_of_bounds_false in Hoob.
    destruct (deltas_exact from to Hf Hoob) as (-> & -> & _ & _ & -> & -> & _).
    zcases; simpl; eexists; (split; [reflexivity |]);
      split; try discriminate; try tauto; try lia.
Qed.

(** C7. King legality: for every grid and destination, and every origin whose
    coordinate differences do not overflow, the King's check returns, and
    returns true exactly when the destination is on the board and both
    coordinate deltas are at most 1 in absolute value.  The null move from a
    square of the board to itself is accepted, whereas Rook, Bishop and Queen
    reject origin = destination. *)
Theorem King_legality (board : Board) (from to : BoardCoord) :
  origin_ok from ->
  (exists b, King_IsValidMove board from to = Ret b /\
     (b = true <-> on_board to /\ Z.abs (x from - x to) <= 1
                               /\ Z.abs (y from - y to) <= 1)) /\
  (on_board from -> King_IsValidMove board from from = Ret true) /\
  Rook_IsValidMove board from from = Ret false /\
  Bishop_IsValidMove board from from = Ret false /\
  Queen_IsValidMove board from from = Ret false.
Proof.
  intros Hf. split; [by apply King_IsValidMove_returns |]. split.
  - intros Hb. destruct (King_IsValidMove_returns board from from Hf) as (b & -> & Hiff).
    f_equal. apply Hiff. split; [assumption | lia].
  - unfold Rook_IsValidMove, Bishop_IsValidMove, Queen_IsValidMove.
    rewrite coord_eqb_refl. auto.
Qed.

Lemma King_legality_witness :
  origin_ok (mkBoardCoord 4 7) /\
  King_IsValidMove initial_board (mkBoardCoord 4 7) (mkBoardCoord 4 7) = Ret true.
Proof.
  assert (H : origin_ok (mkBoardCoord 4 7)) by (ranges; lia).
  split; [exact H |].
  apply (King_legality initial_board (mkBoardCoord 4 7) (mkBoardCoord 4 7) H).
  ranges; lia.
Defined.

(** ** Knight *)

(** The Knight's check returns, and returns true exactly on the L-shaped
    moves that land on the board. *)
Lemma Knight_IsValidMove_returns (board : Board) (from to : BoardCoord) :
  origin_ok from ->
  exists b, Knight_IsValidMove board from to = Ret b /\
    (b = true <->
     on_board to /\
     ((Z.abs (x to - x from) = 1 /\ Z.abs (y to - y from) = 2) \/
      (Z.abs (x to - x from) = 2 /\ Z.abs (y to - y from) = 1))).
Proof.
  intros Hf. unfold Knight_IsValidMove.
  destruct (out_of_bounds to) eqn:Hoob.
  - exists false. split; [reflexivity |].
    apply out_of_bounds_true in Hoob. split; [discriminate | tauto].
  - apply out_of_bounds_false in Hoob.
    destruct (deltas_exact from to Hf Hoob) as (_ & _ & -> & -> & _ & _ & -> & ->).
    eexists. split; [reflexivity |].
    rewrite orb_true_iff, !andb_true_iff, !Z.eqb_eq. tauto.
Qed.

(** ** Destinations off the board *)

Lemma IsValidMove_out_of_bounds (board : Board) (from to : BoardCoord) :
  out_of_bounds to = true ->
  King_IsValidMove board from to = Ret false /\
  Queen_IsValidMove board from to = Ret false /\
  Rook_IsValidMove board from to = Ret false /\
  Bishop_IsValidMove board from to = Ret false /\
  Knight_IsValidMove board from to = Ret false /\
  (forall p, Pawn_IsValidMove p board from to = Ret false) /\
  (forall pc, IsValidMove pc board from to = Ret false).
Proof.
  intros Hoob.
  assert (HK : King_IsValidMove board from to = Ret false)
    by (unfold King_IsValidMove; by rewrite Hoob).
  assert (HQ : Queen_IsValidMove board from to = Ret false)
    by (unfold Queen_IsValidMove; rewrite Hoob; by destruct (coord_eqb to from)).
  assert (HR : Rook_IsValidMove board from to = Ret false)
    by (unfold Rook_IsValidMove; rewrite Hoob; by destruct (coord_eqb to from)).
  assert (HB : Bishop_IsValidMove board from to = Ret false)
    by (unfold Bishop_IsValidMove; rewrite Hoob; by destruct (coord_eqb to from)).
  assert (HN : Knight_IsValidMove board from to = Ret false)
    by (unfold Knight_IsValidMove; by rewrite Hoob).
  assert (HP : forall p, Pawn_IsValidMove p board from to = Ret false)
    by (intros p; unfold Pawn_IsValidMove; by rewrite Hoob).
  repeat split; try assumption.
  intros [[] p]; unfold IsValidMove; cbn [piece_type m_player]; auto.
Qed.

(** A move the virtual call accepts lands on the board. *)
Lemma IsValidMove_true_on_board (pc : Piece) (board : Board) (from to : BoardCoord) :
  IsValidMove pc board from to = Ret true -> on_board to.
Proof.
  intros Hvalid. apply out_of_bounds_false.
  destruct (out_of_bounds to) eqn:Hoob; [| reflexivity].
  destruct (IsValidMove_out_of_bounds board from to Hoob) as (_ & _ & _ & _ & _ & _ & H).
  rewrite H in Hvalid. discriminate.
Qed.

(** C8. Out-of-bounds rejection: for every grid, origin and moving player, a
    destination with a coordinate outside [0,8) is rejected by each of the six
    legality checks, and so by the virtual call on any piece. *)
Theorem out_of_bounds_rejected (board : Board) (from to : BoardCoord) :
  ~ on_board to ->
  King_IsValidMove board from to = Ret false /\
  Queen_IsValidMove board from to = Ret false /\
  Rook_IsValidMove board from to = Ret false /\
  Bishop_IsValidMove board from to = Ret false /\
  Knight_IsValidMove board from to = Ret false /\
  (forall p, Pawn_IsValidMove p board from to = Ret false) /\
  (forall pc, IsValidMove pc board from to = Ret false).
Proof.
  intros Hoob%out_of_bounds_true. by apply IsValidMove_out_of_bounds.
Qed.

Lemma out_of_bounds_rejected_witness :
  ~ on_board (mkBoardCoord 8 0) /\
  Rook_IsValidMove initial_board (mkBoardCoord 7 0) (mkBoardCoord 8 0) = Ret false.
Proof.
  assert (H : ~ on_board (mkBoardCoord 8 0)) by (ranges; lia).
  split; [exact H |].
  apply (out_of_bounds_rejected initial_board (mkBoardCoord 7 0) (mkBoardCoord 8 0) H).
Defined.

(** ** The two walks *)

Section Walks.

Variable board : Board.

Lemma axis_walk_unfold (fuel : nat) (tx ty fx end_ step i : Z) :
  axis_walk (S fuel) board tx ty fx end_ step i =
  if i =? end_ then Ret true
  else do piece <- axis_read board tx ty fx i;
       if is_piece piece then Ret false
       else axis_walk fuel board tx ty fx end_ step (Int32.add i step).
Proof. reflexivity. Qed.

(** [n] steps separate [i] from the end of the walk, and the [n] reads
    succeed: the walk returns, and returns true exactly when the [n] cells
    are empty. *)
Lemma axis_walk_steps (cell : Z -> option Piece) (tx ty fx step : Z) (fuel : nat) :
  step = 1 \/ step = -1 ->
  forall n i,
    0 <= n -> (Z.to_nat n <= fuel)%nat ->
    Int32.in_range i -> Int32.in_range (i + n * step) ->
    (forall k, 0 <= k < n ->
               axis_read board tx ty fx (i + k * step) = Ret (cell (i + k * step))) ->
    exists b, axis_walk fuel board tx ty fx (i + n * step) step i = Ret b /\
              (b = true <-> forall k, 0 <= k < n -> cell (i + k * step) = None).
Proof.
  intros Hstep. induction fuel as [| fuel IH]; intros n i Hn Hfuel Hi Hend Hread.
  - assert (n = 0) as -> by lia. simpl. rewrite Z.add_0_r, Z.eqb_refl.
    exists true. split; [reflexivity |]. split; [intros _ k Hk; lia | reflexivity].
  - rewrite axis_walk_unfold. destruct (Z.eqb_spec i (i + n * step)) as [Heq | Hne].
    + exists true. split; [reflexivity |].
      split; [| reflexivity]. intros _ k Hk.
      assert (n = 0) by (destruct Hstep; subst step; lia). lia.
    + assert (0 < n) as Hpos by (destruct (Z.eq_dec n 0); [subst n; lia | lia]).
      pose proof (Hread 0 ltac:(lia)) as H0. rewrite Z.add_0_r in H0.
      rewrite H0. simpl.
      destruct (cell i) as [pc |] eqn:Hcell; simpl.
      * exists false. split; [reflexivity |]. split; [discriminate |].
        intros Hall. specialize (Hall 0 ltac:(lia)).
        rewrite Z.add_0_r in Hall. congruence.
      * assert (Int32.add i step = i + step) as ->.
        { apply add_exact. ranges. destruct Hstep; subst step; lia. }
        replace (i + n * step) with ((i + step) + (n - 1) * step) by lia.
        destruct (IH (n - 1) (i + step)) as (b & Hb & Hiff).
        -- lia.
        -- lia.
        -- ranges. destruct Hstep; subst step; lia.
        -- replace (i + step + (n - 1) * step) with (i + n * step) by lia. exact Hend.
        -- intros k Hk.
           replace (i + step + k * step) with (i + (k + 1) * step) by lia.
           apply Hread. lia.
        -- exists b. split; [exact Hb |]. rewrite Hiff. split.
           ++ intros Hall k Hk. destruct (Z.eq_dec k 0) as [-> | Hk0].
              ** by rewrite Z.add_0_r.
              ** replace (i + k * step) with (i + step + (k - 1) * step) by lia.
                 apply Hall. lia.
           ++ intros Hall k Hk.
              replace (i + step + k * step) with (i + (k + 1) * step) by lia.
              apply Hall. lia.
Qed.

Lemma diagonal_walk_unfold (fuel : nat) (tx xstep ystep ix iy : Z) :
  diagonal_walk (S fuel) board tx xstep ystep ix iy =
  if ix =? tx then Ret true
  else do piece <- vec_at board (Int32.add (Int32.mul iy 8) ix);
       if is_piece piece then Ret false
       else diagonal_walk fuel board tx xstep ystep
              (Int32.add ix xstep) (Int32.add iy ystep).
Proof. reflexivity. Qed.

(** The same for a diagonal, whose reads are at [(ix + k * xstep, iy + k * ystep)]. *)
Lemma diagonal_walk_steps (cell : Z -> Z -> option Piece) (xstep ystep : Z) (fuel : nat) :
  xstep = 1 \/ xstep = -1 ->
  ystep = 1 \/ ystep = -1 ->
  forall n ix iy,
    0 <= n -> (Z.to_nat n <= fuel)%nat ->
    Int32.in_range ix -> Int32.in_range (ix + n * xstep) ->
    Int32.in_range iy -> Int32.in_range (iy + n * ystep) ->
    (forall k, 0 <= k < n ->
       vec_at board (Int32.add (Int32.mul (iy + k * ystep) 8) (ix + k * xstep))
       = Ret (cell (ix + k * xstep) (iy + k * ystep))) ->
    exists b, diagonal_walk fuel board (ix + n * xstep) xstep ystep ix iy = Ret b /\
              (b = true <->
               forall k, 0 <= k < n -> cell (ix + k * xstep) (iy + k * ystep) = None).
Proof.
  intros Hxs Hys.
  induction fuel as [| fuel IH]; intros n ix iy Hn Hfuel Hix Hxend Hiy Hyend Hread.
  - assert (n = 0) as -> by lia. simpl. rewrite Z.add_0_r, Z.eqb_refl.
    exists true. split; [reflexivity |]. split; [intros _ k Hk; lia | reflexivity].
  - rewrite diagonal_walk_unfold. destruct (Z.eqb_spec ix (ix + n * xstep)) as [Heq | Hne].
    + exists true. split; [reflexivity |].
      split; [| reflexivity]. intros _ k Hk.
      assert (n = 0) by (destruct Hxs; subst xstep; lia). lia.
    + assert (0 < n) as Hpos by (destruct (Z.eq_dec n 0); [subst n; lia | lia]).
      pose proof (Hread 0 ltac:(lia)) as H0. rewrite !Z.add_0_r in H0.
      rewrite H0. simpl.
      destruct (cell ix iy) as [pc |] eqn:Hcell; simpl.
      * exists false. split; [reflexivity |]. split; [discriminate |].
        intros Hall. specialize (Hall 0 ltac:(lia)).
        rewrite !Z.add_0_r in Hall. congruence.
      * assert (Int32.add ix xstep = ix + xstep) as ->.
        { apply add_exact. ranges. destruct Hxs; subst xstep; lia. }
        assert (Int32.add iy ystep = iy + ystep) as ->.
        { apply add_exact. ranges. destruct Hys; subst ystep; lia. }
        replace (ix + n * xstep) with ((ix + xstep) + (n - 1) * xstep) by lia.
        destruct (IH (n - 1) (ix + xstep) (iy + ystep)) as (b & Hb & Hiff).
        -- lia.
        -- lia.
        -- ranges. destruct Hxs; subst xstep; lia.
        -- replace (ix + xstep + (n - 1) * xstep) with (ix + n * xstep) by lia. exact Hxend.
        -- ranges. destruct Hys; subst ystep; lia.
        -- replace (iy + ystep + (n - 1) * ystep) with (iy + n * ystep) by lia. exact Hyend.
        -- intros k Hk.
           replace (ix + xstep + k * xstep) with (ix + (k + 1) * xstep) by lia.
           replace (iy + ystep + k * ystep) with (iy + (k + 1) * ystep) by lia.
           apply Hread. lia.
        -- exists b. split; [exact Hb |]. rewrite Hiff. split.
           ++ intros Hall k Hk. destruct (Z.eq_dec k 0) as [-> | Hk0].
              ** by rewrite !Z.add_0_r.
              ** replace (ix + k * xstep) with (ix + xstep + (k - 1) * xstep) by lia.
                 replace (iy + k * ystep) with (iy + ystep + (k - 1) * ystep) by lia.
                 apply Hall. lia.
           ++ intros Hall k Hk.
              replace (ix + xstep + k * xstep) with (ix + (k + 1) * xstep) by lia.
              replace (iy + ystep + k * ystep) with (iy + (k + 1) * ystep) by lia.
              apply Hall. lia.
Qed.

End Walks.

(** ** Reads of a board of 64 slots *)

Lemma index_exact (col row : Z) :
  0 <= col < 8 -> 0 <= row < 8 -> Int32.add (Int32.mul row 8) col = row * 8 + col.
Proof.
  intros Hx Hy. rewrite (mul_exact row 8) by (ranges; lia). apply add_exact. ranges; lia.
Qed.

Lemma index_of_on_board (c : BoardCoord) :
  on_board c -> index_of c = y c * 8 + x c.
Proof. intros [Hx Hy]. by apply index_exact. Qed.

Lemma lookup_on_board (board : Board) (col row : Z) :
  length board = 64%nat -> 0 <= col < 8 -> 0 <= row < 8 ->
  board !! Z.to_nat (row * 8 + col) = Some (cell_of board col row).
Proof.
  intros Hlen Hx Hy. unfold cell_of.
  destruct (lookup_lt_is_Some_2 board (Z.to_nat (row * 8 + col))) as [slot ->]; [lia | reflexivity].
Qed.

Lemma vec_at_on_board (board : Board) (col row : Z) :
  length board = 64%nat -> 0 <= col < 8 -> 0 <= row < 8 ->
  vec_at board (Int32.add (Int32.mul row 8) col) = Ret (cell_of board col row).
Proof.
  intros Hlen Hx Hy. rewrite (index_exact col row) by assumption. unfold vec_at.
  rewrite (lookup_on_board board col row) by assumption.
  destruct (Z.leb_spec 0 (row * 8 + col)); [reflexivity | lia].
Qed.

Lemma vec_get_on_board (board : Board) (col row : Z) :
  length board = 64%nat -> 0 <= col < 8 -> 0 <= row < 8 ->
  vec_get board (Int32.add (Int32.mul row 8) col) = Ret (cell_of board col row).
Proof.
  intros Hlen Hx Hy. rewrite (index_exact col row) by assumption. unfold vec_get.
  rewrite (lookup_on_board board col row) by assumption.
  destruct (Z.leb_spec 0 (row * 8 + col)); [reflexivity | lia].
Qed.

Lemma cell_of_empty (board : Board) (c : BoardCoord) :
  length board = 64%nat -> on_board c ->
  cell_of board (x c) (y c) = None <-> empty_at board c.
Proof.
  intros Hlen [Hx Hy]. unfold empty_at, slot_of.
  rewrite (lookup_on_board board (x c) (y c)) by assumption.
  split; [intros -> | intros [= ->]]; reflexivity.
Qed.

Lemma cell_of_occupied (board : Board) (c : BoardCoord) :
  length board = 64%nat -> on_board c ->
  is_piece (cell_of board (x c) (y c)) = true <-> occupied_at board c.
Proof.
  intros Hlen [Hx Hy]. unfold occupied_at, slot_of.
  rewrite (lookup_on_board board (x c) (y c)) by assumption.
  destruct (cell_of board (x c) (y c)) as [pc |]; simpl; split.
  - intros _. by exists pc.
  - reflexivity.
  - discriminate.
  - intros [pc [=]].
Qed.

(** ** The walks on a board of 64 slots *)

(** The row or column walk between two squares of the board returns, and
    returns true exactly when the squares strictly between are empty. *)
Lemma axis_branch_returns (board : Board) (from to : BoardCoord) :
  length board = 64%nat -> on_board from -> on_board to -> from <> to ->
  x from = x to \/ y from = y to ->
  exists b, axis_branch board from to = Ret b /\
            (b = true <-> forall c, strictly_between from to c -> empty_at board c).
Proof.
  intros Hlen [Hfx Hfy] [Htx Hty] Hne Haxis.
  destruct from as [fx fy], to as [tx ty]; simpl in *.
  unfold axis_branch; simpl.
  destruct (Z.eqb_spec tx fx) as [-> | Hx]; simpl.
  - (* a column *)
    assert (fy <> ty) as Hy by congruence.
    set (step := if fy <? ty then 1 else -1).
    assert (Hstep : step = 1 \/ step = -1) by (unfold step; destruct (fy <? ty); auto).
    set (n := Z.abs (ty - fy) - 1).
    assert (Hend : fy + step + n * step = ty)
      by (unfold step, n; destruct (Z.ltb_spec fy ty); lia).
    rewrite (add_exact fy step) by (ranges; destruct Hstep as [-> | ->]; lia).
    destruct (axis_walk_steps board (fun j => cell_of board fx j) fx ty fx step
                (walk_fuel fy ty) Hstep n (fy + step)) as (b & Hb & Hiff).
    + unfold n; lia.
    + unfold walk_fuel, n; lia.
    + ranges; destruct Hstep as [-> | ->]; lia.
    + rewrite Hend. ranges; lia.
    + intros k Hk. unfold axis_read. rewrite Z.eqb_refl. simpl.
      apply vec_at_on_board; [assumption | lia |].
      unfold step, n in *. destruct (Z.ltb_spec fy ty); lia.
    + rewrite Hend in Hb. exists b. split; [exact Hb |]. rewrite Hiff. split.
      * intros Hall c [(_ & _ & Hbt) | (_ & Hcx & Hbt)]; unfold between in Hbt; simpl in *.
        { lia. }
        apply cell_of_empty; [assumption | split; lia |]. rewrite Hcx.
        specialize (Hall (Z.abs (y c - fy) - 1)).
        replace (fy + step + (Z.abs (y c - fy) - 1) * step) with (y c) in Hall
          by (unfold step; destruct (Z.ltb_spec fy ty); lia).
        apply Hall. unfold n. lia.
      * intros Hall k Hk.
        assert (Hin : 0 <= fy + step + k * step < 8)
          by (unfold step, n in *; destruct (Z.ltb_spec fy ty); lia).
        apply (cell_of_empty board (mkBoardCoord fx (fy + step + k * step)));
          [assumption | split; simpl; lia |].
        apply Hall. right. simpl. unfold between.
        unfold step, n in *. destruct (Z.ltb_spec fy ty); lia.
  - (* a row *)
    assert (fy = ty) as -> by (destruct Haxis; congruence).
    set (step := if fx <? tx then 1 else -1).
    assert (Hstep : step = 1 \/ step = -1) by (unfold step; destruct (fx <? tx); auto).
    set (n := Z.abs (tx - fx) - 1).
    assert (Hend : fx + step + n * step = tx)
      by (unfold step, n; destruct (Z.ltb_spec fx tx); lia).
    rewrite (add_exact fx step) by (ranges; destruct Hstep as [-> | ->]; lia).
    destruct (axis_walk_steps board (fun j => cell_of board j ty) tx ty fx step
                (walk_fuel fx tx) Hstep n (fx + step)) as (b & Hb & Hiff).
    + unfold n; lia.
    + unfold walk_fuel, n; lia.
    + ranges; destruct Hstep as [-> | ->]; lia.
    + rewrite Hend. ranges; lia.
    + intros k Hk. unfold axis_read.
      destruct (Z.eqb_spec tx fx); [congruence |]. simpl.
      apply vec_at_on_board; [assumption | | lia].
      unfold step, n in *. destruct (Z.ltb_spec fx tx); lia.
    + rewrite Hend in Hb. exists b. split; [exact Hb |]. rewrite Hiff. split.
      * intros Hall c [(_ & Hcy & Hbt) | (? & _ & Hbt)]; unfold between in Hbt; simpl in *.
        2: { lia. }
        apply cell_of_empty; [assumption | split; lia |]. rewrite Hcy.
        specialize (Hall (Z.abs (x c - fx) - 1)).
        replace (fx + step + (Z.abs (x c - fx) - 1) * step) with (x c) in Hall
          by (unfold step; destruct (Z.ltb_spec fx tx); lia).
        apply Hall. unfold n. lia.
      * intros Hall k Hk.
        assert (Hin : 0 <= fx + step + k * step < 8)
          by (unfold step, n in *; destruct (Z.ltb_spec fx tx); lia).
        apply (cell_of_empty board (mkBoardCoord (fx + step + k * step) ty));
          [assumption | split; simpl; lia |].
        apply Hall. left. simpl. unfold between.
        unfold step, n in *. destruct (Z.ltb_spec fx tx); lia.
Qed.

(** The diagonal walk between two squares of the board returns, and returns
    true exactly when the squares strictly between are empty. *)
Lemma diagonal_branch_returns (board : Board) (from to : BoardCoord) :
  length board = 64%nat -> on_board from -> on_board to ->
  x from <> x to ->
  Z.abs (x from - x to) = Z.abs (y from - y to) ->
  exists b, diagonal_branch board from to = Ret b /\
            (b = true <-> forall c, diagonally_between from to c -> empty_at board c).
Proof.
  intros Hlen [Hfx Hfy] [Htx Hty] Hne Hdiag.
  destruct from as [fx fy], to as [tx ty]; simpl in *.
  unfold diagonal_branch; simpl.
  set (xstep := if fx <? tx then 1 else -1).
  set (ystep := if fy <? ty then 1 else -1).
  assert (Hxs : xstep = 1 \/ xstep = -1) by (unfold xstep; destruct (fx <? tx); auto).
  assert (Hys : ystep = 1 \/ ystep = -1) by (unfold ystep; destruct (fy <? ty); auto).
  set (n := Z.abs (tx - fx) - 1).
  assert (Hxend : fx + xstep + n * xstep = tx)
    by (unfold xstep, n; destruct (Z.ltb_spec fx tx); lia).
  assert (Hyend : fy + ystep + n * ystep = ty)
    by (unfold ystep, n; destruct (Z.ltb_spec fy ty); lia).
  rewrite (add_exact fx xstep) by (ranges; destruct Hxs as [-> | ->]; lia).
  rewrite (add_exact fy ystep) by (ranges; destruct Hys as [-> | ->]; lia).
  destruct (diagonal_walk_steps board (cell_of board) xstep ystep (walk_fuel fx tx)
              Hxs Hys n (fx + xstep) (fy + ystep)) as (b & Hb & Hiff).
  - unfold n; lia.
  - unfold walk_fuel, n; lia.
  - ranges; destruct Hxs as [-> | ->]; lia.
  - rewrite Hxend. ranges; lia.
  - ranges; destruct Hys as [-> | ->]; lia.
  - rewrite Hyend. ranges; lia.
  - intros k Hk. apply vec_at_on_board; [assumption | |].
    + unfold xstep, n in *. destruct (Z.ltb_spec fx tx); lia.
    + unfold ystep, n in *. destruct (Z.ltb_spec fy ty); lia.
  - rewrite Hxend in Hb. exists b. split; [exact Hb |]. rewrite Hiff. split.
    + intros Hall c (Hbx & Hby & Habs); unfold between in Hbx, Hby; simpl in *.
      apply cell_of_empty; [assumption | split; lia |].
      specialize (Hall (Z.abs (x c - fx) - 1)).
      replace (fx + xstep + (Z.abs (x c - fx) - 1) * xstep) with (x c) in Hall
        by (unfold xstep; destruct (Z.ltb_spec fx tx); lia).
      replace (fy + ystep + (Z.abs (x c - fx) - 1) * ystep) with (y c) in Hall
        by (unfold ystep; destruct (Z.ltb_spec fy ty); lia).
      apply Hall. unfold n. lia.
    + intros Hall k Hk.
      assert (Hinx : 0 <= fx + xstep + k * xstep < 8)
        by (unfold xstep, n in *; destruct (Z.ltb_spec fx tx); lia).
      assert (Hiny : 0 <= fy + ystep + k * ystep < 8)
        by (unfold ystep, n in *; destruct (Z.ltb_spec fy ty); lia).
      apply (cell_of_empty board
               (mkBoardCoord (fx + xstep + k * xstep) (fy + ystep + k * ystep)));
        [assumption | split; simpl; lia |].
      apply Hall. unfold diagonally_between, between; simpl.
      unfold xstep, ystep, n in *.
      destruct (Z.ltb_spec fx tx); destruct (Z.ltb_spec fy ty); lia.
Qed.

(** ** Rook *)

Lemma Rook_IsValidMove_false (board : Board) (from to : BoardCoord) :
  from = to \/ ~ on_board to \/ (x from <> x to /\ y from <> y to) ->
  Rook_IsValidMove board from to = Ret false.
Proof.
  intros H. unfold Rook_IsValidMove.
  destruct (coord_eqb to from) eqn:Heq; [reflexivity |].
  destruct (out_of_bounds to) eqn:Hoob; [reflexivity |].
  destruct H as [-> | [Hout | [Hx Hy]]].
  - by rewrite coord_eqb_refl in Heq.
  - apply out_of_bounds_true in Hout. congruence.
  - destruct (Z.eqb_spec (x to) (x from)); [congruence |].
    destruct (Z.eqb_spec (y to) (y from)); [congruence | reflexivity].
Qed.

Lemma Rook_IsValidMove_axis (board : Board) (from to : BoardCoord) :
  from <> to -> on_board to -> x from = x to \/ y from = y to ->
  Rook_IsValidMove board from to = axis_branch board from to.
Proof.
  intros Hne Hto Haxis. unfold Rook_IsValidMove.
  destruct (coord_eqb to from) eqn:Heq.
  { apply coord_eqb_eq in Heq. congruence. }
  apply out_of_bounds_false in Hto. rewrite Hto.
  destruct (Z.eqb_spec (x to) (x from)); simpl; [reflexivity |].
  destruct (Z.eqb_spec (y to) (y from)); simpl; [reflexivity |].
  destruct Haxis; congruence.
Qed.

Lemma strictly_between_on_board (from to c : BoardCoord) :
  on_board from -> on_board to -> strictly_between from to c ->
  on_board c /\ c <> to /\ c <> from.
Proof.
  intros [Hfx Hfy] [Htx Hty] [(H1 & H2 & Hb) | (H1 & H2 & Hb)];
    unfold between in Hb; (split; [split; lia |]);
    split; intros ->; lia.
Qed.

Lemma slot_of_inj (c d : BoardCoord) :
  on_board c -> on_board d -> slot_of c = slot_of d -> c = d.
Proof.
  destruct c as [col row], d as [col' row']; unfold on_board, slot_of; simpl.
  intros Hc Hd Heq. assert (col = col' /\ row = row') as [-> ->] by lia. reflexivity.
Qed.

(** C1. Rook legality.  For every grid, origin and destination the check
    returns false when origin = destination, or the destination is off the
    board, or the move leaves both the row and the column.  Otherwise, on the
    64 slots and from a square of the board, it returns, and returns true
    exactly when every square strictly between origin and destination is
    empty; the answer depends on the squares strictly between only, so that
    neither the destination's nor the origin's content changes it. *)
Theorem Rook_legality (board : Board) (from to : BoardCoord) :
  (from = to \/ ~ on_board to \/ (x from <> x to /\ y from <> y to) ->
   Rook_IsValidMove board from to = Ret false) /\
  (length board = 64%nat -> on_board from -> on_board to -> from <> to ->
   x from = x to \/ y from = y to ->
   exists b,
     Rook_IsValidMove board from to = Ret b /\
     (b = true <-> forall c, strictly_between from to c -> empty_at board c) /\
     (forall board' : Board,
         length board' = 64%nat ->
         (forall c, strictly_between from to c ->
                    board' !! slot_of c = board !! slot_of c) ->
         Rook_IsValidMove board' from to = Ret b) /\
     (forall v, Rook_IsValidMove (<[slot_of to := v]> board) from to = Ret b) /\
     (forall v, Rook_IsValidMove (<[slot_of from := v]> board) from to = Ret b)).
Proof.
  split; [apply Rook_IsValidMove_false |].
  intros Hlen Hfrom Hto Hne Haxis.
  destruct (axis_branch_returns board from to Hlen Hfrom Hto Hne Haxis) as (b & Hb & Hiff).
  assert (Hindep : forall board' : Board,
             length board' = 64%nat ->
             (forall c, strictly_between from to c ->
                        board' !! slot_of c = board !! slot_of c) ->
             Rook_IsValidMove board' from to = Ret b).
  { intros board' Hlen' Hsame.
    rewrite Rook_IsValidMove_axis by assumption.
    destruct (axis_branch_returns board' from to Hlen' Hfrom Hto Hne Haxis)
      as (b' & Hb' & Hiff').
    rewrite Hb'. f_equal.
    assert (b' = true <-> b = true) as Hbb.
    { rewrite Hiff, Hiff'. unfold empty_at.
      split; intros Hall c Hc; [rewrite <- Hsame | rewrite Hsame]; auto. }
    destruct b, b'; intuition congruence. }
  exists b. split; [| split; [exact Hiff | split; [exact Hindep | split]]].
  - rewrite Rook_IsValidMove_axis by assumption. exact Hb.
  - intros v. apply Hindep; [by rewrite length_insert |].
    intros c Hc. apply list_lookup_insert_ne.
    destruct (strictly_between_on_board from to c Hfrom Hto Hc) as (Hc1 & Hc2 & _).
    intros Heq. apply Hc2. symmetry. by apply slot_of_inj.
  - intros v. apply Hindep; [by rewrite length_insert |].
    intros c Hc. apply list_lookup_insert_ne.
    destruct (strictly_between_on_board from to c Hfrom Hto Hc) as (Hc1 & _ & Hc3).
    intros Heq. apply Hc3. symmetry. by apply slot_of_inj.
Qed.

Lemma Rook_legality_witness :
  length initial_board = 64%nat /\
  on_board (mkBoardCoord 0 7) /\ on_board (mkBoardCoord 0 2) /\
  mkBoardCoord 0 7 <> mkBoardCoord 0 2 /\
  Rook_IsValidMove initial_board (mkBoardCoord 0 7) (mkBoardCoord 0 2) = Ret false.
Proof.
  assert (H1 : length initial_board = 64%nat) by reflexivity.
  assert (H2 : on_board (mkBoardCoord 0 7)) by (ranges; lia).
  assert (H3 : on_board (mkBoardCoord 0 2)) by (ranges; lia).
  assert (H4 : mkBoardCoord 0 7 <> mkBoardCoord 0 2) by discriminate.
  repeat (split; [assumption |]).
  destruct (proj2 (Rook_legality initial_board (mkBoardCoord 0 7) (mkBoardCoord 0 2))
              H1 H2 H3 H4 (or_introl eq_refl)) as (b & Hb & Hiff & _).
  rewrite Hb. destruct b; [| reflexivity].
  assert (Hpawn : empty_at initial_board (mkBoardCoord 0 6)).
  { apply (proj1 Hiff eq_refl). right. unfold between. simpl. lia. }
  discriminate Hpawn.
Defined.

Lemma Rook_IsValidMove_returns (board : Board) (from to : BoardCoord) :
  length board = 64%nat -> on_board from ->
  exists b, Rook_IsValidMove board from to = Ret b.
Proof.
  intros Hlen Hfrom.
  destruct (coord_eqb from to) eqn:Heq.
  { apply coord_eqb_eq in Heq. exists false. apply Rook_IsValidMove_false. by left. }
  destruct (out_of_bounds to) eqn:Hoob.
  { apply out_of_bounds_true in Hoob. exists false. apply Rook_IsValidMove_false. auto. }
  apply out_of_bounds_false in Hoob.
  assert (from <> to) as Hne by (intros Hft; apply coord_eqb_eq in Hft; congruence).
  destruct (Z.eq_dec (x from) (x to)) as [Hx | Hx];
    [| destruct (Z.eq_dec (y from) (y to)) as [Hy | Hy]].
  - rewrite Rook_IsValidMove_axis by auto.
    destruct (axis_branch_returns board from to) as (b & Hb & _); eauto.
  - rewrite Rook_IsValidMove_axis by auto.
    destruct (axis_branch_returns board from to) as (b & Hb & _); eauto.
  - exists false. apply Rook_IsValidMove_false. auto.
Qed.

(** ** Bishop *)

Lemma abs_sub_zero (a : Z) : Int32.abs (Int32.sub a a) = 0.
Proof. unfold Int32.abs, Int32.sub. by rewrite Z.sub_diag. Qed.

Lemma abs_sub_nonzero (a b : Z) :
  Int32.in_range a -> 0 <= b < 8 -> a <> b -> Int32.abs (Int32.sub a b) <> 0.
Proof.
  unfold Int32.abs, Int32.sub, Int32.wrap, Int32.in_range,
    Int32.min_int, Int32.max_int, Int32.modulus.
  intros Ha Hb Hne. Z.div_mod_to_equations. lia.
Qed.

Lemma Bishop_IsValidMove_false (board : Board) (from to : BoardCoord) :
  from = to \/ ~ on_board to \/ x from = x to \/ y from = y to ->
  Bishop_IsValidMove board from to = Ret false.
Proof.
  intros H. unfold Bishop_IsValidMove.
  destruct (coord_eqb to from) eqn:Heq; [reflexivity |].
  destruct (out_of_bounds to) eqn:Hoob; [reflexivity |].
  destruct H as [-> | [Hout | Hxy]].
  - by rewrite coord_eqb_refl in Heq.
  - apply out_of_bounds_true in Hout. congruence.
  - destruct (Z.eqb_spec (x to) (x from)); [reflexivity |].
    destruct (Z.eqb_spec (y to) (y from)); [reflexivity |].
    destruct Hxy; congruence.
Qed.

(** Past the first three tests, the Bishop's check is the test of the two
    absolute values followed by the diagonal walk. *)
Lemma Bishop_IsValidMove_diagonal (board : Board) (from to : BoardCoord) :
  on_board to -> x from <> x to -> y from <> y to ->
  Bishop_IsValidMove board from to =
  if Int32.abs (Int32.sub (x from) (x to)) =? Int32.abs (Int32.sub (y from) (y to))
  then diagonal_branch board from to
  else Ret false.
Proof.
  intros Hto Hx Hy. unfold Bishop_IsValidMove.
  destruct (coord_eqb to from) eqn:Heq.
  { apply coord_eqb_eq in Heq. congruence. }
  apply out_of_bounds_false in Hto. rewrite Hto.
  destruct (Z.eqb_spec (x to) (x from)); [congruence |].
  destruct (Z.eqb_spec (y to) (y from)); [congruence |]. simpl.
  by destruct (_ =? _).
Qed.

Lemma Bishop_IsValidMove_returns (board : Board) (from to : BoardCoord) :
  length board = 64%nat -> on_board from ->
  exists b, Bishop_IsValidMove board from to = Ret b.
Proof.
  intros Hlen Hfrom.
  destruct (out_of_bounds to) eqn:Hoob.
  { apply out_of_bounds_true in Hoob. exists false. apply Bishop_IsValidMove_false. auto. }
  apply out_of_bounds_false in Hoob.
  destruct (Z.eq_dec (x from) (x to)) as [Hx | Hx].
  { exists false. apply Bishop_IsValidMove_false. auto. }
  destruct (Z.eq_dec (y from) (y to)) as [Hy | Hy].
  { exists false. apply Bishop_IsValidMove_false. auto. }
  rewrite Bishop_IsValidMove_diagonal by assumption.
  destruct (deltas_exact from to (on_board_origin_ok from Hfrom) Hoob)
    as (-> & -> & _ & _ & -> & -> & _).
  destruct (Z.eqb_spec (Z.abs (x from - x to)) (Z.abs (y from - y to))) as [Hd | Hd].
  - destruct (diagonal_branch_returns board from to) as (b & Hb & _); eauto.
  - by exists false.
Qed.

(** The Bishop's check on the 64 slots, between squares of the board. *)
Lemma Bishop_IsValidMove_spec (board : Board) (from to : BoardCoord) :
  length board = 64%nat -> on_board from -> on_board to ->
  exists b, Bishop_IsValidMove board from to = Ret b /\
    (b = true <->
     x from <> x to /\ Z.abs (x from - x to) = Z.abs (y from - y to) /\
     forall c, diagonally_between from to c -> empty_at board c).
Proof.
  intros Hlen Hfrom Hto.
  destruct (Z.eq_dec (x from) (x to)) as [Hx | Hx].
  { exists false. split; [apply Bishop_IsValidMove_false; auto |].
    split; [discriminate | tauto]. }
  destruct (Z.eq_dec (y from) (y to)) as [Hy | Hy].
  { exists false. split; [apply Bishop_IsValidMove_false; auto |].
    split; [discriminate | lia]. }
  rewrite Bishop_IsValidMove_diagonal by assumption.
  destruct (deltas_exact from to (on_board_origin_ok from Hfrom) Hto)
    as (-> & -> & _ & _ & -> & -> & _).
  destruct (Z.eqb_spec (Z.abs (x from - x to)) (Z.abs (y from - y to))) as [Hd | Hd].
  - destruct (diagonal_branch_returns board from to Hlen Hfrom Hto Hx Hd) as (b & Hb & Hiff).
    exists b. split; [exact Hb |]. rewrite Hiff. tauto.
  - exists false. split; [reflexivity |]. split; [discriminate | tauto].
Qed.

(** The Rook's check on the 64 slots, between squares of the board. *)
Lemma Rook_IsValidMove_spec (board : Board) (from to : BoardCoord) :
  length board = 64%nat -> on_board from -> on_board to ->
  exists b, Rook_IsValidMove board from to = Ret b /\
    (b = true <->
     from <> to /\ (x from = x to \/ y from = y to) /\
     forall c, strictly_between from to c -> empty_at board c).
Proof.
  intros Hlen Hfrom Hto.
  destruct (coord_eqb from to) eqn:Heq.
  { apply coord_eqb_eq in Heq. exists false.
    split; [apply Rook_IsValidMove_false; auto |]. split; [discriminate | tauto]. }
  assert (from <> to) as Hne by (intros Hft; apply coord_eqb_eq in Hft; congruence).
  destruct (Z.eq_dec (x from) (x to)) as [Hx | Hx];
    [| destruct (Z.eq_dec (y from) (y to)) as [Hy | Hy]].
  - rewrite Rook_IsValidMove_axis by auto.
    destruct (axis_branch_returns board from to) as (b & Hb & Hiff); auto.
    exists b. split; [exact Hb |]. rewrite Hiff. tauto.
  - rewrite Rook_IsValidMove_axis by auto.
    destruct (axis_branch_returns board from to) as (b & Hb & Hiff); auto.
    exists b. split; [exact Hb |]. rewrite Hiff. tauto.
  - exists false. split; [apply Rook_IsValidMove_false; auto |].
    split; [discriminate | tauto].
Qed.

(** ** Queen *)

Lemma bind_orb_false_r (m : outcome bool) :
  (do r <- m; do b <- Ret false; Ret (r || b)) = m.
Proof. destruct m as [[] |]; reflexivity. Qed.

(** The Queen's check is the Rook's where the Bishop's says no, or the
    Bishop's where the Rook's says no. *)
Lemma Queen_IsValidMove_cases (board : Board) (from to : BoardCoord) :
  Int32.in_range (x from) -> Int32.in_range (y from) ->
  (Queen_IsValidMove board from to = Rook_IsValidMove board from to /\
   Bishop_IsValidMove board from to = Ret false) \/
  (Queen_IsValidMove board from to = Bishop_IsValidMove board from to /\
   Rook_IsValidMove board from to = Ret false).
Proof.
  intros Hfx Hfy.
  destruct (coord_eqb to from) eqn:Heq.
  { left. unfold Queen_IsValidMove, Rook_IsValidMove, Bishop_IsValidMove.
    by rewrite Heq. }
  destruct (out_of_bounds to) eqn:Hoob.
  { left. unfold Queen_IsValidMove, Rook_IsValidMove, Bishop_IsValidMove.
    by rewrite Heq, Hoob. }
  assert (from <> to) as Hne by (intros ->; by rewrite coord_eqb_refl in Heq).
  pose proof Hoob as Hto. apply out_of_bounds_false in Hto. destruct Hto as [Htx Hty].
  destruct (Z.eq_dec (x from) (x to)) as [Hx | Hx];
    destruct (Z.eq_dec (y from) (y to)) as [Hy | Hy].
  - destruct from, to; simpl in *; congruence.
  - (* a column *)
    left. split; [| apply Bishop_IsValidMove_false; auto].
    rewrite Rook_IsValidMove_axis by (auto; by apply out_of_bounds_false).
    unfold Queen_IsValidMove. rewrite Heq, Hoob, Hx, abs_sub_zero.
    pose proof (abs_sub_nonzero (y from) (y to) Hfy Hty Hy) as Hnz.
    destruct (Z.eqb_spec 0 (Int32.abs (Int32.sub (y from) (y to)))); [congruence |].
    rewrite Z.eqb_refl.
    destruct (Z.eqb_spec (y from) (y to)); [congruence | reflexivity].
  - (* a row *)
    left. split; [| apply Bishop_IsValidMove_false; auto].
    rewrite Rook_IsValidMove_axis by (auto; by apply out_of_bounds_false).
    unfold Queen_IsValidMove. rewrite Heq, Hoob, Hy, abs_sub_zero.
    pose proof (abs_sub_nonzero (x from) (x to) Hfx Htx Hx) as Hnz.
    destruct (Z.eqb_spec (Int32.abs (Int32.sub (x from) (x to))) 0); [congruence |].
    rewrite Z.eqb_refl.
    destruct (Z.eqb_spec (x from) (x to)); [congruence | reflexivity].
  - (* neither *)
    right. split; [| apply Rook_IsValidMove_false; auto].
    rewrite Bishop_IsValidMove_diagonal by (auto; by apply out_of_bounds_false).
    unfold Queen_IsValidMove. rewrite Heq, Hoob.
    destruct (_ =? _); [reflexivity |].
    destruct (Z.eqb_spec (x from) (x to)); [congruence |].
    destruct (Z.eqb_spec (y from) (y to)); [congruence | reflexivity].
Qed.

Lemma Queen_IsValidMove_as_Rook (board : Board) (from to : BoardCoord) :
  Int32.in_range (x from) -> Int32.in_range (y from) ->
  Bishop_IsValidMove board from to = Ret false ->
  Queen_IsValidMove board from to = Rook_IsValidMove board from to.
Proof.
  intros Hfx Hfy HB.
  destruct (Queen_IsValidMove_cases board from to Hfx Hfy) as [[HQ _] | [HQ HR]];
    congruence.
Qed.

Lemma Queen_IsValidMove_as_Bishop (board : Board) (from to : BoardCoord) :
  Int32.in_range (x from) -> Int32.in_range (y from) ->
  Rook_IsValidMove board from to = Ret false ->
  Queen_IsValidMove board from to = Bishop_IsValidMove board from to.
Proof.
  intros Hfx Hfy HR.
  destruct (Queen_IsValidMove_cases board from to Hfx Hfy) as [[HQ HB] | [HQ _]];
    congruence.
Qed.

(** C3. Queen legality is the union of Rook and Bishop legality: for every
    grid and destination, and every origin of [int] coordinates, the Queen's
    check returns true iff the Rook's or the Bishop's does on the same
    arguments; it is the two checks run one after the other and their results
    or-ed.  It is false when origin = destination or the destination is off
    the board, the Rook's walk on a row or a column, the Bishop's walk on a
    diagonal, and false otherwise.  On the 64 slots and from a square of the
    board the three checks return. *)
Theorem Queen_is_Rook_or_Bishop (board : Board) (from to : BoardCoord) :
  Int32.in_range (x from) -> Int32.in_range (y from) ->
  (Queen_IsValidMove board from to = Ret true <->
   Rook_IsValidMove board from to = Ret true \/
   Bishop_IsValidMove board from to = Ret true) /\
  Queen_IsValidMove board from to =
    (do r <- Rook_IsValidMove board from to;
     do b <- Bishop_IsValidMove board from to;
     Ret (r || b)) /\
  (from = to \/ ~ on_board to -> Queen_IsValidMove board from to = Ret false) /\
  (from <> to -> on_board to -> x from = x to \/ y from = y to ->
   Queen_IsValidMove board from to = axis_branch board from to) /\
  (origin_ok from -> on_board to -> x from <> x to -> y from <> y to ->
   Queen_IsValidMove board from to =
   if Z.abs (x from - x to) =? Z.abs (y from - y to)
   then diagonal_branch board from to
   else Ret false) /\
  (length board = 64%nat -> on_board from ->
   exists r b, Rook_IsValidMove board from to = Ret r /\
               Bishop_IsValidMove board from to = Ret b /\
               Queen_IsValidMove board from to = Ret (r || b)).
Proof.
  intros Hfx Hfy.
  pose proof (Queen_IsValidMove_cases board from to Hfx Hfy) as Hcases.
  assert (Hbind : Queen_IsValidMove board from to =
                  (do r <- Rook_IsValidMove board from to;
                   do b <- Bishop_IsValidMove board from to;
                   Ret (r || b))).
  { destruct Hcases as [[HQ HB] | [HQ HR]].
    - rewrite HQ, HB. symmetry. apply bind_orb_false_r.
    - rewrite HQ, HR. simpl. by destruct (Bishop_IsValidMove board from to). }
  split; [| split; [exact Hbind | split; [| split; [| split]]]].
  - destruct Hcases as [[HQ HB] | [HQ HR]]; rewrite HQ.
    + rewrite HB. split; [auto | intros [? | ?]; [assumption | discriminate]].
    + rewrite HR. split; [auto | intros [? | ?]; [discriminate | assumption]].
  - intros Hfalse.
    rewrite Queen_IsValidMove_as_Rook; [apply Rook_IsValidMove_false | | |];
      try assumption; [tauto |].
    apply Bishop_IsValidMove_false. tauto.
  - intros Hne Hto Haxis.
    rewrite Queen_IsValidMove_as_Rook; [by apply Rook_IsValidMove_axis | | |];
      try assumption.
    apply Bishop_IsValidMove_false. tauto.
  - intros Hok Hto Hx Hy.
    rewrite Queen_IsValidMove_as_Bishop;
      [| assumption | assumption | apply Rook_IsValidMove_false; auto].
    rewrite Bishop_IsValidMove_diagonal by assumption.
    by destruct (deltas_exact from to Hok Hto) as (-> & -> & _ & _ & -> & -> & _).
  - intros Hlen Hfrom.
    destruct (Rook_IsValidMove_returns board from to Hlen Hfrom) as (r & Hr).
    destruct (Bishop_IsValidMove_returns board from to Hlen Hfrom) as (b & Hb).
    exists r, b. by rewrite Hbind, Hr, Hb.
Qed.

Lemma Queen_is_Rook_or_Bishop_witness :
  Int32.in_range 3 /\ Int32.in_range 7 /\
  (Queen_IsValidMove (<[51%nat := None]> initial_board) (mkBoardCoord 3 7) (mkBoardCoord 3 3)
   = Ret true <->
   Rook_IsValidMove (<[51%nat := None]> initial_board) (mkBoardCoord 3 7) (mkBoardCoord 3 3)
   = Ret true \/
   Bishop_IsValidMove (<[51%nat := None]> initial_board) (mkBoardCoord 3 7) (mkBoardCoord 3 3)
   = Ret true).
Proof.
  assert (H1 : Int32.in_range 3) by (ranges; lia).
  assert (H2 : Int32.in_range 7) by (ranges; lia).
  split; [exact H1 | split; [exact H2 |]].
  exact (proj1 (Queen_is_Rook_or_Bishop (<[51%nat := None]> initial_board)
                  (mkBoardCoord 3 7) (mkBoardCoord 3 3) H1 H2)).
Defined.

(** The Queen's check on the 64 slots, between squares of the board: a clear
    row or column, or a clear diagonal. *)
Lemma Queen_IsValidMove_spec (board : Board) (from to : BoardCoord) :
  length board = 64%nat -> on_board from -> on_board to ->
  exists b, Queen_IsValidMove board from to = Ret b /\
    (b = true <->
     (from <> to /\ (x from = x to \/ y from = y to) /\
      forall c, strictly_between from to c -> empty_at board c) \/
     (x from <> x to /\ Z.abs (x from - x to) = Z.abs (y from - y to) /\
      forall c, diagonally_between from to c -> empty_at board c)).
Proof.
  intros Hlen Hfrom Hto.
  assert (Int32.in_range (x from) /\ Int32.in_range (y from)) as [Hfx Hfy]
    by (ranges; lia).
  destruct (Rook_IsValidMove_spec board from to Hlen Hfrom Hto) as (r & Hr & Hriff).
  destruct (Bishop_IsValidMove_spec board from to Hlen Hfrom Hto) as (b & Hb & Hbiff).
  destruct (Queen_IsValidMove_cases board from to Hfx Hfy) as [[HQ HB] | [HQ HR]].
  - exists r. split; [congruence |].
    assert (b = false) as -> by congruence.
    rewrite Hriff. split; [auto | intros [? | Hd]; [assumption |]].
    apply Hbiff in Hd. discriminate.
  - exists b. split; [congruence |].
    assert (r = false) as -> by congruence.
    rewrite Hbiff. split; [auto | intros [Ha | ?]; [| assumption]].
    apply Hriff in Ha. discriminate.
Qed.

(** ** Pawn *)

Lemma Pawn_IsValidMove_returns (p : Player) (board : Board) (from to : BoardCoord) :
  length board = 64%nat -> origin_ok from -> on_board to ->
  exists b,
    Pawn_IsValidMove p board from to = Ret b /\
    (b = true <->
     forward_delta p from to = 1 /\ Z.abs (x to - x from) <= 1 /\
     (Z.abs (x to - x from) = 1 -> occupied_at board to) /\
     (Z.abs (x to - x from) = 0 -> empty_at board to)).
Proof.
  intros Hlen Hfrom Hto. unfold Pawn_IsValidMove.
  pose proof Hto as Hoob. apply out_of_bounds_false in Hoob. rewrite Hoob.
  destruct (deltas_exact from to Hfrom Hto) as (_ & -> & -> & -> & _ & _ & -> & _).
  destruct Hto as [Htx Hty].
  rewrite (vec_get_on_board board (x to) (y to)) by assumption.
  pose proof (cell_of_occupied board to Hlen (conj Htx Hty)) as Hocc.
  pose proof (cell_of_empty board to Hlen (conj Htx Hty)) as Hemp.
  assert (Hvy : (match p with
                 | White => y from - y to =? 1
                 | Black => y to - y from =? 1
                 end) = true <-> forward_delta p from to = 1)
    by (destruct p; simpl; apply Z.eqb_eq).
  destruct (match p with
            | White => y from - y to =? 1
            | Black => y to - y from =? 1
            end) eqn:Hy.
  2: { exists false. split; [reflexivity |]. split; [discriminate |].
       intros (Hfd & _). apply Hvy in Hfd. discriminate. }
  assert (Hfd : forward_delta p from to = 1) by (by apply Hvy).
  destruct (Z.leb_spec (Z.abs (x to - x from)) 1) as [Hx | Hx]; simpl.
  2: { exists false. split; [reflexivity |]. split; [discriminate | lia]. }
  destruct (Z.eqb_spec (Z.abs (x to - x from)) 1) as [Hd | Hd].
  - exists (is_piece (cell_of board (x to) (y to))). split; [reflexivity |].
    rewrite Hocc. split.
    + intros Ho. repeat split; try assumption; [auto | lia].
    + intros (_ & _ & Ho & _). auto.
  - exists (negb (is_piece (cell_of board (x to) (y to)))). split; [reflexivity |].
    rewrite <- Hemp. split.
    + intros Hn. repeat split; try assumption; [lia |].
      intros _. by destruct (cell_of board (x to) (y to)).
    + intros (_ & _ & _ & He). rewrite He by lia. reflexivity.
Qed.

(** C2. Pawn legality.  A destination off the board is rejected.  Otherwise,
    on the 64 slots and from an origin whose coordinate differences do not
    overflow, the check returns, and returns true exactly when the row delta
    in the player's forward direction (White towards decreasing rows, Black
    towards increasing rows) is 1 and the column delta is at most 1 in
    absolute value, a diagonal step needing an occupied destination (any
    piece, whoever owns it) and a straight step an empty one.  A two-square
    advance is rejected. *)
Theorem Pawn_legality (p : Player) (board : Board) (from to : BoardCoord) :
  (~ on_board to -> Pawn_IsValidMove p board from to = Ret false) /\
  (length board = 64%nat -> origin_ok from -> on_board to ->
   exists b,
     Pawn_IsValidMove p board from to = Ret b /\
     (b = true <->
      forward_delta p from to = 1 /\ Z.abs (x to - x from) <= 1 /\
      (Z.abs (x to - x from) = 1 -> occupied_at board to) /\
      (Z.abs (x to - x from) = 0 -> empty_at board to))) /\
  (origin_ok from -> forward_delta p from to = 2 ->
   Pawn_IsValidMove p board from to = Ret false).
Proof.
  split; [| split].
  - intros Hoob%out_of_bounds_true. unfold Pawn_IsValidMove. by rewrite Hoob.
  - apply Pawn_IsValidMove_returns.
  - intros Hfrom Hfd. unfold Pawn_IsValidMove.
    destruct (out_of_bounds to) eqn:Hoob; [reflexivity |].
    apply out_of_bounds_false in Hoob.
    destruct (deltas_exact from to Hfrom Hoob) as (_ & -> & _ & -> & _).
    destruct p; simpl in Hfd; rewrite Hfd; reflexivity.
Qed.

Lemma Pawn_legality_witness :
  length initial_board = 64%nat /\
  origin_ok (mkBoardCoord 4 6) /\
  forward_delta White (mkBoardCoord 4 6) (mkBoardCoord 4 4) = 2 /\
  Pawn_IsValidMove White initial_board (mkBoardCoord 4 6) (mkBoardCoord 4 4) = Ret false.
Proof.
  assert (H1 : length initial_board = 64%nat) by reflexivity.
  assert (H2 : origin_ok (mkBoardCoord 4 6)) by (ranges; lia).
  assert (H3 : forward_delta White (mkBoardCoord 4 6) (mkBoardCoord 4 4) = 2) by reflexivity.
  repeat (split; [assumption |]).
  exact (proj2 (proj2 (Pawn_legality White initial_board (mkBoardCoord 4 6)
                         (mkBoardCoord 4 4))) H2 H3).
Defined.

(** ** The board model *)

Lemma GetPieceAt_Ret (st : BoardModel) (c : BoardCoord) (slot : option Piece) :
  GetPieceAt st c = Ret slot <->
  0 <= index_of c < Z.of_nat (length (m_board st)) /\
  m_board st !! Z.to_nat (index_of c) = Some slot.
Proof.
  unfold GetPieceAt, vec_get.
  destruct (Z.leb_spec 0 (index_of c)) as [Hlo | Hlo];
    destruct (Z.ltb_spec (index_of c) (Z.of_nat (length (m_board st)))) as [Hhi | Hhi];
    cbn [andb]; try (split; [discriminate | lia]).
  destruct (lookup_lt_is_Some_2 (m_board st) (Z.to_nat (index_of c))) as [s Hs]; [lia |].
  rewrite Hs. split.
  - intros [= ->]. auto.
  - intros (_ & [= ->]). reflexivity.
Qed.

Lemma vec_set_in_range (board : Board) (i : Z) (v : option Piece) :
  0 <= i < Z.of_nat (length board) ->
  vec_set board i v = Ret (<[Z.to_nat i := v]> board).
Proof.
  intros [Hlo Hhi]. unfold vec_set.
  destruct (Z.leb_spec 0 i); [| lia].
  destruct (Z.ltb_spec i (Z.of_nat (length board))); [reflexivity | lia].
Qed.

(** [MovePiece] without its two writes spelled out: past the three calls that
    may stop the program, the writes are within the vector. *)
Lemma MovePiece_eq (st : BoardModel) (p : Player) (from to : BoardCoord) :
  MovePiece st p from to =
  do attacker_piece <- GetPieceAt st from;
  match attacker_piece with
  | None => Ret (st, false)
  | Some attacker =>
      do defender_piece <- GetPieceAt st to;
      do valid_move <- IsValidMove attacker (m_board st) from to;
      if valid_move && may_land defender_piece p
      then Ret (moved st attacker defender_piece from to, true)
      else Ret (st, false)
  end.
Proof.
  unfold MovePiece.
  destruct (GetPieceAt st from) as [[attacker |] | f] eqn:Hfrom; cbn [bind]; try reflexivity.
  destruct (GetPieceAt st to) as [defender_piece | f] eqn:Hto; cbn [bind]; try reflexivity.
  destruct (IsValidMove attacker (m_board st) from to) as [valid_move | f] eqn:Hvalid;
    cbn [bind]; try reflexivity.
  fold (may_land defender_piece p).
  destruct (valid_move && may_land defender_piece p); [| reflexivity].
  apply GetPieceAt_Ret in Hfrom as [Hfrom _]. apply GetPieceAt_Ret in Hto as [Hto _].
  rewrite (vec_set_in_range (m_board st) (index_of to)) by assumption. cbn [bind].
  rewrite vec_set_in_range by (by rewrite length_insert). cbn [bind].
  unfold moved. do 3 f_equal.
  destruct defender_piece as [d |]; cbn [holds_king]; [| reflexivity].
  by destruct (piece_type_eqb (piece_type d) King).
Qed.

(** What a call of [MovePiece] that returns has done. *)
Lemma MovePiece_Ret (st st' : BoardModel) (p : Player) (from to : BoardCoord) (ok : bool) :
  MovePiece st p from to = Ret (st', ok) ->
  (ok = false /\ st' = st) \/
  (ok = true /\
   exists attacker defender_piece,
     GetPieceAt st from = Ret (Some attacker) /\
     GetPieceAt st to = Ret defender_piece /\
     IsValidMove attacker (m_board st) from to = Ret true /\
     may_land defender_piece p = true /\
     st' = moved st attacker defender_piece from to).
Proof.
  rewrite MovePiece_eq.
  destruct (GetPieceAt st from) as [[attacker |] | f] eqn:Hfrom; cbn [bind];
    [| intros [= <- <-]; auto | discriminate].
  destruct (GetPieceAt st to) as [defender_piece | f] eqn:Hto; cbn [bind]; [| discriminate].
  destruct (IsValidMove attacker (m_board st) from to) as [valid_move | f] eqn:Hvalid;
    cbn [bind]; [| discriminate].
  destruct (valid_move && may_land defender_piece p) eqn:Hc; intros [= <- <-]; [| auto].
  apply andb_true_iff in Hc as [-> Hland].
  right. split; [reflexivity |]. by exists attacker, defender_piece.
Qed.

Lemma may_land_true (defender_piece : option Piece) (p : Player) :
  may_land defender_piece p = true <->
  defender_piece = None \/
  exists defender, defender_piece = Some defender /\ GetPlayer defender = other_player p.
Proof.
  destruct defender_piece as [[k q] |]; cbn [may_land].
  - unfold GetPlayer; cbn [m_player]. split.
    + intros H. right. eexists. split; [reflexivity |].
      cbn [m_player]. by destruct q, p.
    + intros [[=] | (d & [= <-] & Hd)]. cbn [m_player] in Hd. by destruct q, p.
  - split; auto.
Qed.

Lemma may_land_same_player (defender : Piece) (p : Player) :
  GetPlayer defender = p -> may_land (Some defender) p = false.
Proof. intros <-. cbn [may_land]. by destruct (GetPlayer defender). Qed.

(** C4. For every call [MovePiece(player, from, to)] on any board state: the
    call returns true only if [from] holds a piece whose legality check
    approves the move and the destination is empty or holds a piece of the
    other player than [player]; and when the destination holds a piece of
    [player], the call returns false and changes nothing, also where the
    piece's legality check alone passes. *)
Theorem MovePiece_no_self_capture (st : BoardModel) (p : Player) (from to : BoardCoord) :
  (forall st', MovePiece st p from to = Ret (st', true) ->
     exists attacker defender_piece,
       GetPieceAt st from = Ret (Some attacker) /\
       IsValidMove attacker (m_board st) from to = Ret true /\
       GetPieceAt st to = Ret defender_piece /\
       (defender_piece = None \/
        exists defender, defender_piece = Some defender /\
                         GetPlayer defender = other_player p)) /\
  (forall defender,
     GetPieceAt st to = Ret (Some defender) -> GetPlayer defender = p ->
     (forall st' ok, MovePiece st p from to = Ret (st', ok) -> ok = false /\ st' = st) /\
     (forall attacker,
        GetPieceAt st from = Ret (Some attacker) ->
        IsValidMove attacker (m_board st) from to = Ret true ->
        MovePiece st p from to = Ret (st, false))).
Proof.
  split.
  - intros st' Hmove.
    destruct (MovePiece_Ret _ _ _ _ _ _ Hmove)
      as [[[=] _] | (_ & attacker & defender_piece & Hfrom & Hto & Hvalid & Hland & _)].
    exists attacker, defender_piece. repeat split; try assumption.
    by apply may_land_true.
  - intros defender Hto Hown. split.
    + intros st' ok Hmove.
      destruct (MovePiece_Ret _ _ _ _ _ _ Hmove)
        as [? | (_ & attacker & defender_piece & _ & Hto' & _ & Hland & _)]; [tauto |].
      rewrite Hto in Hto'. injection Hto' as <-.
      rewrite (may_land_same_player defender p Hown) in Hland. discriminate.
    + intros attacker Hfrom Hvalid.
      rewrite MovePiece_eq, Hfrom. cbn [bind]. rewrite Hto. cbn [bind].
      rewrite Hvalid. cbn [bind].
      by rewrite (may_land_same_player defender p Hown).
Qed.

Lemma MovePiece_no_self_capture_witness :
  GetPieceAt initial_model (mkBoardCoord 1 7) = Ret (Some (mkPiece Knight White)) /\
  GetPlayer (mkPiece Knight White) = White /\
  GetPieceAt initial_model (mkBoardCoord 0 7) = Ret (Some (mkPiece Rook White)) /\
  IsValidMove (mkPiece Rook White) (m_board initial_model)
    (mkBoardCoord 0 7) (mkBoardCoord 1 7) = Ret true /\
  MovePiece initial_model White (mkBoardCoord 0 7) (mkBoardCoord 1 7)
  = Ret (initial_model, false).
Proof.
  assert (H1 : GetPieceAt initial_model (mkBoardCoord 1 7)
               = Ret (Some (mkPiece Knight White))) by (vm_compute; reflexivity).
  assert (H2 : GetPlayer (mkPiece Knight White) = White) by reflexivity.
  assert (H3 : GetPieceAt initial_model (mkBoardCoord 0 7)
               = Ret (Some (mkPiece Rook White))) by (vm_compute; reflexivity).
  assert (H4 : IsValidMove (mkPiece Rook White) (m_board initial_model)
                 (mkBoardCoord 0 7) (mkBoardCoord 1 7) = Ret true)
    by (vm_compute; reflexivity).
  repeat (split; [assumption |]).
  exact (proj2 (proj2 (MovePiece_no_self_capture initial_model White
                         (mkBoardCoord 0 7) (mkBoardCoord 1 7))
                  (mkPiece Knight White) H1 H2)
           (mkPiece Rook White) H3 H4).
Defined.

Lemma GetPieceAt_moved_from (st : BoardModel) (attacker : Piece)
    (defender_piece slot : option Piece) (from to : BoardCoord) :
  GetPieceAt st from = Ret slot ->
  GetPieceAt (moved st attacker defender_piece from to) from = Ret None.
Proof.
  intros [Hrange _]%GetPieceAt_Ret. apply GetPieceAt_Ret. cbn [moved m_board].
  rewrite !length_insert. split; [assumption |].
  apply list_lookup_insert_eq. rewrite length_insert. lia.
Qed.

Lemma GetPieceAt_moved_to (st : BoardModel) (attacker : Piece)
    (defender_piece slot slot' : option Piece) (from to : BoardCoord) :
  GetPieceAt st from = Ret slot -> GetPieceAt st to = Ret slot' ->
  index_of to <> index_of from ->
  GetPieceAt (moved st attacker defender_piece from to) to = Ret (Some attacker).
Proof.
  intros [Hfrom _]%GetPieceAt_Ret [Hto _]%GetPieceAt_Ret Hne.
  apply GetPieceAt_Ret. cbn [moved m_board].
  rewrite !length_insert. split; [assumption |].
  rewrite list_lookup_insert_ne by lia.
  apply list_lookup_insert_eq. lia.
Qed.

Lemma GetPieceAt_moved_other (st : BoardModel) (attacker : Piece)
    (defender_piece slot slot' : option Piece) (from to c : BoardCoord) :
  GetPieceAt st from = Ret slot -> GetPieceAt st to = Ret slot' ->
  index_of c <> index_of from -> index_of c <> index_of to ->
  GetPieceAt (moved st attacker defender_piece from to) c = GetPieceAt st c.
Proof.
  intros [Hfrom _]%GetPieceAt_Ret [Hto _]%GetPieceAt_Ret Hnf Hnt.
  unfold GetPieceAt, vec_get. cbn [moved m_board]. rewrite !length_insert.
  destruct (Z.leb_spec 0 (index_of c)); [| reflexivity].
  rewrite !list_lookup_insert_ne by lia. reflexivity.
Qed.

Lemma index_of_inj (c d : BoardCoord) :
  on_board c -> on_board d -> index_of c = index_of d -> c = d.
Proof.
  intros Hc Hd. rewrite !index_of_on_board by assumption.
  destruct c as [col row], d as [col' row']; unfold on_board in *; simpl in *.
  intros Heq. assert (col = col' /\ row = row') as [-> ->] by lia. reflexivity.
Qed.

(** C9. Move atomicity: a call of [MovePiece] that returns false leaves the
    model as it was, grid and game-over flag included; a call that returns
    true has done all of the move: the grid is the old one with the
    attacker written at the destination and the origin then cleared, the
    origin reads empty, the destination reads the attacker (origin and
    destination being different slots, as they are for different squares of
    the board), every other slot is unchanged, the game-over flag is set when
    the destination held a King and kept otherwise, and turn and selection are
    untouched. *)
Theorem MovePiece_atomic (st st' : BoardModel) (p : Player) (from to : BoardCoord)
    (ok : bool) :
  MovePiece st p from to = Ret (st', ok) ->
  (ok = false /\ st' = st) \/
  (ok = true /\
   exists attacker defender_piece,
     GetPieceAt st from = Ret (Some attacker) /\
     GetPieceAt st to = Ret defender_piece /\
     m_board st' = <[Z.to_nat (index_of from) := None]>
                     (<[Z.to_nat (index_of to) := Some attacker]> (m_board st)) /\
     GetPieceAt st' from = Ret None /\
     (index_of to <> index_of from -> GetPieceAt st' to = Ret (Some attacker)) /\
     (on_board from -> from <> to -> index_of to <> index_of from) /\
     (forall c, index_of c <> index_of from -> index_of c <> index_of to ->
                GetPieceAt st' c = GetPieceAt st c) /\
     GameOver st' = holds_king defender_piece || GameOver st /\
     GetCurPlayer st' = GetCurPlayer st /\
     SpaceSelected st' = SpaceSelected st /\
     GetSpaceSelected st' = GetSpaceSelected st).
Proof.
  intros Hmove.
  destruct (MovePiece_Ret _ _ _ _ _ _ Hmove)
    as [? | (-> & attacker & defender_piece & Hfrom & Hto & Hvalid & Hland & ->)];
    [by left | right].
  split; [reflexivity |]. exists attacker, defender_piece.
  split; [assumption |]. split; [assumption |]. split; [reflexivity |].
  split; [by eapply GetPieceAt_moved_from |].
  split; [intros Hne; by eapply GetPieceAt_moved_to |].
  split.
  { intros Hon Hne Heq. apply Hne. symmetry. apply index_of_inj; try assumption.
    by eapply IsValidMove_true_on_board. }
  split; [intros c Hnf Hnt; by eapply GetPieceAt_moved_other |].
  repeat split.
Qed.

Lemma MovePiece_atomic_witness :
  MovePiece initial_model White (mkBoardCoord 4 6) (mkBoardCoord 4 5)
  = Ret (moved initial_model (mkPiece Pawn White) None
           (mkBoardCoord 4 6) (mkBoardCoord 4 5), true) /\
  GetPieceAt (moved initial_model (mkPiece Pawn White) None
                (mkBoardCoord 4 6) (mkBoardCoord 4 5)) (mkBoardCoord 4 6) = Ret None.
Proof.
  assert (H : MovePiece initial_model White (mkBoardCoord 4 6) (mkBoardCoord 4 5)
              = Ret (moved initial_model (mkPiece Pawn White) None
                       (mkBoardCoord 4 6) (mkBoardCoord 4 5), true))
    by (vm_compute; reflexivity).
  split; [exact H |].
  destruct (MovePiece_atomic _ _ _ _ _ _ H)
    as [[Hfalse _] | (_ & attacker & defender_piece & _ & _ & _ & Hempty & _)].
  - discriminate Hfalse.
  - exact Hempty.
Defined.

(** ** Null moves *)

Lemma sub_diag (a : Z) : Int32.sub a a = 0.
Proof. unfold Int32.sub. replace (a - a) with 0 by lia. reflexivity. Qed.

(** No legality check reads the grid on a null move: the call returns. *)
Lemma IsValidMove_null_returns (pc : Piece) (board : Board) (c : BoardCoord) :
  exists b, IsValidMove pc board c c = Ret b.
Proof.
  destruct pc as [k q]. unfold IsValidMove; cbn [piece_type m_player]. destruct k.
  - unfold King_IsValidMove. destruct (out_of_bounds c); [eauto |].
    destruct (_ || _); eauto.
  - unfold Queen_IsValidMove. rewrite coord_eqb_refl. eauto.
  - unfold Rook_IsValidMove. rewrite coord_eqb_refl. eauto.
  - unfold Bishop_IsValidMove. rewrite coord_eqb_refl. eauto.
  - unfold Knight_IsValidMove. destruct (out_of_bounds c); eauto.
  - unfold Pawn_IsValidMove. destruct (out_of_bounds c); [eauto |].
    rewrite (sub_diag (y c)). destruct q; cbn [Z.eqb andb]; eauto.
Qed.

Lemma MovePiece_null (st : BoardModel) (p : Player) (c : BoardCoord) (pc : Piece) :
  GetPieceAt st c = Ret (Some pc) -> GetPlayer pc = p ->
  MovePiece st p c c = Ret (st, false).
Proof.
  intros Hat Hown. rewrite MovePiece_eq, Hat. cbn [bind].
  destruct (IsValidMove_null_returns pc (m_board st) c) as [b ->]. cbn [bind].
  by rewrite (may_land_same_player pc p Hown), andb_false_r.
Qed.

(** ** Selecting *)

Lemma SelectSpace_eq (st : BoardModel) (coord : BoardCoord) :
  SelectSpace st coord =
  if m_game_over st then Ret st
  else if m_move_started st then
    do result <- MovePiece st (m_cur_player st) (m_space_selected st) coord;
    Ret (if snd result then turned (deselected (fst result))
         else deselected (fst result))
  else
    do clicked <- GetPieceAt st coord;
    match clicked with
    | None => Ret st
    | Some pc => if player_eqb (GetPlayer pc) (m_cur_player st)
                 then Ret (selected st coord)
                 else Ret st
    end.
Proof.
  unfold SelectSpace, GameOver.
  destruct (m_game_over st) eqn:Hgo; [reflexivity |].
  destruct (m_move_started st).
  - destruct (MovePiece st (m_cur_player st) (m_space_selected st) coord)
      as [[st1 []] | f]; reflexivity.
  - destruct (GetPieceAt st coord) as [[pc |] | f]; cbn [bind is_piece negb];
      try reflexivity.
    unfold selected. rewrite Hgo.
    by destruct (player_eqb (GetPlayer pc) (m_cur_player st)).
Qed.

Lemma player_eqb_eq (p q : Player) : player_eqb p q = true <-> p = q.
Proof. destruct p, q; simpl; split; congruence. Qed.

Lemma MovePiece_length (st st' : BoardModel) (p : Player) (from to : BoardCoord)
    (ok : bool) :
  MovePiece st p from to = Ret (st', ok) ->
  length (m_board st') = length (m_board st).
Proof.
  intros Hmove.
  destruct (MovePiece_Ret _ _ _ _ _ _ Hmove) as [[_ ->] | (_ & a & d & _ & _ & _ & _ & ->)];
    [reflexivity |].
  cbn [moved m_board]. by rewrite !length_insert.
Qed.

Lemma SelectSpace_inv (st st' : BoardModel) (coord : BoardCoord) :
  model_inv st -> SelectSpace st coord = Ret st' -> model_inv st'.
Proof.
  intros (Hlen & Hover & Hsel). rewrite SelectSpace_eq.
  destruct (m_game_over st) eqn:Hgo.
  { intros [= <-]. unfold model_inv. rewrite Hgo. auto. }
  destruct (m_move_started st) eqn:Hms.
  - destruct (MovePiece st (m_cur_player st) (m_space_selected st) coord)
      as [[st1 ok] | f] eqn:Hmove; cbn [bind]; [| discriminate].
    intros [= <-]. pose proof (MovePiece_length _ _ _ _ _ _ Hmove) as Hlen1.
    destruct ok; cbn [snd fst]; unfold model_inv;
      cbn [turned deselected m_board m_move_started m_game_over];
      (split; [congruence | split; [reflexivity | discriminate]]).
  - destruct (GetPieceAt st coord) as [[pc |] | f] eqn:Hat; cbn [bind]; [| | discriminate].
    + destruct (player_eqb (GetPlayer pc) (m_cur_player st)) eqn:Hown; intros [= <-].
      * unfold model_inv.
        cbn [selected m_board m_move_started m_game_over m_space_selected m_cur_player].
        split; [assumption |]. split; [congruence |]. intros _.
        exists pc. split; [exact Hat | by apply player_eqb_eq].
      * unfold model_inv. rewrite Hgo, Hms. repeat split; auto; discriminate.
    + intros [= <-]. unfold model_inv. rewrite Hgo, Hms. repeat split; auto; discriminate.
Qed.

Lemma reachable_inv (st : BoardModel) : reachable st -> model_inv st.
Proof.
  induction 1 as [| st st' coord _ IH Hstep].
  - unfold model_inv; cbn [initial_model m_board m_game_over m_move_started].
    split; [reflexivity | split; [reflexivity | discriminate]].
  - by eapply SelectSpace_inv.
Qed.

(** C10. Null moves are rejected end to end: for every board state, player
    [p] and coordinate [c] whose occupant is a piece of [p], [MovePiece(p, c,
    c)] returns false and changes nothing; and in every state the program
    reaches, clicking the selected square again only drops the selection:
    grid, turn and game-over flag stay as they were.  So the King's
    acceptance of origin = destination never alters the board. *)
Theorem null_move_rejected :
  (forall (st : BoardModel) (p : Player) (c : BoardCoord) (pc : Piece),
      GetPieceAt st c = Ret (Some pc) -> GetPlayer pc = p ->
      MovePiece st p c c = Ret (st, false)) /\
  (forall st : BoardModel,
      reachable st -> SpaceSelected st = true ->
      SelectSpace st (GetSpaceSelected st) = Ret (deselected st)) /\
  (forall (board : Board) (c : BoardCoord),
      on_board c -> King_IsValidMove board c c = Ret true).
Proof.
  split; [exact MovePiece_null | split].
  - intros st Hreach Hsel. unfold SpaceSelected, GetSpaceSelected in *.
    destruct (reachable_inv st Hreach) as (_ & Hover & Hown).
    destruct (Hown Hsel) as (pc & Hat & Hpc).
    rewrite SelectSpace_eq, Hsel.
    destruct (m_game_over st); [specialize (Hover eq_refl); congruence |].
    by rewrite (MovePiece_null st _ _ pc Hat Hpc).
  - intros board c Hc.
    destruct (King_IsValidMove_returns board c c (on_board_origin_ok c Hc)) as (b & -> & Hiff).
    f_equal. apply Hiff. split; [assumption | lia].
Qed.

Lemma null_move_rejected_witness :
  GetPieceAt initial_model (mkBoardCoord 4 7) = Ret (Some (mkPiece King White)) /\
  GetPlayer (mkPiece King White) = White /\
  MovePiece initial_model White (mkBoardCoord 4 7) (mkBoardCoord 4 7)
  = Ret (initial_model, false).
Proof.
  assert (H1 : GetPieceAt initial_model (mkBoardCoord 4 7)
               = Ret (Some (mkPiece King White))) by (vm_compute; reflexivity).
  assert (H2 : GetPlayer (mkPiece King White) = White) by reflexivity.
  repeat (split; [assumption |]).
  exact (proj1 null_move_rejected initial_model White (mkBoardCoord 4 7)
           (mkPiece King White) H1 H2).
Defined.

(** ** The end of the game *)

Lemma holds_king_true (defender : Piece) :
  piece_type defender = King -> holds_king (Some defender) = true.
Proof. intros H. cbn [holds_king]. by rewrite H. Qed.

Lemma MovePiece_game_over (st st' : BoardModel) (p : Player) (from to : BoardCoord)
    (ok : bool) :
  MovePiece st p from to = Ret (st', ok) -> m_game_over st = true ->
  m_game_over st' = true.
Proof.
  intros Hmove Hover.
  destruct (MovePiece_Ret _ _ _ _ _ _ Hmove) as [[_ ->] | (_ & a & d & _ & _ & _ & _ & ->)];
    [assumption |].
  cbn [moved m_game_over]. rewrite Hover. apply orb_true_r.
Qed.

Lemma MovePiece_takes_king (st st' : BoardModel) (p : Player) (from to : BoardCoord)
    (defender : Piece) :
  MovePiece st p from to = Ret (st', true) ->
  GetPieceAt st to = Ret (Some defender) -> piece_type defender = King ->
  m_game_over st' = true.
Proof.
  intros Hmove Hto Hking.
  destruct (MovePiece_Ret _ _ _ _ _ _ Hmove)
    as [[[=] _] | (_ & a & d & _ & Hto' & _ & _ & ->)].
  rewrite Hto in Hto'. injection Hto' as <-.
  cbn [moved m_game_over]. by rewrite holds_king_true.
Qed.

Lemma SelectSpace_game_over (st : BoardModel) (coord : BoardCoord) :
  m_game_over st = true -> SelectSpace st coord = Ret st.
Proof. intros Hover. unfold SelectSpace, GameOver. by rewrite Hover. Qed.

Lemma SelectSpaces_game_over (st : BoardModel) (coords : list BoardCoord) :
  m_game_over st = true -> SelectSpaces st coords = Ret st.
Proof.
  intros Hover. induction coords as [| c rest IH]; [reflexivity |].
  cbn [SelectSpaces]. rewrite SelectSpace_game_over by assumption. exact IH.
Qed.

(** C5. Game-over permanence: an accepted move whose destination held a King
    leaves [GameOver()] true; no later call of [MovePiece] or [SelectSpace]
    makes it false again; and once it is true every call of [SelectSpace],
    and every run of such calls, returns the model unchanged: grid, current
    player, selection flag and selected square.  In particular a capture of a
    King made through [SelectSpace] ends in such a frozen state. *)
Theorem game_over_permanent :
  (forall (st st' : BoardModel) (p : Player) (from to : BoardCoord) (defender : Piece),
      MovePiece st p from to = Ret (st', true) ->
      GetPieceAt st to = Ret (Some defender) -> piece_type defender = King ->
      GameOver st' = true) /\
  (forall (st st' : BoardModel) (p : Player) (from to : BoardCoord) (ok : bool),
      GameOver st = true -> MovePiece st p from to = Ret (st', ok) ->
      GameOver st' = true) /\
  (forall (st : BoardModel) (coord : BoardCoord),
      GameOver st = true -> SelectSpace st coord = Ret st) /\
  (forall (st : BoardModel) (coords : list BoardCoord),
      GameOver st = true -> SelectSpaces st coords = Ret st) /\
  (forall (st st1 : BoardModel) (coord : BoardCoord) (defender : Piece),
      GameOver st = false -> SpaceSelected st = true ->
      GetPieceAt st coord = Ret (Some defender) -> piece_type defender = King ->
      MovePiece st (GetCurPlayer st) (GetSpaceSelected st) coord = Ret (st1, true) ->
      exists st', SelectSpace st coord = Ret st' /\
                  GameOver st' = true /\
                  forall coords, SelectSpaces st' coords = Ret st').
Proof.
  unfold GameOver, SpaceSelected, GetCurPlayer, GetSpaceSelected.
  split; [exact MovePiece_takes_king |].
  split; [intros st st' p from to ok Hover Hmove; by eapply MovePiece_game_over |].
  split; [exact SelectSpace_game_over |].
  split; [exact SelectSpaces_game_over |].
  intros st st1 coord defender Hgo Hsel Hat Hking Hmove.
  pose proof (MovePiece_takes_king _ _ _ _ _ _ Hmove Hat Hking) as Hover.
  exists (turned (deselected st1)).
  rewrite SelectSpace_eq, Hgo, Hsel, Hmove. cbn [bind snd fst].
  split; [reflexivity |].
  assert (Hover' : m_game_over (turned (deselected st1)) = true) by exact Hover.
  split; [exact Hover' |].
  intros coords. by apply SelectSpaces_game_over.
Qed.

Lemma game_over_permanent_witness :
  GameOver rook_takes_king = false /\
  SpaceSelected rook_takes_king = true /\
  GetPieceAt rook_takes_king (mkBoardCoord 0 7) = Ret (Some (mkPiece King White)) /\
  (exists st', SelectSpace rook_takes_king (mkBoardCoord 0 7) = Ret st' /\
               GameOver st' = true /\
               forall coords, SelectSpaces st' coords = Ret st').
Proof.
  assert (H1 : GameOver rook_takes_king = false) by reflexivity.
  assert (H2 : SpaceSelected rook_takes_king = true) by reflexivity.
  assert (H3 : GetPieceAt rook_takes_king (mkBoardCoord 0 7)
               = Ret (Some (mkPiece King White))) by (vm_compute; reflexivity).
  assert (H4 : MovePiece rook_takes_king (GetCurPlayer rook_takes_king)
                 (GetSpaceSelected rook_takes_king) (mkBoardCoord 0 7)
               = Ret (moved rook_takes_king (mkPiece Rook Black)
                        (Some (mkPiece King White))
                        (mkBoardCoord 0 0) (mkBoardCoord 0 7), true))
    by (vm_compute; reflexivity).
  repeat (split; [assumption |]).
  exact (proj2 (proj2 (proj2 (proj2 game_over_permanent)))
           rook_takes_king _ (mkBoardCoord 0 7) (mkPiece King White)
           H1 H2 H3 eq_refl H4).
Defined.

(** ** Turns *)

Lemma MovePiece_cur_player (st st' : BoardModel) (p : Player) (from to : BoardCoord)
    (ok : bool) :
  MovePiece st p from to = Ret (st', ok) -> m_cur_player st' = m_cur_player st.
Proof.
  intros Hmove.
  by destruct (MovePiece_Ret _ _ _ _ _ _ Hmove)
    as [[_ ->] | (_ & a & d & _ & _ & _ & _ & ->)].
Qed.

Lemma other_player_neq (p : Player) : other_player p <> p.
Proof. by destruct p. Qed.

(** [SelectSpace] with a selection pending, in a game that is not over. *)
Lemma SelectSpace_pending (st st' : BoardModel) (coord : BoardCoord) :
  m_game_over st = false -> m_move_started st = true ->
  SelectSpace st coord = Ret st' ->
  exists st1 ok,
    MovePiece st (m_cur_player st) (m_space_selected st) coord = Ret (st1, ok) /\
    st' = if ok then turned (deselected st1) else deselected st1.
Proof.
  intros Hgo Hsel. rewrite SelectSpace_eq, Hgo, Hsel.
  destruct (MovePiece st (m_cur_player st) (m_space_selected st) coord)
    as [[st1 ok] | f]; cbn [bind snd fst]; [| discriminate].
  intros [= <-]. by exists st1, ok.
Qed.

(** C6. Turn alternation and selection clearing: the first player to move is
    White; when [SelectSpace] is called with a selection pending (in a game
    that is not over: in the states the program reaches a pending selection
    implies it), the call invokes [MovePiece] for the current player from the
    selected square, the selection is cleared whatever [MovePiece] returned,
    and the current player becomes the other player iff [MovePiece] returned
    true; after a rejected move player and grid are as before.  The call
    returns whenever [MovePiece] does. *)
Theorem turn_alternation :
  GetCurPlayer initial_model = White /\
  (forall (st st' : BoardModel) (coord : BoardCoord),
      GameOver st = false -> SpaceSelected st = true ->
      SelectSpace st coord = Ret st' ->
      SpaceSelected st' = false /\
      exists st1 ok,
        MovePiece st (GetCurPlayer st) (GetSpaceSelected st) coord = Ret (st1, ok) /\
        m_board st' = m_board st1 /\
        GameOver st' = GameOver st1 /\
        (GetCurPlayer st' = other_player (GetCurPlayer st) <-> ok = true) /\
        (ok = false -> GetCurPlayer st' = GetCurPlayer st /\ m_board st' = m_board st)) /\
  (forall (st st1 : BoardModel) (coord : BoardCoord) (ok : bool),
      GameOver st = false -> SpaceSelected st = true ->
      MovePiece st (GetCurPlayer st) (GetSpaceSelected st) coord = Ret (st1, ok) ->
      exists st', SelectSpace st coord = Ret st') /\
  (forall st : BoardModel,
      reachable st -> SpaceSelected st = true -> GameOver st = false).
Proof.
  unfold GameOver, SpaceSelected, GetCurPlayer, GetSpaceSelected.
  split; [reflexivity |]. split; [| split].
  - intros st st' coord Hgo Hsel Hselect.
    destruct (SelectSpace_pending st st' coord Hgo Hsel Hselect) as (st1 & ok & Hmove & ->).
    pose proof (MovePiece_cur_player _ _ _ _ _ _ Hmove) as Hcur.
    split; [by destruct ok |].
    exists st1, ok. split; [assumption |].
    destruct ok; cbn [turned deselected m_board m_game_over m_cur_player];
      (split; [reflexivity |]); (split; [reflexivity |]); rewrite Hcur; split.
    + split; reflexivity.
    + discriminate.
    + split; [| discriminate]. intros H. symmetry in H. by apply other_player_neq in H.
    + intros _. split; [reflexivity |].
      by destruct (MovePiece_Ret _ _ _ _ _ _ Hmove) as [[_ ->] | ([=] & _)].
  - intros st st1 coord ok Hgo Hsel Hmove.
    rewrite SelectSpace_eq, Hgo, Hsel, Hmove. cbn [bind]. eauto.
  - intros st Hreach Hsel.
    destruct (reachable_inv st Hreach) as (_ & Hover & _).
    destruct (m_game_over st); [| reflexivity].
    specialize (Hover eq_refl). congruence.
Qed.

Lemma turn_alternation_witness :
  GameOver (selected initial_model (mkBoardCoord 4 6)) = false /\
  SpaceSelected (selected initial_model (mkBoardCoord 4 6)) = true /\
  SelectSpace (selected initial_model (mkBoardCoord 4 6)) (mkBoardCoord 4 4)
  = Ret (deselected (selected initial_model (mkBoardCoord 4 6))) /\
  SpaceSelected (deselected (selected initial_model (mkBoardCoord 4 6))) = false.
Proof.
  assert (H1 : GameOver (selected initial_model (mkBoardCoord 4 6)) = false)
    by reflexivity.
  assert (H2 : SpaceSelected (selected initial_model (mkBoardCoord 4 6)) = true)
    by reflexivity.
  assert (H3 : SelectSpace (selected initial_model (mkBoardCoord 4 6)) (mkBoardCoord 4 4)
               = Ret (deselected (selected initial_model (mkBoardCoord 4 6))))
    by (vm_compute; reflexivity).
  repeat (split; [assumption |]).
  exact (proj1 (proj1 (proj2 turn_alternation) _ _ _ H1 H2 H3)).
Defined.

(** ** The fuel of the walks is never used up *)

Lemma vec_at_not_Diverges (board : Board) (i : Z) : vec_at board i <> Fault Diverges.
Proof.
  unfold vec_at. destruct (0 <=? i); [| discriminate].
  destruct (board !! Z.to_nat i); discriminate.
Qed.

Lemma axis_walk_fuel (board : Board) (tx ty fx end_ step : Z) :
  step = 1 \/ step = -1 -> Int32.in_range end_ ->
  forall (fuel : nat) (i : Z),
    Int32.in_range i ->
    (step = 1 -> i <= end_) -> (step = -1 -> end_ <= i) ->
    (Z.to_nat (Z.abs (end_ - i)) <= fuel)%nat ->
    axis_walk fuel board tx ty fx end_ step i <> Fault Diverges.
Proof.
  intros Hstep Hend. induction fuel as [| fuel IH]; intros i Hi Hup Hdown Hfuel.
  - cbn [axis_walk]. destruct (Z.eqb_spec i end_); [discriminate | lia].
  - rewrite axis_walk_unfold. destruct (Z.eqb_spec i end_) as [| Hne]; [discriminate |].
    destruct (axis_read board tx ty fx i) as [piece | f] eqn:Hread; cbn [bind].
    + destruct (is_piece piece); [discriminate |].
      rewrite (add_exact i step) by (ranges; destruct Hstep as [-> | ->]; lia).
      apply IH; ranges; destruct Hstep as [-> | ->]; lia.
    + intros [= ->]. unfold axis_read in Hread.
      destruct (negb (tx =? fx)); by apply vec_at_not_Diverges in Hread.
Qed.

Lemma diagonal_walk_fuel (board : Board) (tx xstep ystep : Z) :
  xstep = 1 \/ xstep = -1 -> Int32.in_range tx ->
  forall (fuel : nat) (ix iy : Z),
    Int32.in_range ix ->
    (xstep = 1 -> ix <= tx) -> (xstep = -1 -> tx <= ix) ->
    (Z.to_nat (Z.abs (tx - ix)) <= fuel)%nat ->
    diagonal_walk fuel board tx xstep ystep ix iy <> Fault Diverges.
Proof.
  intros Hstep Hend. induction fuel as [| fuel IH]; intros ix iy Hi Hup Hdown Hfuel.
  - cbn [diagonal_walk]. destruct (Z.eqb_spec ix tx); [discriminate | lia].
  - rewrite diagonal_walk_unfold. destruct (Z.eqb_spec ix tx) as [| Hne]; [discriminate |].
    destruct (vec_at board (Int32.add (Int32.mul iy 8) ix)) as [piece | f] eqn:Hread;
      cbn [bind].
    + destruct (is_piece piece); [discriminate |].
      rewrite (add_exact ix xstep) by (ranges; destruct Hstep as [-> | ->]; lia).
      apply IH; ranges; destruct Hstep as [-> | ->]; lia.
    + intros [= ->]. by apply vec_at_not_Diverges in Hread.
Qed.

Lemma axis_branch_fuel (board : Board) (from to : BoardCoord) :
  Int32.in_range (x from) -> Int32.in_range (y from) -> on_board to ->
  x to <> x from \/ y to <> y from ->
  axis_branch board from to <> Fault Diverges.
Proof.
  intros Hfx Hfy [Htx Hty] Hne. unfold axis_branch.
  destruct (Z.eqb_spec (x to) (x from)) as [Hx | Hx]; cbn [negb].
  - assert (y to <> y from) as Hy by (destruct Hne; congruence).
    destruct (Z.ltb_spec (y from) (y to)).
    + rewrite (add_exact (y from) 1) by (ranges; lia).
      apply axis_walk_fuel; auto; unfold walk_fuel; ranges; lia.
    + rewrite (add_exact (y from) (-1)) by (ranges; lia).
      apply axis_walk_fuel; auto; unfold walk_fuel; ranges; lia.
  - destruct (Z.ltb_spec (x from) (x to)).
    + rewrite (add_exact (x from) 1) by (ranges; lia).
      apply axis_walk_fuel; auto; unfold walk_fuel; ranges; lia.
    + rewrite (add_exact (x from) (-1)) by (ranges; lia).
      apply axis_walk_fuel; auto; unfold walk_fuel; ranges; lia.
Qed.

Lemma diagonal_branch_fuel (board : Board) (from to : BoardCoord) :
  Int32.in_range (x from) -> on_board to -> x to <> x from ->
  diagonal_branch board from to <> Fault Diverges.
Proof.
  intros Hfx [Htx Hty] Hne. unfold diagonal_branch.
  destruct (Z.ltb_spec (x from) (x to)).
  - rewrite (add_exact (x from) 1) by (ranges; lia).
    apply diagonal_walk_fuel; auto; unfold walk_fuel; ranges; lia.
  - rewrite (add_exact (x from) (-1)) by (ranges; lia).
    apply diagonal_walk_fuel; auto; unfold walk_fuel; ranges; lia.
Qed.

Lemma Rook_IsValidMove_fuel (board : Board) (from to : BoardCoord) :
  Int32.in_range (x from) -> Int32.in_range (y from) ->
  Rook_IsValidMove board from to <> Fault Diverges.
Proof.
  intros Hfx Hfy. unfold Rook_IsValidMove.
  destruct (coord_eqb to from) eqn:Heq; [discriminate |].
  destruct (out_of_bounds to) eqn:Hoob; [discriminate |].
  destruct (negb (x to =? x from) && negb (y to =? y from)); [discriminate |].
  apply axis_branch_fuel; try assumption; [by apply out_of_bounds_false |].
  unfold coord_eqb in Heq. apply andb_false_iff in Heq.
  destruct Heq as [H | H]; apply Z.eqb_neq in H; auto.
Qed.

Lemma Bishop_IsValidMove_fuel (board : Board) (from to : BoardCoord) :
  Int32.in_range (x from) ->
  Bishop_IsValidMove board from to <> Fault Diverges.
Proof.
  intros Hfx. unfold Bishop_IsValidMove.
  destruct (coord_eqb to from); [discriminate |].
  destruct (out_of_bounds to) eqn:Hoob; [discriminate |].
  destruct (Z.eqb_spec (x to) (x from)) as [| Hx]; [discriminate |].
  destruct (y to =? y from); [discriminate |]. cbn [orb].
  destruct (negb _); [discriminate |].
  apply diagonal_branch_fuel; try assumption. by apply out_of_bounds_false.
Qed.

(** The model's own fault is never the result of a legality check: every
    loop of the source ends within the fuel the model gives it. *)
Lemma IsValidMove_never_Diverges (pc : Piece) (board : Board) (from to : BoardCoord) :
  Int32.in_range (x from) -> Int32.in_range (y from) ->
  IsValidMove pc board from to <> Fault Diverges.
Proof.
  intros Hfx Hfy. destruct pc as [k q]. unfold IsValidMove; cbn [piece_type m_player].
  destruct k.
  - unfold King_IsValidMove. destruct (out_of_bounds to); [discriminate |].
    destruct (_ || _); discriminate.
  - destruct (Queen_IsValidMove_cases board from to Hfx Hfy) as [[-> _] | [-> _]].
    + by apply Rook_IsValidMove_fuel.
    + by apply Bishop_IsValidMove_fuel.
  - by apply Rook_IsValidMove_fuel.
  - by apply Bishop_IsValidMove_fuel.
  - unfold Knight_IsValidMove. destruct (out_of_bounds to); discriminate.
  - unfold Pawn_IsValidMove. destruct (out_of_bounds to); [discriminate |].
    destruct (_ && _); [| discriminate].
    unfold vec_get. destruct (0 <=? _); [| discriminate].
    destruct (board !! _) as [slot |]; cbn [bind]; [| discriminate].
    destruct (_ =? 1); discriminate.
Qed.

(** ** The scenarios of the game *)

(** From the initial position, (4,6) then (4,4): the two-square advance is
    rejected, White is still to move, the selection is dropped. *)
Example two_square_advance_rejected :
  SelectSpaces initial_model [mkBoardCoord 4 6; mkBoardCoord 4 4]
  = Ret (deselected (selected initial_model (mkBoardCoord 4 6))).
Proof. vm_compute. reflexivity. Qed.

(** From the initial position, (4,6) then (4,5): the pawn advances and Black
    is to move. *)
Example one_square_advance_accepted :
  exists st,
    SelectSpaces initial_model [mkBoardCoord 4 6; mkBoardCoord 4 5] = Ret st /\
    GetPieceAt st (mkBoardCoord 4 6) = Ret None /\
    GetPieceAt st (mkBoardCoord 4 5) = Ret (white Pawn) /\
    GetCurPlayer st = Black /\ SpaceSelected st = false /\ GameOver st = false.
Proof. eexists. split; [vm_compute; reflexivity |]. by vm_compute. Qed.

(** The Black Rook at (0,0) takes the White King at (0,7) down a clear
    column: the game is over at once. *)
Example rook_takes_king_ends_game :
  exists st,
    SelectSpace rook_takes_king (mkBoardCoord 0 7) = Ret st /\
    GameOver st = true /\
    GetPieceAt st (mkBoardCoord 0 7) = Ret (black Rook) /\
    GetPieceAt st (mkBoardCoord 0 0) = Ret None.
Proof. eexists. split; [vm_compute; reflexivity |]. by vm_compute. Qed.

(** ** Where the hypotheses on the origin matter *)

(** From an origin off the board the row walk reads slots of another row:
    row 2 of the initial position is empty, yet the walk from (-3,2) to (2,2)
    stops on the pawn in slot 14. *)
Example walk_from_off_board_reads_other_row :
  Rook_IsValidMove initial_board (mkBoardCoord (-3) 2) (mkBoardCoord 2 2) = Ret false /\
  (forall c, on_board c -> y c = 2 -> empty_at initial_board c).
Proof.
  split; [vm_compute; reflexivity |].
  intros [cx cy] [Hx Hy] Hrow. simpl in *. subst cy. unfold empty_at, slot_of. simpl.
  assert (cx = 0 \/ cx = 1 \/ cx = 2 \/ cx = 3 \/ cx = 4 \/ cx = 5 \/ cx = 6 \/ cx = 7)
    as Hcases by lia.
  repeat (destruct Hcases as [-> | Hcases]; [reflexivity |]). subst cx. reflexivity.
Qed.

(** From further off, [at] throws. *)
Example walk_from_far_off_board_throws :
  Rook_IsValidMove initial_board (mkBoardCoord 100 0) (mkBoardCoord 0 0)
  = Fault OutOfRange.
Proof. vm_compute. reflexivity. Qed.

(** [MovePiece] does not look at the owner of the piece it moves.  Called
    for Black on the square of the White King with origin = destination, the
    King's check accepts the null move, the occupant is not Black's, and the
    two writes leave the square empty with the game over.  [SelectSpace]
    never makes such a call ([reachable_inv]). *)
Example MovePiece_null_move_of_other_player :
  exists st,
    MovePiece rook_takes_king Black (mkBoardCoord 0 7) (mkBoardCoord 0 7) = Ret (st, true) /\
    GetPieceAt st (mkBoardCoord 0 7) = Ret None /\
    GameOver st = true.
Proof. eexists. split; [vm_compute; reflexivity |]. by vm_compute. Qed.

(** * Further properties of the legality checks *)

(** X1. Knight legality: for every grid and destination, and every origin
    whose coordinate differences do not overflow, the Knight's check returns,
    and returns true exactly when the destination is on the board and the
    move is an L: one column and two rows, or two columns and one row.  The
    null move is rejected, and no content of the grid changes the answer. *)
Theorem Knight_legality (board : Board) (from to : BoardCoord) :
  origin_ok from ->
  (exists b, Knight_IsValidMove board from to = Ret b /\
     (b = true <->
      on_board to /\
      ((Z.abs (x to - x from) = 1 /\ Z.abs (y to - y from) = 2) \/
       (Z.abs (x to - x from) = 2 /\ Z.abs (y to - y from) = 1)))) /\
  Knight_IsValidMove board from from = Ret false /\
  (forall board' : Board,
      Knight_IsValidMove board' from to = Knight_IsValidMove board from to).
Proof.
  intros Hf. split; [by apply Knight_IsValidMove_returns |]. split; [| reflexivity].
  destruct (Knight_IsValidMove_returns board from from Hf) as (b & -> & Hiff).
  destruct b; [| reflexivity].
  destruct (proj1 Hiff eq_refl) as (_ & Hshape). lia.
Qed.

Lemma Knight_legality_witness :
  origin_ok (mkBoardCoord 1 7) /\
  exists b, Knight_IsValidMove initial_board (mkBoardCoord 1 7) (mkBoardCoord 2 5) = Ret b /\
     (b = true <->
      on_board (mkBoardCoord 2 5) /\
      ((Z.abs (2 - 1) = 1 /\ Z.abs (5 - 7) = 2) \/
       (Z.abs (2 - 1) = 2 /\ Z.abs (5 - 7) = 1))).
Proof.
  assert (H : origin_ok (mkBoardCoord 1 7)) by (ranges; lia).
  split; [exact H |].
  exact (proj1 (Knight_legality initial_board (mkBoardCoord 1 7) (mkBoardCoord 2 5) H)).
Defined.

(** X2. Bishop legality.  For every grid, origin and destination the check
    returns false when origin = destination, or the destination is off the
    board, or origin and destination share a row or a column.  On the 64
    slots and between squares of the board it returns, and returns true
    exactly when the move is diagonal and every square strictly between on
    the diagonal is empty; the contents of origin and destination do not
    change the answer. *)
Theorem Bishop_legality (board : Board) (from to : BoardCoord) :
  (from = to \/ ~ on_board to \/ x from = x to \/ y from = y to ->
   Bishop_IsValidMove board from to = Ret false) /\
  (length board = 64%nat -> on_board from -> on_board to ->
   exists b,
     Bishop_IsValidMove board from to = Ret b /\
     (b = true <->
      x from <> x to /\ Z.abs (x from - x to) = Z.abs (y from - y to) /\
      forall c, diagonally_between from to c -> empty_at board c) /\
     (forall board' : Board,
         length board' = 64%nat ->
         (forall c, diagonally_between from to c ->
                    board' !! slot_of c = board !! slot_of c) ->
         Bishop_IsValidMove board' from to = Ret b)).
Proof.
  split; [apply Bishop_IsValidMove_false |].
  intros Hlen Hfrom Hto.
  destruct (Bishop_IsValidMove_spec board from to Hlen Hfrom Hto) as (b & Hb & Hiff).
  exists b. split; [exact Hb |]. split; [exact Hiff |].
  intros board' Hlen' Hsame.
  destruct (Bishop_IsValidMove_spec board' from to Hlen' Hfrom Hto) as (b' & Hb' & Hiff').
  rewrite Hb'. f_equal.
  assert (b' = true <-> b = true) as Hbb.
  { rewrite Hiff, Hiff'. unfold empty_at.
    split; intros (H1 & H2 & Hall); (split; [exact H1 |]); (split; [exact H2 |]);
      intros c Hc; [rewrite <- Hsame | rewrite Hsame]; auto. }
  destruct b, b'; intuition congruence.
Qed.

Lemma Bishop_legality_witness :
  length initial_board = 64%nat /\
  on_board (mkBoardCoord 2 7) /\ on_board (mkBoardCoord 4 5) /\
  Bishop_IsValidMove initial_board (mkBoardCoord 2 7) (mkBoardCoord 4 5) = Ret false.
Proof.
  assert (H1 : length initial_board = 64%nat) by reflexivity.
  assert (H2 : on_board (mkBoardCoord 2 7)) by (ranges; lia).
  assert (H3 : on_board (mkBoardCoord 4 5)) by (ranges; lia).
  repeat (split; [assumption |]).
  destruct (proj2 (Bishop_legality initial_board (mkBoardCoord 2 7) (mkBoardCoord 4 5))
              H1 H2 H3) as (b & Hb & Hiff & _).
  rewrite Hb. destruct b; [| reflexivity].
  destruct (proj1 Hiff eq_refl) as (_ & _ & Hall).
  assert (Hpawn : empty_at initial_board (mkBoardCoord 3 6)).
  { apply Hall. unfold diagonally_between, between. simpl. lia. }
  discriminate Hpawn.
Defined.

(** X3. Queen legality on the board: on the 64 slots and between squares of
    the board the Queen's check returns, and returns true exactly when the
    move runs along a row or a column whose squares strictly between are
    empty, or along a diagonal whose squares strictly between are empty. *)
Theorem Queen_legality (board : Board) (from to : BoardCoord) :
  length board = 64%nat -> on_board from -> on_board to ->
  exists b, Queen_IsValidMove board from to = Ret b /\
    (b = true <->
     (from <> to /\ (x from = x to \/ y from = y to) /\
      forall c, strictly_between from to c -> empty_at board c) \/
     (x from <> x to /\ Z.abs (x from - x to) = Z.abs (y from - y to) /\
      forall c, diagonally_between from to c -> empty_at board c)).
Proof. apply Queen_IsValidMove_spec. Qed.

Lemma Queen_legality_witness :
  length initial_board = 64%nat /\
  on_board (mkBoardCoord 3 7) /\ on_board (mkBoardCoord 3 4) /\
  Queen_IsValidMove initial_board (mkBoardCoord 3 7) (mkBoardCoord 3 4) = Ret false.
Proof.
  assert (H1 : length initial_board = 64%nat) by reflexivity.
  assert (H2 : on_board (mkBoardCoord 3 7)) by (ranges; lia).
  assert (H3 : on_board (mkBoardCoord 3 4)) by (ranges; lia).
  repeat (split; [assumption |]).
  destruct (Queen_legality initial_board (mkBoardCoord 3 7) (mkBoardCoord 3 4) H1 H2 H3)
    as (b & Hb & Hiff).
  rewrite Hb. destruct b; [| reflexivity].
  destruct (proj1 Hiff eq_refl) as [(_ & _ & Hall) | (Hx & _)].
  - assert (Hpawn : empty_at initial_board (mkBoardCoord 3 6)).
    { apply Hall. right. unfold between. simpl. lia. }
    discriminate Hpawn.
  - exfalso. apply Hx. reflexivity.
Defined.

Lemma diagonally_between_on_board (from to c : BoardCoord) :
  on_board from -> on_board to -> diagonally_between from to c -> on_board c.
Proof.
  intros [Hfx Hfy] [Htx Hty] (Hbx & Hby & _). unfold between in *. split; lia.
Qed.

Lemma empty_at_insert (board : Board) (c d : BoardCoord) (v : option Piece) :
  length board = 64%nat -> on_board c -> on_board d ->
  empty_at (<[slot_of c := v]> board) d <->
  (d = c /\ v = None) \/ (d <> c /\ empty_at board d).
Proof.
  intros Hlen Hc Hd. unfold empty_at.
  destruct (decide (slot_of c = slot_of d)) as [Heq | Hne].
  - assert (c = d) as -> by (by apply slot_of_inj).
    rewrite list_lookup_insert_eq
      by (destruct Hd; unfold slot_of; lia).
    split.
    + intros [= ->]. auto.
    + intros [[_ ->] | [Hdd _]]; [reflexivity | congruence].
  - rewrite list_lookup_insert_ne by assumption. split.
    + intros H. right. split; [intros ->; congruence | exact H].
    + intros [[-> _] | [_ H]]; [congruence | exact H].
Qed.

(** X4. A piece in the way decides a sliding move: on the 64 slots and between
    squares of the board, putting any piece on a square strictly between
    origin and destination makes the Rook's and the Queen's check (on a row
    or column) and the Bishop's and the Queen's check (on a diagonal) return
    false; and when the other squares in between are empty, clearing that
    square makes them return true. *)
Theorem blocker_decides (board : Board) (from to c : BoardCoord) (pc : Piece) :
  length board = 64%nat -> on_board from -> on_board to ->
  (from <> to -> x from = x to \/ y from = y to -> strictly_between from to c ->
   Rook_IsValidMove (<[slot_of c := Some pc]> board) from to = Ret false /\
   Queen_IsValidMove (<[slot_of c := Some pc]> board) from to = Ret false /\
   ((forall d, strictly_between from to d -> d <> c -> empty_at board d) ->
    Rook_IsValidMove (<[slot_of c := None]> board) from to = Ret true /\
    Queen_IsValidMove (<[slot_of c := None]> board) from to = Ret true)) /\
  (x from <> x to -> Z.abs (x from - x to) = Z.abs (y from - y to) ->
   diagonally_between from to c ->
   Bishop_IsValidMove (<[slot_of c := Some pc]> board) from to = Ret false /\
   Queen_IsValidMove (<[slot_of c := Some pc]> board) from to = Ret false /\
   ((forall d, diagonally_between from to d -> d <> c -> empty_at board d) ->
    Bishop_IsValidMove (<[slot_of c := None]> board) from to = Ret true /\
    Queen_IsValidMove (<[slot_of c := None]> board) from to = Ret true)).
Proof.
  intros Hlen Hfrom Hto.
  assert (Hlen' : forall v, length (<[slot_of c := v]> board) = 64%nat)
    by (intros v; by rewrite length_insert).
  split.
  - intros Hne Haxis Hc.
    destruct (strictly_between_on_board from to c Hfrom Hto Hc) as (Hcb & _ & _).
    assert (Hnodiag : ~ (x from <> x to /\ Z.abs (x from - x to) = Z.abs (y from - y to)))
      by (destruct Haxis; lia).
    assert (Hblocked : forall b : bool,
               (b = true <->
                from <> to /\ (x from = x to \/ y from = y to) /\
                forall d, strictly_between from to d ->
                          empty_at (<[slot_of c := Some pc]> board) d) ->
               b = false).
    { intros [] Hiff; [| reflexivity].
      destruct (proj1 Hiff eq_refl) as (_ & _ & Hall).
      apply Hall in Hc. apply empty_at_insert in Hc; try assumption.
      destruct Hc as [[_ [=]] | [Hcc _]]. congruence. }
    assert (Hclear : (forall d, strictly_between from to d -> d <> c -> empty_at board d) ->
               forall d, strictly_between from to d ->
                         empty_at (<[slot_of c := None]> board) d).
    { intros Hrest d Hd.
      destruct (strictly_between_on_board from to d Hfrom Hto Hd) as (Hdb & _ & _).
      apply empty_at_insert; try assumption.
      destruct (coord_eqb d c) eqn:Hdc.
      - apply coord_eqb_eq in Hdc. auto.
      - right. assert (d <> c) by (intros E; apply coord_eqb_eq in E; congruence). auto. }
    split; [| split; [| intros Hrest; split]].
    + destruct (Rook_IsValidMove_spec _ from to (Hlen' (Some pc)) Hfrom Hto) as (b & -> & Hiff).
      f_equal. by apply Hblocked.
    + destruct (Queen_IsValidMove_spec _ from to (Hlen' (Some pc)) Hfrom Hto) as (b & -> & Hiff).
      f_equal. apply Hblocked. rewrite Hiff. split; [| auto].
      intros [H | (H1 & H2 & _)]; [exact H | exfalso; apply Hnodiag; auto].
    + destruct (Rook_IsValidMove_spec _ from to (Hlen' None) Hfrom Hto) as (b & -> & Hiff).
      f_equal. apply Hiff. auto.
    + destruct (Queen_IsValidMove_spec _ from to (Hlen' None) Hfrom Hto) as (b & -> & Hiff).
      f_equal. apply Hiff. left. auto.
  - intros Hx Hdiag Hc.
    pose proof (diagonally_between_on_board from to c Hfrom Hto Hc) as Hcb.
    assert (Hnoaxis : ~ (x from = x to \/ y from = y to)) by lia.
    assert (Hblocked : forall b : bool,
               (b = true <->
                x from <> x to /\ Z.abs (x from - x to) = Z.abs (y from - y to) /\
                forall d, diagonally_between from to d ->
                          empty_at (<[slot_of c := Some pc]> board) d) ->
               b = false).
    { intros [] Hiff; [| reflexivity].
      destruct (proj1 Hiff eq_refl) as (_ & _ & Hall).
      apply Hall in Hc. apply empty_at_insert in Hc; try assumption.
      destruct Hc as [[_ [=]] | [Hcc _]]. congruence. }
    assert (Hclear : (forall d, diagonally_between from to d -> d <> c -> empty_at board d) ->
               forall d, diagonally_between from to d ->
                         empty_at (<[slot_of c := None]> board) d).
    { intros Hrest d Hd.
      pose proof (diagonally_between_on_board from to d Hfrom Hto Hd) as Hdb.
      apply empty_at_insert; try assumption.
      destruct (coord_eqb d c) eqn:Hdc.
      - apply coord_eqb_eq in Hdc. auto.
      - right. assert (d <> c) by (intros E; apply coord_eqb_eq in E; congruence). auto. }
    split; [| split; [| intros Hrest; split]].
    + destruct (Bishop_IsValidMove_spec _ from to (Hlen' (Some pc)) Hfrom Hto) as (b & -> & Hiff).
      f_equal. by apply Hblocked.
    + destruct (Queen_IsValidMove_spec _ from to (Hlen' (Some pc)) Hfrom Hto) as (b & -> & Hiff).
      f_equal. apply Hblocked. rewrite Hiff. split; [| auto].
      intros [(_ & H & _) | H]; [exfalso; by apply Hnoaxis | exact H].
    + destruct (Bishop_IsValidMove_spec _ from to (Hlen' None) Hfrom Hto) as (b & -> & Hiff).
      f_equal. apply Hiff. auto.
    + destruct (Queen_IsValidMove_spec _ from to (Hlen' None) Hfrom Hto) as (b & -> & Hiff).
      f_equal. apply Hiff. right. auto.
Qed.

Lemma blocker_decides_witness :
  length initial_board = 64%nat /\
  on_board (mkBoardCoord 0 7) /\ on_board (mkBoardCoord 0 5) /\
  Rook_IsValidMove (<[slot_of (mkBoardCoord 0 6) := None]> initial_board)
    (mkBoardCoord 0 7) (mkBoardCoord 0 5) = Ret true.
Proof.
  assert (H1 : length initial_board = 64%nat) by reflexivity.
  assert (H2 : on_board (mkBoardCoord 0 7)) by (ranges; lia).
  assert (H3 : on_board (mkBoardCoord 0 5)) by (ranges; lia).
  repeat (split; [assumption |]).
  assert (Hne : mkBoardCoord 0 7 <> mkBoardCoord 0 5) by discriminate.
  assert (Hc : strictly_between (mkBoardCoord 0 7) (mkBoardCoord 0 5) (mkBoardCoord 0 6))
    by (right; unfold between; simpl; lia).
  apply (proj1 (blocker_decides initial_board (mkBoardCoord 0 7) (mkBoardCoord 0 5)
                  (mkBoardCoord 0 6) (mkPiece Pawn White) H1 H2 H3)
           Hne (or_introl eq_refl) Hc).
  intros [dx dy] [(Hy & _) | (_ & Hdx & Hb)] Hd; simpl in *; [lia |].
  unfold between in Hb. simpl in Hb.
  exfalso. apply Hd. f_equal; lia.
Defined.

Lemma between_sym (a b i : Z) : between a b i <-> between b a i.
Proof. unfold between. tauto. Qed.

Lemma strictly_between_sym (a b c : BoardCoord) :
  strictly_between a b c <-> strictly_between b a c.
Proof.
  unfold strictly_between. rewrite (between_sym (x a)), (between_sym (y a)).
  split; intros [(H1 & H2 & H3) | (H1 & H2 & H3)]; [left | right | left | right];
    repeat split; congruence.
Qed.

Lemma diagonally_between_sym (a b c : BoardCoord) :
  Z.abs (x a - x b) = Z.abs (y a - y b) ->
  diagonally_between a b c <-> diagonally_between b a c.
Proof.
  unfold diagonally_between, between. lia.
Qed.

Lemma checks_symmetric (board : Board) (a b : BoardCoord) :
  length board = 64%nat -> on_board a -> on_board b ->
  King_IsValidMove board b a = King_IsValidMove board a b /\
  Queen_IsValidMove board b a = Queen_IsValidMove board a b /\
  Rook_IsValidMove board b a = Rook_IsValidMove board a b /\
  Bishop_IsValidMove board b a = Bishop_IsValidMove board a b /\
  Knight_IsValidMove board b a = Knight_IsValidMove board a b.
Proof.
  intros Hlen Ha Hb.
  pose proof (on_board_origin_ok a Ha) as Hoa. pose proof (on_board_origin_ok b Hb) as Hob.
  assert (Hbool : forall (u v : bool) (P Q : Prop),
             (u = true <-> P) -> (v = true <-> Q) -> (P <-> Q) -> Ret u = Ret v :> outcome bool).
  { intros [] [] P Q HP HQ HPQ; try reflexivity; exfalso; intuition congruence. }
  assert (Hdiag : x b <> x a /\ Z.abs (x b - x a) = Z.abs (y b - y a) /\
                  (forall c, diagonally_between b a c -> empty_at board c) <->
                  x a <> x b /\ Z.abs (x a - x b) = Z.abs (y a - y b) /\
                  (forall c, diagonally_between a b c -> empty_at board c)).
  { split; intros (H1 & H2 & Hall); (split; [lia |]); (split; [lia |]);
      intros c Hc; apply Hall; apply diagonally_between_sym; (lia || assumption). }
  assert (Haxis : b <> a /\ (x b = x a \/ y b = y a) /\
                  (forall c, strictly_between b a c -> empty_at board c) <->
                  a <> b /\ (x a = x b \/ y a = y b) /\
                  (forall c, strictly_between a b c -> empty_at board c)).
  { split; intros (H1 & H2 & Hall); (split; [congruence |]); (split; [lia |]);
      intros c Hc; apply Hall; by apply strictly_between_sym. }
  split; [| split; [| split; [| split]]].
  - destruct (King_IsValidMove_returns board b a Hob) as (u & -> & Hu).
    destruct (King_IsValidMove_returns board a b Hoa) as (v & -> & Hv).
    eapply Hbool; [exact Hu | exact Hv |]. clear - Ha Hb. unfold on_board in *. lia.
  - destruct (Queen_IsValidMove_spec board b a Hlen Hb Ha) as (u & -> & Hu).
    destruct (Queen_IsValidMove_spec board a b Hlen Ha Hb) as (v & -> & Hv).
    eapply Hbool; [exact Hu | exact Hv |].
    split; (intros [H | H]; [left; by apply Haxis | right; by apply Hdiag]).
  - destruct (Rook_IsValidMove_spec board b a Hlen Hb Ha) as (u & -> & Hu).
    destruct (Rook_IsValidMove_spec board a b Hlen Ha Hb) as (v & -> & Hv).
    eapply Hbool; [exact Hu | exact Hv | exact Haxis].
  - destruct (Bishop_IsValidMove_spec board b a Hlen Hb Ha) as (u & -> & Hu).
    destruct (Bishop_IsValidMove_spec board a b Hlen Ha Hb) as (v & -> & Hv).
    eapply Hbool; [exact Hu | exact Hv | exact Hdiag].
  - destruct (Knight_IsValidMove_returns board b a Hob) as (u & -> & Hu).
    destruct (Knight_IsValidMove_returns board a b Hoa) as (v & -> & Hv).
    eapply Hbool; [exact Hu | exact Hv |]. clear - Ha Hb. unfold on_board in *. lia.
Qed.

(** X5. Every check but the Pawn's is symmetric: on the 64 slots and between
    squares of the board, the King's, Queen's, Rook's, Bishop's and Knight's
    checks give the move from [b] to [a] the answer they give the move from
    [a] to [b]. *)
Theorem legality_symmetric (board : Board) (a b : BoardCoord) :
  length board = 64%nat -> on_board a -> on_board b ->
  King_IsValidMove board b a = King_IsValidMove board a b /\
  Queen_IsValidMove board b a = Queen_IsValidMove board a b /\
  Rook_IsValidMove board b a = Rook_IsValidMove board a b /\
  Bishop_IsValidMove board b a = Bishop_IsValidMove board a b /\
  Knight_IsValidMove board b a = Knight_IsValidMove board a b.
Proof. apply checks_symmetric. Qed.

Lemma legality_symmetric_witness :
  length initial_board = 64%nat /\
  on_board (mkBoardCoord 1 7) /\ on_board (mkBoardCoord 2 5) /\
  Knight_IsValidMove initial_board (mkBoardCoord 2 5) (mkBoardCoord 1 7)
  = Knight_IsValidMove initial_board (mkBoardCoord 1 7) (mkBoardCoord 2 5).
Proof.
  assert (H1 : length initial_board = 64%nat) by reflexivity.
  assert (H2 : on_board (mkBoardCoord 1 7)) by (ranges; lia).
  assert (H3 : on_board (mkBoardCoord 2 5)) by (ranges; lia).
  repeat (split; [assumption |]).
  exact (proj2 (proj2 (proj2 (proj2
           (legality_symmetric initial_board (mkBoardCoord 1 7) (mkBoardCoord 2 5)
              H1 H2 H3))))).
Defined.

(** On the 64 slots and from a square of the board no check throws. *)
Lemma IsValidMove_returns (pc : Piece) (board : Board) (from to : BoardCoord) :
  length board = 64%nat -> on_board from ->
  exists b, IsValidMove pc board from to = Ret b.
Proof.
  intros Hlen Hfrom. pose proof (on_board_origin_ok from Hfrom) as Hok.
  destruct pc as [k q]. unfold IsValidMove; cbn [piece_type m_player]. destruct k.
  - destruct (King_IsValidMove_returns board from to Hok) as (b & Hb & _). eauto.
  - assert (Int32.in_range (x from) /\ Int32.in_range (y from)) as [Hfx Hfy]
      by (ranges; lia).
    destruct (Queen_IsValidMove_cases board from to Hfx Hfy) as [[-> _] | [-> _]].
    + by apply Rook_IsValidMove_returns.
    + by apply Bishop_IsValidMove_returns.
  - by apply Rook_IsValidMove_returns.
  - by apply Bishop_IsValidMove_returns.
  - destruct (Knight_IsValidMove_returns board from to Hok) as (b & Hb & _). eauto.
  - destruct (out_of_bounds to) eqn:Hoob.
    + exists false. unfold Pawn_IsValidMove. by rewrite Hoob.
    + apply out_of_bounds_false in Hoob.
      destruct (Pawn_IsValidMove_returns q board from to Hlen Hok Hoob) as (b & Hb & _).
      eauto.
Qed.

(** X6. No legality check throws on well-formed input: on the 64 slots and
    from a square of the board, the virtual call returns a boolean for every
    piece and every destination, on the board or off it. *)
Theorem legality_never_throws (pc : Piece) (board : Board) (from to : BoardCoord) :
  length board = 64%nat -> on_board from ->
  exists b, IsValidMove pc board from to = Ret b.
Proof. apply IsValidMove_returns. Qed.

Lemma legality_never_throws_witness :
  length initial_board = 64%nat /\ on_board (mkBoardCoord 3 7) /\
  exists b, IsValidMove (mkPiece Queen White) initial_board
              (mkBoardCoord 3 7) (mkBoardCoord (-5) 12) = Ret b.
Proof.
  assert (H1 : length initial_board = 64%nat) by reflexivity.
  assert (H2 : on_board (mkBoardCoord 3 7)) by (ranges; lia).
  repeat (split; [assumption |]).
  exact (legality_never_throws (mkPiece Queen White) initial_board
           (mkBoardCoord 3 7) (mkBoardCoord (-5) 12) H1 H2).
Defined.

(** X7. The walks end: for every piece, every grid of any length, every
    destination and every origin of [int] coordinates, the loops of the
    Rook's, Bishop's and Queen's checks stop within the distance between
    origin and destination on the axis they step along, so the check either
    returns or stops on a read past the end of the vector; it never runs on. *)
Theorem legality_loops_terminate (pc : Piece) (board : Board) (from to : BoardCoord) :
  Int32.in_range (x from) -> Int32.in_range (y from) ->
  IsValidMove pc board from to <> Fault Diverges /\
  (forall f, IsValidMove pc board from to = Fault f -> f = OutOfRange \/ f = Undefined).
Proof.
  intros Hfx Hfy.
  pose proof (IsValidMove_never_Diverges pc board from to Hfx Hfy) as Hnd.
  split; [exact Hnd |].
  intros f Hf. destruct f; auto; [| congruence].
  exfalso. revert Hf. destruct pc as [k q]. unfold IsValidMove; cbn [piece_type m_player].
  assert (Haxis : forall fuel tx ty fx e s i,
             axis_walk fuel board tx ty fx e s i <> Fault AssertFail).
  { induction fuel as [| fuel IH]; intros tx ty fx e s i; cbn [axis_walk];
      destruct (i =? e); try discriminate.
    unfold axis_read, vec_at.
    destruct (negb (tx =? fx)).
    - destruct (0 <=? _); [| discriminate].
      destruct (board !! _) as [slot |]; cbn [bind]; [| discriminate].
      destruct (is_piece slot); [discriminate | apply IH].
    - destruct (0 <=? _); [| discriminate].
      destruct (board !! _) as [slot |]; cbn [bind]; [| discriminate].
      destruct (is_piece slot); [discriminate | apply IH]. }
  assert (Hdiag : forall fuel tx xs ys ix iy,
             diagonal_walk fuel board tx xs ys ix iy <> Fault AssertFail).
  { induction fuel as [| fuel IH]; intros tx xs ys ix iy; cbn [diagonal_walk];
      destruct (ix =? tx); try discriminate.
    unfold vec_at. destruct (0 <=? _); [| discriminate].
    destruct (board !! _) as [slot |]; cbn [bind]; [| discriminate].
    destruct (is_piece slot); [discriminate | apply IH]. }
  assert (HR : Rook_IsValidMove board from to <> Fault AssertFail).
  { unfold Rook_IsValidMove. destruct (coord_eqb to from); [discriminate |].
    destruct (out_of_bounds to); [discriminate |].
    destruct (_ && _); [discriminate |]. unfold axis_branch.
    destruct (negb (x to =? x from)); apply Haxis. }
  assert (HB : Bishop_IsValidMove board from to <> Fault AssertFail).
  { unfold Bishop_IsValidMove. destruct (coord_eqb to from); [discriminate |].
    destruct (out_of_bounds to); [discriminate |].
    destruct (_ || _); [discriminate |]. destruct (negb _); [discriminate |].
    apply Hdiag. }
  destruct k.
  - unfold King_IsValidMove. destruct (out_of_bounds to); [discriminate |].
    destruct (_ || _); discriminate.
  - destruct (Queen_IsValidMove_cases board from to Hfx Hfy) as [[-> _] | [-> _]];
      assumption.
  - exact HR.
  - exact HB.
  - unfold Knight_IsValidMove. destruct (out_of_bounds to); discriminate.
  - unfold Pawn_IsValidMove. destruct (out_of_bounds to); [discriminate |].
    destruct (_ && _); [| discriminate].
    unfold vec_get. destruct (0 <=? _); [| discriminate].
    destruct (board !! _) as [slot |]; cbn [bind]; [| discriminate].
    destruct (_ =? 1); discriminate.
Qed.

Lemma legality_loops_terminate_witness :
  Int32.in_range 100 /\ Int32.in_range 0 /\
  IsValidMove (mkPiece Rook White) initial_board (mkBoardCoord 100 0) (mkBoardCoord 0 0)
  <> Fault Diverges.
Proof.
  assert (H1 : Int32.in_range 100) by (ranges; lia).
  assert (H2 : Int32.in_range 0) by (ranges; lia).
  repeat (split; [assumption |]).
  exact (proj1 (legality_loops_terminate (mkPiece Rook White) initial_board
                  (mkBoardCoord 100 0) (mkBoardCoord 0 0) H1 H2)).
Defined.

(** * Further properties of the board model *)

Lemma GetPieceAt_outside (st : BoardModel) (c : BoardCoord) :
  ~ 0 <= index_of c < Z.of_nat (length (m_board st)) ->
  GetPieceAt st c = Fault AssertFail.
Proof.
  intros Hout. unfold GetPieceAt.
  destruct (Z.leb_spec 0 (index_of c)); destruct (Z.ltb_spec (index_of c)
    (Z.of_nat (length (m_board st)))); cbn [andb]; try reflexivity. lia.
Qed.

Lemma GetPieceAt_inside (st : BoardModel) (c : BoardCoord) :
  0 <= index_of c < Z.of_nat (length (m_board st)) ->
  exists slot, GetPieceAt st c = Ret slot /\
               m_board st !! Z.to_nat (index_of c) = Some slot.
Proof.
  intros Hin.
  destruct (lookup_lt_is_Some_2 (m_board st) (Z.to_nat (index_of c))) as [slot Hs]; [lia |].
  exists slot. split; [| exact Hs]. apply GetPieceAt_Ret. auto.
Qed.

Lemma GetPieceAt_on_board (st : BoardModel) (c : BoardCoord) :
  length (m_board st) = 64%nat -> on_board c ->
  exists slot, GetPieceAt st c = Ret slot /\ m_board st !! slot_of c = Some slot.
Proof.
  intros Hlen Hc.
  destruct (GetPieceAt_inside st c) as (slot & Hget & Hslot).
  - rewrite (index_of_on_board c Hc). destruct Hc. lia.
  - exists slot. split; [exact Hget |].
    rewrite (index_of_on_board c Hc) in Hslot. exact Hslot.
Qed.

(** X8. [GetPieceAt] on the 64 slots: it returns the slot [y * 8 + x] when
    that index lies in [0,64) and fails its assertion otherwise; so it
    returns for every square of the board, but it also returns for
    coordinates off the board whose index falls in range: column [x + 8] of
    row [y] reads the square in column [x] of row [y + 1]. *)
Theorem GetPieceAt_by_index (st : BoardModel) (c : BoardCoord) :
  length (m_board st) = 64%nat ->
  (0 <= index_of c < 64 ->
   exists slot, GetPieceAt st c = Ret slot /\
                m_board st !! Z.to_nat (index_of c) = Some slot) /\
  (~ 0 <= index_of c < 64 -> GetPieceAt st c = Fault AssertFail) /\
  (on_board c ->
   exists slot, GetPieceAt st c = Ret slot /\ m_board st !! slot_of c = Some slot) /\
  (forall d, index_of d = index_of c -> GetPieceAt st d = GetPieceAt st c) /\
  (0 <= x c < 8 -> 0 <= y c < 7 ->
   GetPieceAt st (mkBoardCoord (x c + 8) (y c)) = GetPieceAt st (mkBoardCoord (x c) (y c + 1))).
Proof.
  intros Hlen. split; [| split; [| split; [| split]]].
  - intros Hin. apply GetPieceAt_inside. lia.
  - intros Hout. apply GetPieceAt_outside. lia.
  - by apply GetPieceAt_on_board.
  - intros d Hd. unfold GetPieceAt. by rewrite Hd.
  - intros Hx Hy. unfold GetPieceAt, index_of. cbn [x y].
    rewrite (mul_exact (y c) 8) by (ranges; lia).
    rewrite (mul_exact (y c + 1) 8) by (ranges; lia).
    rewrite (add_exact (y c * 8) (x c + 8)) by (ranges; lia).
    rewrite (add_exact ((y c + 1) * 8) (x c)) by (ranges; lia).
    replace ((y c + 1) * 8 + x c) with (y c * 8 + (x c + 8)) by lia. reflexivity.
Qed.

Lemma GetPieceAt_by_index_witness :
  length (m_board initial_model) = 64%nat /\
  GetPieceAt initial_model (mkBoardCoord 8 0) = GetPieceAt initial_model (mkBoardCoord 0 1).
Proof.
  assert (H1 : length (m_board initial_model) = 64%nat) by reflexivity.
  split; [exact H1 |].
  apply (proj2 (proj2 (proj2 (proj2
           (GetPieceAt_by_index initial_model (mkBoardCoord 0 0) H1)))));
    simpl; lia.
Defined.

Lemma MovePiece_returns (st : BoardModel) (p : Player) (from to : BoardCoord) :
  length (m_board st) = 64%nat -> on_board from -> on_board to ->
  exists st' ok, MovePiece st p from to = Ret (st', ok).
Proof.
  intros Hlen Hfrom Hto. rewrite MovePiece_eq.
  destruct (GetPieceAt_on_board st from Hlen Hfrom) as (a & -> & _). cbn [bind].
  destruct a as [attacker |]; [| eauto].
  destruct (GetPieceAt_on_board st to Hlen Hto) as (d & -> & _). cbn [bind].
  destruct (IsValidMove_returns attacker (m_board st) from to Hlen Hfrom) as (b & ->).
  cbn [bind]. destruct (b && may_land d p); eauto.
Qed.

(** X9. Where [MovePiece] stops or gives up, on the 64 slots: it fails the
    assertion when the index of the origin is outside [0,64); with an empty
    origin it returns false without looking at the destination, whatever the
    destination is; with a piece at the origin it fails the assertion when
    the index of the destination is outside [0,64); and between squares of
    the board it always returns. *)
Theorem MovePiece_stops (st : BoardModel) (p : Player) (from to : BoardCoord) :
  length (m_board st) = 64%nat ->
  (~ 0 <= index_of from < 64 -> MovePiece st p from to = Fault AssertFail) /\
  (GetPieceAt st from = Ret None -> MovePiece st p from to = Ret (st, false)) /\
  (forall attacker,
      GetPieceAt st from = Ret (Some attacker) -> ~ 0 <= index_of to < 64 ->
      MovePiece st p from to = Fault AssertFail) /\
  (on_board from -> on_board to ->
   exists st' ok, MovePiece st p from to = Ret (st', ok)).
Proof.
  intros Hlen. split; [| split; [| split]].
  - intros Hout. rewrite MovePiece_eq, GetPieceAt_outside by lia. reflexivity.
  - intros Hempty. rewrite MovePiece_eq, Hempty. reflexivity.
  - intros attacker Hfrom Hout.
    rewrite MovePiece_eq, Hfrom. cbn [bind].
    rewrite GetPieceAt_outside by lia. reflexivity.
  - by apply MovePiece_returns.
Qed.

Lemma MovePiece_stops_witness :
  length (m_board initial_model) = 64%nat /\
  GetPieceAt initial_model (mkBoardCoord 4 4) = Ret None /\
  MovePiece initial_model White (mkBoardCoord 4 4) (mkBoardCoord 100 100)
  = Ret (initial_model, false).
Proof.
  assert (H1 : length (m_board initial_model) = 64%nat) by reflexivity.
  assert (H2 : GetPieceAt initial_model (mkBoardCoord 4 4) = Ret None)
    by (vm_compute; reflexivity).
  repeat (split; [assumption |]).
  exact (proj1 (proj2 (MovePiece_stops initial_model White (mkBoardCoord 4 4)
                         (mkBoardCoord 100 100) H1)) H2).
Defined.

(** X10. A click with nothing selected, in a game that is not over, can only
    select: it leaves the model as it was when the square is empty or holds
    a piece of the player who is not to move, and it records the square as
    the pending selection, changing nothing else, when the square holds a
    piece of the player to move.  Grid, turn and game-over flag are never
    changed by such a click. *)
Theorem SelectSpace_selects (st : BoardModel) (coord : BoardCoord) :
  GameOver st = false -> SpaceSelected st = false ->
  (GetPieceAt st coord = Ret None -> SelectSpace st coord = Ret st) /\
  (forall pc, GetPieceAt st coord = Ret (Some pc) ->
              GetPlayer pc = other_player (GetCurPlayer st) ->
              SelectSpace st coord = Ret st) /\
  (forall pc, GetPieceAt st coord = Ret (Some pc) ->
              GetPlayer pc = GetCurPlayer st ->
              SelectSpace st coord = Ret (selected st coord)) /\
  (forall st', SelectSpace st coord = Ret st' ->
               m_board st' = m_board st /\ GetCurPlayer st' = GetCurPlayer st /\
               GameOver st' = GameOver st).
Proof.
  unfold GameOver, SpaceSelected, GetCurPlayer. intros Hgo Hsel.
  rewrite SelectSpace_eq, Hgo, Hsel.
  split; [| split; [| split]].
  - by intros ->.
  - intros pc -> Hown. cbn [bind].
    destruct (player_eqb (GetPlayer pc) (m_cur_player st)) eqn:He; [| reflexivity].
    apply player_eqb_eq in He. rewrite He in Hown.
    symmetry in Hown. by apply other_player_neq in Hown.
  - intros pc -> Hown. cbn [bind].
    by rewrite (proj2 (player_eqb_eq _ _) Hown).
  - intros st'. destruct (GetPieceAt st coord) as [[pc |] | f]; cbn [bind];
      [| by intros [= <-] | discriminate].
    destruct (player_eqb _ _); by intros [= <-].
Qed.

Lemma SelectSpace_selects_witness :
  GameOver initial_model = false /\ SpaceSelected initial_model = false /\
  GetPieceAt initial_model (mkBoardCoord 4 1) = Ret (Some (mkPiece Pawn Black)) /\
  SelectSpace initial_model (mkBoardCoord 4 1) = Ret initial_model.
Proof.
  assert (H1 : GameOver initial_model = false) by reflexivity.
  assert (H2 : SpaceSelected initial_model = false) by reflexivity.
  assert (H3 : GetPieceAt initial_model (mkBoardCoord 4 1)
               = Ret (Some (mkPiece Pawn Black))) by (vm_compute; reflexivity).
  repeat (split; [assumption |]).
  exact (proj1 (proj2 (SelectSpace_selects initial_model (mkBoardCoord 4 1) H1 H2))
           (mkPiece Pawn Black) H3 eq_refl).
Defined.

(** [MovePiece] reads the grid and the game-over flag only. *)
Lemma MovePiece_selected (st : BoardModel) (c : BoardCoord) (p : Player)
    (from to : BoardCoord) :
  MovePiece (selected st c) p from to =
  do r <- MovePiece st p from to;
  Ret (if snd r then selected (fst r) c else selected st c, snd r).
Proof.
  rewrite !MovePiece_eq.
  change (GetPieceAt (selected st c)) with (GetPieceAt st).
  change (m_board (selected st c)) with (m_board st).
  destruct (GetPieceAt st from) as [[attacker |] | f]; cbn [bind]; try reflexivity.
  destruct (GetPieceAt st to) as [d | f]; cbn [bind]; try reflexivity.
  destruct (IsValidMove attacker (m_board st) from to) as [b | f]; cbn [bind];
    try reflexivity.
  destruct (b && may_land d p); reflexivity.
Qed.

(** X11. Two clicks make a move: in a game that is not over and with nothing
    selected, a click on a piece of the player to move followed by a click
    on a second square is one call of [MovePiece] for that player between
    the two squares; afterwards nothing is selected, and the turn has passed
    to the other player exactly when the move was accepted. *)
Theorem two_clicks_make_a_move (st : BoardModel) (c1 c2 : BoardCoord) (pc : Piece) :
  GameOver st = false -> SpaceSelected st = false ->
  GetPieceAt st c1 = Ret (Some pc) -> GetPlayer pc = GetCurPlayer st ->
  SelectSpaces st [c1; c2] =
  do r <- MovePiece st (GetCurPlayer st) c1 c2;
  Ret {| m_board := m_board (fst r);
         m_move_started := false;
         m_space_selected := c1;
         m_game_over := m_game_over (fst r);
         m_cur_player := if snd r then other_player (GetCurPlayer st)
                         else GetCurPlayer st |}.
Proof.
  unfold GameOver, SpaceSelected, GetCurPlayer. intros Hgo Hsel Hat Hown.
  cbn [SelectSpaces].
  rewrite (SelectSpace_eq st c1), Hgo, Hsel, Hat. cbn [bind].
  rewrite (proj2 (player_eqb_eq _ _) Hown). cbn [bind].
  rewrite SelectSpace_eq. cbn [selected m_game_over m_move_started m_cur_player
                                 m_space_selected].
  rewrite Hgo.
  change {| m_board := m_board st; m_move_started := true; m_space_selected := c1;
            m_game_over := m_game_over st; m_cur_player := m_cur_player st |}
    with (selected st c1).
  rewrite MovePiece_selected.
  destruct (MovePiece st (m_cur_player st) c1 c2) as [[st1 ok] | f] eqn:Hmove;
    cbn [bind fst snd]; [| reflexivity].
  pose proof (MovePiece_cur_player _ _ _ _ _ _ Hmove) as Hcur.
  destruct ok.
  - unfold turned, deselected, selected.
    cbn [m_board m_move_started m_space_selected m_game_over m_cur_player].
    by rewrite Hcur.
  - destruct (MovePiece_Ret _ _ _ _ _ _ Hmove) as [[_ ->] | ([=] & _)]. reflexivity.
Qed.

Lemma two_clicks_make_a_move_witness :
  GameOver initial_model = false /\ SpaceSelected initial_model = false /\
  GetPieceAt initial_model (mkBoardCoord 6 7) = Ret (Some (mkPiece Knight White)) /\
  GetPlayer (mkPiece Knight White) = GetCurPlayer initial_model /\
  SelectSpaces initial_model [mkBoardCoord 6 7; mkBoardCoord 5 5] =
  do r <- MovePiece initial_model (GetCurPlayer initial_model)
            (mkBoardCoord 6 7) (mkBoardCoord 5 5);
  Ret {| m_board := m_board (fst r);
         m_move_started := false;
         m_space_selected := mkBoardCoord 6 7;
         m_game_over := m_game_over (fst r);
         m_cur_player := if snd r then other_player (GetCurPlayer initial_model)
                         else GetCurPlayer initial_model |}.
Proof.
  assert (H1 : GameOver initial_model = false) by reflexivity.
  assert (H2 : SpaceSelected initial_model = false) by reflexivity.
  assert (H3 : GetPieceAt initial_model (mkBoardCoord 6 7)
               = Ret (Some (mkPiece Knight White))) by (vm_compute; reflexivity).
  assert (H4 : GetPlayer (mkPiece Knight White) = GetCurPlayer initial_model)
    by reflexivity.
  repeat (split; [assumption |]).
  exact (two_clicks_make_a_move initial_model (mkBoardCoord 6 7) (mkBoardCoord 5 5)
           (mkPiece Knight White) H1 H2 H3 H4).
Defined.

(** ** Counting pieces *)

Lemma count_slots_insert (f : option Piece -> bool) (board : Board) (i : nat)
    (v s : option Piece) :
  board !! i = Some s ->
  (count_slots f (<[i := v]> board) + (if f s then 1 else 0)
   = count_slots f board + (if f v then 1 else 0))%nat.
Proof.
  revert i. induction board as [| slot rest IH]; intros [| i] Hs; try discriminate.
  - injection Hs as ->. cbn [count_slots]. change (<[0%nat := v]> (s :: rest)) with (v :: rest).
    cbn [count_slots]. lia.
  - change (<[S i := v]> (slot :: rest)) with (slot :: <[i := v]> rest).
    cbn [count_slots]. specialize (IH i Hs). lia.
Qed.

(** The two writes of an accepted move, on two different slots: the count of
    the slots that satisfy [f] drops by the piece taken, if it satisfies [f]. *)
Lemma count_slots_moved (f : option Piece -> bool) (board : Board) (i j : nat)
    (attacker : Piece) (d : option Piece) :
  i <> j -> board !! i = Some (Some attacker) -> board !! j = Some d ->
  f None = false ->
  (count_slots f (<[i := None]> (<[j := Some attacker]> board)) + (if f d then 1 else 0)
   = count_slots f board)%nat.
Proof.
  intros Hne Hi Hj HNone.
  pose proof (count_slots_insert f board j (Some attacker) d Hj) as H1.
  assert (Hi' : <[j := Some attacker]> board !! i = Some (Some attacker))
    by (by rewrite list_lookup_insert_ne).
  pose proof (count_slots_insert f _ i None (Some attacker) Hi') as H2.
  rewrite HNone in H2. lia.
Qed.

Lemma GetPieceAt_slot (st : BoardModel) (c : BoardCoord) (slot : option Piece) :
  on_board c -> GetPieceAt st c = Ret slot ->
  m_board st !! slot_of c = Some slot /\ Z.to_nat (index_of c) = slot_of c.
Proof.
  intros Hc [_ Hs]%GetPieceAt_Ret.
  rewrite (index_of_on_board c Hc) in Hs. split; [exact Hs |].
  by rewrite (index_of_on_board c Hc).
Qed.

(** X12. An accepted move never adds a piece: when [MovePiece] returns true
    for an origin and a destination in different slots, the number of pieces
    on the grid drops by one if the destination was occupied and is unchanged
    otherwise; the pieces of the player the call was made for are as many as
    before; and for any property of a slot that an empty slot does not have,
    the number of slots with it changes by the taken piece only. *)
Theorem MovePiece_piece_count (st st' : BoardModel) (p : Player) (from to : BoardCoord) :
  MovePiece st p from to = Ret (st', true) ->
  index_of to <> index_of from ->
  exists d,
    GetPieceAt st to = Ret d /\
    (count_slots is_piece (m_board st') + (if is_piece d then 1 else 0)
     = count_slots is_piece (m_board st))%nat /\
    count_slots (is_piece_of p) (m_board st') = count_slots (is_piece_of p) (m_board st) /\
    (forall f : option Piece -> bool,
        f None = false ->
        (count_slots f (m_board st') + (if f d then 1 else 0)
         = count_slots f (m_board st))%nat).
Proof.
  intros Hmove Hne.
  destruct (MovePiece_Ret _ _ _ _ _ _ Hmove)
    as [[[=] _] | (_ & attacker & d & Hfrom & Hto & _ & Hland & ->)].
  exists d. split; [exact Hto |].
  apply GetPieceAt_Ret in Hfrom as [Hfr Hfs]. apply GetPieceAt_Ret in Hto as [Htr Hts].
  assert (Hgen : forall f : option Piece -> bool,
             f None = false ->
             (count_slots f (m_board (moved st attacker d from to))
              + (if f d then 1 else 0) = count_slots f (m_board st))%nat).
  { intros f HNone. cbn [moved m_board].
    apply count_slots_moved; try assumption. lia. }
  split; [by apply Hgen |]. split; [| exact Hgen].
  pose proof (Hgen (is_piece_of p) eq_refl) as Hp.
  assert (is_piece_of p d = false) as Hd.
  { destruct d as [dp |]; [| reflexivity]. cbn [may_land is_piece_of] in *.
    by destruct (player_eqb (GetPlayer dp) p). }
  rewrite Hd in Hp. lia.
Qed.

Lemma MovePiece_piece_count_witness :
  MovePiece rook_takes_king Black (mkBoardCoord 0 0) (mkBoardCoord 0 7)
  = Ret (moved rook_takes_king (mkPiece Rook Black) (Some (mkPiece King White))
           (mkBoardCoord 0 0) (mkBoardCoord 0 7), true) /\
  index_of (mkBoardCoord 0 7) <> index_of (mkBoardCoord 0 0) /\
  count_slots (is_piece_of Black)
    (m_board (moved rook_takes_king (mkPiece Rook Black) (Some (mkPiece King White))
                (mkBoardCoord 0 0) (mkBoardCoord 0 7)))
  = count_slots (is_piece_of Black) (m_board rook_takes_king).
Proof.
  assert (H1 : MovePiece rook_takes_king Black (mkBoardCoord 0 0) (mkBoardCoord 0 7)
               = Ret (moved rook_takes_king (mkPiece Rook Black)
                        (Some (mkPiece King White))
                        (mkBoardCoord 0 0) (mkBoardCoord 0 7), true))
    by (vm_compute; reflexivity).
  assert (H2 : index_of (mkBoardCoord 0 7) <> index_of (mkBoardCoord 0 0))
    by (vm_compute; discriminate).
  repeat (split; [assumption |]).
  destruct (MovePiece_piece_count _ _ _ _ _ H1 H2) as (d & _ & _ & Hown & _).
  exact Hown.
Defined.

(** ** A game played on the board *)

Lemma is_king_of_holds_king (q : Player) (d : option Piece) :
  is_king_of q d = true -> holds_king d = true.
Proof.
  destruct d as [dp |]; cbn [is_king_of holds_king]; [| discriminate].
  by intros [-> _]%andb_true_iff.
Qed.

Lemma holds_king_is_king_of (dp : Piece) :
  holds_king (Some dp) = true -> is_king_of (GetPlayer dp) (Some dp) = true.
Proof.
  cbn [holds_king is_king_of]. intros ->. by destruct (GetPlayer dp).
Qed.

Lemma is_king_of_owner (q : Player) (dp : Piece) :
  is_king_of q (Some dp) = true -> GetPlayer dp = q.
Proof.
  cbn [is_king_of]. intros [_ H]%andb_true_iff. by apply player_eqb_eq.
Qed.

Lemma other_player_involutive (p : Player) : other_player (other_player p) = p.
Proof. by destruct p. Qed.

Lemma SelectSpace_game_inv (st st' : BoardModel) (coord : BoardCoord) :
  game_inv st -> on_board coord -> SelectSpace st coord = Ret st' -> game_inv st'.
Proof.
  intros (Hlen & Hover & Hsel & Hlive & Hdead) Hc. rewrite SelectSpace_eq.
  destruct (m_game_over st) eqn:Hgo.
  { intros [= <-]. unfold game_inv. rewrite Hgo. auto. }
  destruct (Hlive eq_refl) as [HkW HkB].
  assert (Hkings : forall q, count_slots (is_king_of q) (m_board st) = 1%nat)
    by (by intros []).
  destruct (m_move_started st) eqn:Hms.
  - destruct (Hsel eq_refl) as (Hsb & pc & Hat & Hown).
    destruct (MovePiece st (m_cur_player st) (m_space_selected st) coord)
      as [[st1 ok] | f] eqn:Hmove; cbn [bind]; [| discriminate].
    intros [= <-].
    destruct (MovePiece_Ret _ _ _ _ _ _ Hmove)
      as [[-> ->] | (-> & attacker & d & Hfrom & Hto & Hvalid & Hland & ->)].
    + cbn [snd fst]. unfold game_inv.
      cbn [deselected m_board m_move_started m_game_over m_cur_player m_space_selected].
      rewrite Hgo. repeat split; auto; discriminate.
    + cbn [snd fst]. rewrite Hat in Hfrom. injection Hfrom as <-.
      assert (m_space_selected st <> coord) as Hne.
      { intros E. rewrite E, Hto in Hat. injection Hat as ->.
        rewrite (may_land_same_player pc _ Hown) in Hland. discriminate. }
      destruct (GetPieceAt_slot st _ _ Hsb Hat) as [Hsf Hif].
      destruct (GetPieceAt_slot st _ _ Hc Hto) as [Hst Hit].
      assert (Hslots : slot_of (m_space_selected st) <> slot_of coord)
        by (intros E; apply Hne; by apply slot_of_inj).
      assert (Hcount : forall q,
                 (count_slots (is_king_of q)
                    (m_board (moved st pc d (m_space_selected st) coord))
                  + (if is_king_of q d then 1 else 0) = 1)%nat).
      { intros q. cbn [moved m_board]. rewrite Hif, Hit.
        pose proof (count_slots_moved (is_king_of q) (m_board st) _ _ pc d
                      Hslots Hsf Hst eq_refl) as Hq.
        by rewrite (Hkings q) in Hq. }
      unfold game_inv.
      cbn [turned deselected moved m_board m_move_started m_game_over m_cur_player
             m_space_selected].
      rewrite Hgo, orb_false_r.
      split; [by rewrite !length_insert |]. split; [reflexivity |].
      split; [discriminate |]. split.
      * intros Hnk.
        assert (forall q, is_king_of q d = false) as Hno.
        { intros q. destruct (is_king_of q d) eqn:E; [| reflexivity].
          apply is_king_of_holds_king in E. congruence. }
        pose proof (Hcount White) as HW. pose proof (Hcount Black) as HB.
        cbn [moved m_board] in HW, HB. rewrite Hno in HW, HB. lia.
      * intros Hk. destruct d as [dp |]; [| discriminate].
        pose proof (holds_king_is_king_of dp Hk) as Hdk.
        assert (GetPlayer dp = other_player (m_cur_player st)) as Hdp.
        { apply may_land_true in Hland as [[=] | (dp' & [= <-] & H)]. exact H. }
        rewrite Hdp in Hdk.
        pose proof (Hcount (other_player (m_cur_player st))) as H1.
        pose proof (Hcount (m_cur_player st)) as H2.
        cbn [moved m_board] in H1, H2. rewrite Hdk in H1.
        assert (is_king_of (m_cur_player st) (Some dp) = false) as Hnot.
        { destruct (is_king_of (m_cur_player st) (Some dp)) eqn:E; [| reflexivity].
          apply is_king_of_owner in E. rewrite E in Hdp.
          symmetry in Hdp. by apply other_player_neq in Hdp. }
        rewrite Hnot in H2. rewrite other_player_involutive. lia.
  - destruct (GetPieceAt st coord) as [[pc |] | f] eqn:Hat; cbn [bind]; [| | discriminate].
    + destruct (player_eqb (GetPlayer pc) (m_cur_player st)) eqn:Hown; intros [= <-].
      * unfold game_inv.
        cbn [selected m_board m_move_started m_game_over m_space_selected m_cur_player].
        rewrite Hgo. split; [assumption |]. split; [discriminate |].
        split; [| split; [auto | discriminate]].
        intros _. split; [assumption |].
        exists pc. split; [exact Hat | by apply player_eqb_eq].
      * unfold game_inv. rewrite Hgo, Hms. repeat split; auto; discriminate.
    + intros [= <-]. unfold game_inv. rewrite Hgo, Hms. repeat split; auto; discriminate.
Qed.

Lemma played_inv (st : BoardModel) : played st -> game_inv st.
Proof.
  induction 1 as [| st st' coord _ IH Hc Hstep].
  - unfold game_inv;
      cbn [initial_model m_board m_game_over m_move_started m_cur_player].
    split; [reflexivity |]. split; [reflexivity |]. split; [discriminate |].
    split; [intros _; split; reflexivity | discriminate].
  - by eapply SelectSpace_game_inv.
Qed.

Lemma SelectSpace_returns (st : BoardModel) (coord : BoardCoord) :
  game_inv st -> on_board coord -> exists st', SelectSpace st coord = Ret st'.
Proof.
  intros (Hlen & _ & Hsel & _) Hc. rewrite SelectSpace_eq.
  destruct (m_game_over st); [eauto |].
  destruct (m_move_started st).
  - destruct (Hsel eq_refl) as (Hsb & _).
    destruct (MovePiece_returns st (m_cur_player st) _ coord Hlen Hsb Hc)
      as (st1 & ok & ->). cbn [bind]. eauto.
  - destruct (GetPieceAt_on_board st coord Hlen Hc) as ([pc |] & -> & _); cbn [bind];
      [| eauto].
    destruct (player_eqb _ _); eauto.
Qed.

(** X13. A game clicked on the board never stops the program: from the
    initial position, or from any state such a game has reached, every run
    of [SelectSpace] calls on coordinates of the 8 x 8 board returns: no
    assertion fails, no read leaves the vector, no loop runs on. *)
Theorem clicks_on_board_never_fault (st : BoardModel) (coords : list BoardCoord) :
  played st -> Forall on_board coords ->
  exists st', SelectSpaces st coords = Ret st' /\ played st'.
Proof.
  intros Hplayed Hall. revert st Hplayed.
  induction Hall as [| c rest Hc _ IH]; intros st Hplayed.
  - exists st. by split.
  - destruct (SelectSpace_returns st c (played_inv st Hplayed) Hc) as (st1 & Hstep).
    destruct (IH st1) as (st' & Hrun & Hp'); [by eapply played_select |].
    exists st'. split; [| exact Hp']. cbn [SelectSpaces]. by rewrite Hstep.
Qed.

Lemma clicks_on_board_never_fault_witness :
  played initial_model /\
  Forall on_board [mkBoardCoord 4 6; mkBoardCoord 4 5; mkBoardCoord 0 0] /\
  exists st', SelectSpaces initial_model
                [mkBoardCoord 4 6; mkBoardCoord 4 5; mkBoardCoord 0 0] = Ret st' /\
              played st'.
Proof.
  assert (H1 : played initial_model) by exact played_initial.
  assert (H2 : Forall on_board [mkBoardCoord 4 6; mkBoardCoord 4 5; mkBoardCoord 0 0])
    by (repeat constructor; simpl; lia).
  repeat (split; [assumption |]).
  exact (clicks_on_board_never_fault initial_model _ H1 H2).
Defined.

(** X14. A click whose index leaves the vector stops the program: in every
    state reached through [SelectSpace] where the game is not over, a call
    on a coordinate with [y * 8 + x] outside [0,64) fails the assertion of
    [GetPieceAt], with or without a selection pending. *)
Theorem click_outside_aborts (st : BoardModel) (coord : BoardCoord) :
  reachable st -> GameOver st = false ->
  ~ 0 <= index_of coord < 64 ->
  SelectSpace st coord = Fault AssertFail.
Proof.
  unfold GameOver. intros Hreach Hgo Hout.
  destruct (reachable_inv st Hreach) as (Hlen & _ & Hsel).
  assert (Hfail : GetPieceAt st coord = Fault AssertFail)
    by (apply GetPieceAt_outside; lia).
  rewrite SelectSpace_eq, Hgo.
  destruct (m_move_started st).
  - destruct (Hsel eq_refl) as (pc & Hat & _).
    rewrite MovePiece_eq, Hat. cbn [bind]. by rewrite Hfail.
  - by rewrite Hfail.
Qed.

Lemma click_outside_aborts_witness :
  reachable initial_model /\ GameOver initial_model = false /\
  ~ 0 <= index_of (mkBoardCoord 0 8) < 64 /\
  SelectSpace initial_model (mkBoardCoord 0 8) = Fault AssertFail.
Proof.
  assert (H1 : reachable initial_model) by exact reachable_initial.
  assert (H2 : GameOver initial_model = false) by reflexivity.
  assert (H3 : ~ 0 <= index_of (mkBoardCoord 0 8) < 64)
    by (vm_compute; intros [_ H]; discriminate H).
  repeat (split; [assumption |]).
  exact (click_outside_aborts initial_model (mkBoardCoord 0 8) H1 H2 H3).
Defined.



(** X16. The title names the right winner: when a click takes a King, the
    title [main] sets next is "Chess: Game Finished - P Wins!" with P the
    player who made the move; and in every finished state of a game played
    on the board the player the title names has a King on the grid and the
    other player has none. *)
Theorem title_names_the_winner :
  (forall (st st1 : BoardModel) (coord : BoardCoord) (defender : Piece),
      GameOver st = false -> SpaceSelected st = true ->
      GetPieceAt st coord = Ret (Some defender) -> piece_type defender = King ->
      MovePiece st (GetCurPlayer st) (GetSpaceSelected st) coord = Ret (st1, true) ->
      exists st', SelectSpace st coord = Ret st' /\
                  window_title st' =
                  ("Chess: Game Finished - " +:+ PlayerToString (GetCurPlayer st)
                   +:+ " Wins!")%string) /\
  (forall st : BoardModel,
      played st -> GameOver st = true ->
      exists winner,
        window_title st =
        ("Chess: Game Finished - " +:+ PlayerToString winner +:+ " Wins!")%string /\
        count_slots (is_king_of winner) (m_board st) = 1%nat /\
        count_slots (is_king_of (other_player winner)) (m_board st) = 0%nat).
Proof.
  unfold GameOver, SpaceSelected, GetCurPlayer, GetSpaceSelected. split.
  - intros st st1 coord defender Hgo Hsel Hat Hking Hmove.
    pose proof (MovePiece_takes_king _ _ _ _ _ _ Hmove Hat Hking) as Hover.
    pose proof (MovePiece_cur_player _ _ _ _ _ _ Hmove) as Hcur.
    exists (turned (deselected st1)).
    rewrite SelectSpace_eq, Hgo, Hsel, Hmove. cbn [bind snd fst].
    split; [reflexivity |].
    unfold window_title, GameOver, GetCurPlayer.
    cbn [turned deselected m_game_over m_cur_player].
    rewrite Hover, Hcur. by destruct (m_cur_player st).
  - intros st Hplayed Hover.
    destruct (played_inv st Hplayed) as (_ & _ & _ & _ & Hdead).
    destruct (Hdead Hover) as [Hnone Hone].
    exists (other_player (m_cur_player st)).
    rewrite other_player_involutive. split; [| by split].
    unfold window_title, GameOver, GetCurPlayer. rewrite Hover.
    by destruct (m_cur_player st).
Qed.

Lemma title_names_the_winner_witness :
  GameOver rook_takes_king = false /\
  SpaceSelected rook_takes_king = true /\
  GetPieceAt rook_takes_king (mkBoardCoord 0 7) = Ret (Some (mkPiece King White)) /\
  exists st', SelectSpace rook_takes_king (mkBoardCoord 0 7) = Ret st' /\
              window_title st' = "Chess: Game Finished - Black Wins!"%string.
Proof.
  assert (H1 : GameOver rook_takes_king = false) by reflexivity.
  assert (H2 : SpaceSelected rook_takes_king = true) by reflexivity.
  assert (H3 : GetPieceAt rook_takes_king (mkBoardCoord 0 7)
               = Ret (Some (mkPiece King White))) by (vm_compute; reflexivity).
  assert (H4 : MovePiece rook_takes_king (GetCurPlayer rook_takes_king)
                 (GetSpaceSelected rook_takes_king) (mkBoardCoord 0 7)
               = Ret (moved rook_takes_king (mkPiece Rook Black)
                        (Some (mkPiece King White))
                        (mkBoardCoord 0 0) (mkBoardCoord 0 7), true))
    by (vm_compute; reflexivity).
  repeat (split; [assumption |]).
  exact (proj1 title_names_the_winner rook_takes_king _ (mkBoardCoord 0 7)
           (mkPiece King White) H1 H2 H3 eq_refl H4).
Defined.



(** ** Moving back *)

(** A check other than the Pawn's accepts the way back, whatever stands on
    the two end squares. *)
Lemma IsValidMove_back (attacker : Piece) (board board' : Board) (from to : BoardCoord) :
  piece_type attacker <> Pawn ->
  length board = 64%nat -> length board' = 64%nat ->
  on_board from -> on_board to ->
  (forall c, on_board c -> c <> from -> c <> to ->
             board' !! slot_of c = board !! slot_of c) ->
  IsValidMove attacker board from to = Ret true ->
  IsValidMove attacker board' to from = Ret true.
Proof.
  intros Hkind Hlen Hlen' Hfrom Hto Hsame.
  assert (Haxis : from <> to /\ (x from = x to \/ y from = y to) /\
                  (forall c, strictly_between from to c -> empty_at board c) ->
                  to <> from /\ (x to = x from \/ y to = y from) /\
                  (forall c, strictly_between to from c -> empty_at board' c)).
  { intros (H1 & H2 & Hall). split; [congruence |]. split; [lia |].
    intros c Hc%strictly_between_sym.
    destruct (strictly_between_on_board from to c Hfrom Hto Hc) as (Hcb & Hct & Hcf).
    unfold empty_at. rewrite Hsame by assumption. by apply Hall. }
  assert (Hdiag : x from <> x to /\ Z.abs (x from - x to) = Z.abs (y from - y to) /\
                  (forall c, diagonally_between from to c -> empty_at board c) ->
                  x to <> x from /\ Z.abs (x to - x from) = Z.abs (y to - y from) /\
                  (forall c, diagonally_between to from c -> empty_at board' c)).
  { intros (H1 & H2 & Hall). split; [lia |]. split; [lia |].
    intros c Hc. apply diagonally_between_sym in Hc; [| lia].
    pose proof (diagonally_between_on_board from to c Hfrom Hto Hc) as Hcb.
    assert (c <> from /\ c <> to) as [Hcf Hct].
    { destruct Hc as (Hbx & _). unfold between in Hbx. split; intros ->; lia. }
    unfold empty_at. rewrite Hsame by assumption. by apply Hall. }
  destruct attacker as [k q]. unfold IsValidMove; cbn [piece_type m_player] in *.
  destruct k; try congruence.
  - intros H.
    rewrite (proj1 (checks_symmetric board' from to Hlen' Hfrom Hto)). exact H.
  - destruct (Queen_IsValidMove_spec board from to Hlen Hfrom Hto) as (b & -> & Hb).
    destruct (Queen_IsValidMove_spec board' to from Hlen' Hto Hfrom) as (b' & -> & Hb').
    intros [= ->]. f_equal. apply Hb'.
    destruct (proj1 Hb eq_refl) as [H | H]; [left; by apply Haxis | right; by apply Hdiag].
  - destruct (Rook_IsValidMove_spec board from to Hlen Hfrom Hto) as (b & -> & Hb).
    destruct (Rook_IsValidMove_spec board' to from Hlen' Hto Hfrom) as (b' & -> & Hb').
    intros [= ->]. f_equal. apply Hb'. apply Haxis. by apply Hb.
  - destruct (Bishop_IsValidMove_spec board from to Hlen Hfrom Hto) as (b & -> & Hb).
    destruct (Bishop_IsValidMove_spec board' to from Hlen' Hto Hfrom) as (b' & -> & Hb').
    intros [= ->]. f_equal. apply Hb'. apply Hdiag. by apply Hb.
  - intros H.
    rewrite (proj2 (proj2 (proj2 (proj2 (checks_symmetric board' from to Hlen' Hfrom Hto))))).
    exact H.
Qed.

(** X18. Moving back undoes a move: on the 64 slots and between squares of
    the board, when [MovePiece] has moved a piece other than a Pawn onto an
    empty square, the same call with origin and destination exchanged is
    accepted as well and gives back the model the first call started from. *)
Theorem move_back_restores (st st1 : BoardModel) (p : Player) (from to : BoardCoord)
    (attacker : Piece) :
  length (m_board st) = 64%nat -> on_board from -> on_board to ->
  GetPieceAt st from = Ret (Some attacker) -> piece_type attacker <> Pawn ->
  GetPieceAt st to = Ret None ->
  MovePiece st p from to = Ret (st1, true) ->
  MovePiece st1 p to from = Ret (st, true).
Proof.
  intros Hlen Hfrom Hto Hat Hkind Hempty Hmove.
  destruct (MovePiece_Ret _ _ _ _ _ _ Hmove)
    as [[[=] _] | (_ & a & d & Hat' & Hto' & Hvalid & _ & ->)].
  rewrite Hat in Hat'. injection Hat' as <-.
  rewrite Hempty in Hto'. injection Hto' as <-.
  assert (from <> to) as Hne by (intros E; rewrite E, Hempty in Hat; discriminate).
  destruct (GetPieceAt_slot st from _ Hfrom Hat) as [Hsf Hif].
  destruct (GetPieceAt_slot st to _ Hto Hempty) as [Hst Hit].
  assert (Hslots : slot_of from <> slot_of to)
    by (intros E; apply Hne; by apply slot_of_inj).
  assert (Hidx : index_of to <> index_of from)
    by (intros E; apply Hne; symmetry; by apply index_of_inj).
  set (st1 := moved st attacker None from to).
  assert (Hlen1 : length (m_board st1) = 64%nat)
    by (unfold st1; cbn [moved m_board]; by rewrite !length_insert).
  assert (Hat1 : GetPieceAt st1 to = Ret (Some attacker))
    by (unfold st1; by eapply GetPieceAt_moved_to).
  assert (Hempty1 : GetPieceAt st1 from = Ret None)
    by (unfold st1; by eapply GetPieceAt_moved_from).
  assert (Hvalid1 : IsValidMove attacker (m_board st1) to from = Ret true).
  { apply (IsValidMove_back attacker (m_board st)); try assumption.
    intros c Hc Hcf Hct. unfold st1. cbn [moved m_board]. rewrite Hif, Hit.
    rewrite !list_lookup_insert_ne; [reflexivity | |];
      intros E; [apply Hct | apply Hcf]; symmetry; by apply slot_of_inj. }
  rewrite MovePiece_eq, Hat1. cbn [bind]. rewrite Hempty1. cbn [bind].
  rewrite Hvalid1. cbn [bind may_land andb].
  do 2 f_equal. unfold moved at 1. unfold st1.
  cbn [moved m_board m_move_started m_space_selected m_game_over m_cur_player holds_king orb].
  rewrite Hif, Hit.
  rewrite list_insert_insert_eq.
  rewrite (list_insert_insert_ne _ (slot_of from) (slot_of to)) by assumption.
  rewrite list_insert_insert_eq.
  rewrite (list_insert_id _ (slot_of from)) by assumption.
  rewrite (list_insert_id _ (slot_of to)) by assumption.
  by destruct st.
Qed.

Lemma move_back_restores_witness :
  length (m_board initial_model) = 64%nat /\
  on_board (mkBoardCoord 6 7) /\ on_board (mkBoardCoord 5 5) /\
  GetPieceAt initial_model (mkBoardCoord 6 7) = Ret (Some (mkPiece Knight White)) /\
  GetPieceAt initial_model (mkBoardCoord 5 5) = Ret None /\
  MovePiece (moved initial_model (mkPiece Knight White) None
               (mkBoardCoord 6 7) (mkBoardCoord 5 5))
    White (mkBoardCoord 5 5) (mkBoardCoord 6 7)
  = Ret (initial_model, true).
Proof.
  assert (H1 : length (m_board initial_model) = 64%nat) by reflexivity.
  assert (H2 : on_board (mkBoardCoord 6 7)) by (ranges; lia).
  assert (H3 : on_board (mkBoardCoord 5 5)) by (ranges; lia).
  assert (H4 : GetPieceAt initial_model (mkBoardCoord 6 7)
               = Ret (Some (mkPiece Knight White))) by (vm_compute; reflexivity).
  assert (H5 : GetPieceAt initial_model (mkBoardCoord 5 5) = Ret None)
    by (vm_compute; reflexivity).
  assert (H6 : MovePiece initial_model White (mkBoardCoord 6 7) (mkBoardCoord 5 5)
               = Ret (moved initial_model (mkPiece Knight White) None
                        (mkBoardCoord 6 7) (mkBoardCoord 5 5), true))
    by (vm_compute; reflexivity).
  assert (H7 : piece_type (mkPiece Knight White) <> Pawn) by discriminate.
  repeat (split; [assumption |]).
  exact (move_back_restores _ _ White _ _ _ H1 H2 H3 H4 H7 H5 H6).
Defined.

(** X19. A Pawn on its last row is stuck: for every grid and destination, the
    check of a White Pawn on row 0, and of a Black Pawn on row 7, returns
    false; so [MovePiece] never moves such a Pawn. *)
Theorem Pawn_stuck_on_last_row (p : Player) (board : Board) (from to : BoardCoord) :
  origin_ok from ->
  (p = White /\ y from = 0) \/ (p = Black /\ y from = 7) ->
  Pawn_IsValidMove p board from to = Ret false /\
  (forall (st : BoardModel) (q : Player),
      m_board st = board ->
      GetPieceAt st from = Ret (Some (mkPiece Pawn p)) ->
      forall st' ok, MovePiece st q from to = Ret (st', ok) -> ok = false /\ st' = st).
Proof.
  intros Hok Hlast.
  assert (HP : Pawn_IsValidMove p board from to = Ret false).
  { unfold Pawn_IsValidMove.
    destruct (out_of_bounds to) eqn:Hoob; [reflexivity |].
    apply out_of_bounds_false in Hoob.
    destruct (deltas_exact from to Hok Hoob) as (_ & -> & _ & -> & _).
    destruct Hoob as [_ Hy].
    destruct Hlast as [[-> H0] | [-> H7]].
    - destruct (Z.eqb_spec (y from - y to) 1); [lia | reflexivity].
    - destruct (Z.eqb_spec (y to - y from) 1); [lia | reflexivity]. }
  split; [exact HP |].
  intros st q Hboard Hat st' ok Hmove.
  destruct (MovePiece_Ret _ _ _ _ _ _ Hmove)
    as [? | (_ & a & d & Hat' & _ & Hvalid & _)]; [assumption |].
  rewrite Hat in Hat'. injection Hat' as <-.
  unfold IsValidMove in Hvalid. cbn [piece_type m_player] in Hvalid.
  rewrite Hboard, HP in Hvalid. discriminate.
Qed.

Lemma Pawn_stuck_on_last_row_witness :
  origin_ok (mkBoardCoord 3 0) /\
  Pawn_IsValidMove White initial_board (mkBoardCoord 3 0) (mkBoardCoord 3 (-1)) = Ret false.
Proof.
  assert (H1 : origin_ok (mkBoardCoord 3 0)) by (ranges; lia).
  split; [exact H1 |].
  exact (proj1 (Pawn_stuck_on_last_row White initial_board (mkBoardCoord 3 0)
                  (mkBoardCoord 3 (-1)) H1 (or_introl (conj eq_refl eq_refl)))).
Defined.

(** * The view *)

Lemma space_color_parity (row col : Z) :
  space_color row col = if Bool.eqb (Z.even row) (Z.even col) then SPACE_WHITE
                        else SPACE_BLACK.
Proof.
  unfold space_color. rewrite <- !Zeven_rem.
  by destruct (Z.even row), (Z.even col).
Qed.

Lemma space_color_white (row col : Z) :
  space_color row col = SPACE_WHITE <-> Z.even (row + col) = true.
Proof.
  rewrite space_color_parity, Z.even_add.
  destruct (Bool.eqb (Z.even row) (Z.even col)); split; congruence.
Qed.

(** X20. The board is a checkerboard: for all rows and columns, negative
    ones included, [Draw] colours a space white exactly when row + column is
    even, so that two spaces next to each other in a row or in a column
    never have the same colour, and the space of row 0 and column 0 is
    white. *)
Theorem space_color_checkerboard (row col : Z) :
  (space_color row col = SPACE_WHITE <-> Z.even (row + col) = true) /\
  space_color row (col + 1) <> space_color row col /\
  space_color (row + 1) col <> space_color row col /\
  space_color 0 0 = SPACE_WHITE.
Proof.
  split; [apply space_color_white |].
  rewrite !space_color_parity, !Z.even_add. cbn [Z.even].
  by destruct (Z.even row), (Z.even col).
Qed.


Lemma for_each_Ret {A B : Type} (l : list A) (body : A -> outcome (list B))
    (g : A -> list B) :
  (forall a, In a l -> body a = Ret (g a)) ->
  for_each l body = Ret (flat_map g l).
Proof.
  induction l as [| a rest IH]; intros Hbody; [reflexivity |].
  cbn [for_each flat_map].
  rewrite (Hbody a) by (by left). cbn [bind].
  rewrite IH by (intros b Hb; apply Hbody; by right). reflexivity.
Qed.

Lemma In_seqZ_8 (k : Z) : In k (seqZ 0 8) <-> 0 <= k < 8.
Proof. rewrite <- list_elem_of_In, elem_of_seqZ. lia. Qed.

Lemma draw_cell_Ret (st : BoardModel) (row col : Z) :
  length (m_board st) = 64%nat -> 0 <= row < 8 -> 0 <= col < 8 ->
  draw_cell st row col = Ret (cell_cmds (m_board st) row col).
Proof.
  intros Hlen Hrow Hcol. unfold draw_cell, cell_cmds.
  destruct (GetPieceAt_on_board st (mkBoardCoord col row) Hlen) as (slot & -> & Hslot);
    [by split |].
  unfold slot_of in Hslot. cbn [x y] in Hslot.
  rewrite (lookup_on_board (m_board st) col row) in Hslot by assumption.
  injection Hslot as <-. cbn [bind]. by destruct (cell_of (m_board st) col row).
Qed.

Lemma In_cell_cmds (board : Board) (row col : Z) (cmd : DrawCmd) :
  In cmd (cell_cmds board row col) <->
  cmd = DrawSpace col row (space_color row col) \/
  exists pc, cell_of board col row = Some pc /\ cmd = DrawPiece col row (GetSpriteDim pc).
Proof.
  unfold cell_cmds. destruct (cell_of board col row) as [pc |]; cbn [In]; split.
  - intros [<- | [<- | []]]; [by left | right; eauto].
  - intros [-> | (pc' & [= <-] & ->)]; auto.
  - intros [<- | []]. by left.
  - intros [-> | (pc' & [=] & _)]. by left.
Qed.

(** X22. The view shows the model: on the 64 slots [Draw] returns (no
    assertion fails), and what it hands to the window is one space for each
    of the 64 cells, in the checkerboard colour; one sprite for each
    occupied slot and none for an empty one, placed on the cell of the slot
    and cut out for the piece in it; and the highlight of the selected
    square exactly when a selection is pending. *)
Theorem Draw_shows_the_model (st : BoardModel) :
  length (m_board st) = 64%nat ->
  exists cmds,
    Draw st = Ret cmds /\
    (forall col row color,
        In (DrawSpace col row color) cmds <->
        0 <= col < 8 /\ 0 <= row < 8 /\ color = space_color row col) /\
    (forall col row dim,
        In (DrawPiece col row dim) cmds <->
        0 <= col < 8 /\ 0 <= row < 8 /\
        exists pc, m_board st !! Z.to_nat (row * 8 + col) = Some (Some pc) /\
                   dim = GetSpriteDim pc) /\
    (forall col row,
        In (DrawHighlight col row) cmds <->
        SpaceSelected st = true /\
        col = x (GetSpaceSelected st) /\ row = y (GetSpaceSelected st)).
Proof.
  intros Hlen.
  set (cells := flat_map (fun row => flat_map (cell_cmds (m_board st) row) (seqZ 0 8))
                  (seqZ 0 8)).
  assert (Hcells : for_each (seqZ 0 8)
                     (fun row => for_each (seqZ 0 8) (fun col => draw_cell st row col))
                   = Ret cells).
  { apply for_each_Ret. intros row Hrow%In_seqZ_8.
    apply for_each_Ret. intros col Hcol%In_seqZ_8. by apply draw_cell_Ret. }
  assert (Hin : forall cmd,
             In cmd cells <->
             exists row col, 0 <= row < 8 /\ 0 <= col < 8 /\
                             In cmd (cell_cmds (m_board st) row col)).
  { intros cmd. unfold cells. rewrite in_flat_map. split.
    - intros (row & Hrow%In_seqZ_8 & Hc). apply in_flat_map in Hc as (col & Hcol%In_seqZ_8 & Hc).
      eauto 6.
    - intros (row & col & Hrow & Hcol & Hc). exists row. split; [by apply In_seqZ_8 |].
      apply in_flat_map. exists col. split; [by apply In_seqZ_8 | exact Hc]. }
  set (highlight := if SpaceSelected st
                    then [DrawHighlight (x (GetSpaceSelected st)) (y (GetSpaceSelected st))]
                    else []).
  exists (cells ++ highlight).
  split.
  { unfold Draw. rewrite Hcells. cbn [bind]. unfold highlight.
    destruct (SpaceSelected st); [reflexivity | by rewrite app_nil_r]. }
  split; [| split].
  - intros col row color. rewrite in_app_iff, Hin. split.
    + intros [(r & c & Hr & Hc & Hcmd) | Hh].
      * apply In_cell_cmds in Hcmd as [[= -> -> ->] | (pc & _ & [=])]. auto.
      * unfold highlight in Hh. destruct (SpaceSelected st); [| destruct Hh].
        destruct Hh as [[=] | []].
    + intros (Hc & Hr & ->). left. exists row, col. repeat split; try lia.
      apply In_cell_cmds. by left.
  - intros col row dim. rewrite in_app_iff, Hin. split.
    + intros [(r & c & Hr & Hc & Hcmd) | Hh].
      * apply In_cell_cmds in Hcmd as [[=] | (pc & Hpc & [= -> -> ->])].
        repeat split; try lia. exists pc. split; [| reflexivity].
        rewrite (lookup_on_board (m_board st) c r) by assumption. by rewrite Hpc.
      * unfold highlight in Hh. destruct (SpaceSelected st); [| destruct Hh].
        destruct Hh as [[=] | []].
    + intros (Hc & Hr & pc & Hpc & ->). left. exists row, col. repeat split; try lia.
      apply In_cell_cmds. right. exists pc. split; [| reflexivity].
      rewrite (lookup_on_board (m_board st) col row) in Hpc by assumption.
      by injection Hpc.
  - intros col row. rewrite in_app_iff, Hin. unfold highlight. split.
    + intros [(r & c & _ & _ & Hcmd) | Hh].
      * apply In_cell_cmds in Hcmd as [[=] | (pc & _ & [=])].
      * destruct (SpaceSelected st); [| destruct Hh].
        destruct Hh as [[= <- <-] | []]. auto.
    + intros (-> & -> & ->). right. by left.
Qed.

Lemma Draw_shows_the_model_witness :
  length (m_board initial_model) = 64%nat /\
  exists cmds, Draw initial_model = Ret cmds /\
               forall col row, ~ In (DrawHighlight col row) cmds.
Proof.
  assert (H1 : length (m_board initial_model) = 64%nat) by reflexivity.
  split; [exact H1 |].
  destruct (Draw_shows_the_model initial_model H1) as (cmds & Hdraw & _ & _ & Hh).
  exists cmds. split; [exact Hdraw |].
  intros col row Hin. apply Hh in Hin as [Hsel _]. discriminate Hsel.
Defined.

(** ** Moves and colours *)

Lemma Bishop_true_diagonal (board : Board) (from to : BoardCoord) :
  origin_ok from -> Bishop_IsValidMove board from to = Ret true ->
  on_board to /\ Z.abs (x from - x to) = Z.abs (y from - y to).
Proof.
  intros Hok. unfold Bishop_IsValidMove.
  destruct (coord_eqb to from); [discriminate |].
  destruct (out_of_bounds to) eqn:Hoob; [discriminate |].
  apply out_of_bounds_false in Hoob.
  destruct (_ || _); [discriminate |].
  destruct (deltas_exact from to Hok Hoob) as (-> & -> & _ & _ & -> & -> & _).
  destruct (Z.eqb_spec (Z.abs (x from - x to)) (Z.abs (y from - y to))); [| discriminate].
  auto.
Qed.

(** X23. Moves and the colours of the board: a move the Bishop's check
    accepts ends on a space of the colour it started from, and a move the
    Knight's check accepts ends on a space of the other colour, as [Draw]
    colours them. *)
Theorem moves_and_colours (board : Board) (from to : BoardCoord) :
  origin_ok from ->
  (Bishop_IsValidMove board from to = Ret true ->
   space_color (y to) (x to) = space_color (y from) (x from)) /\
  (Knight_IsValidMove board from to = Ret true ->
   space_color (y to) (x to) <> space_color (y from) (x from)).
Proof.
  intros Hok.
  assert (Hcol : forall r c, space_color r c
                             = if Z.even (r + c) then SPACE_WHITE else SPACE_BLACK).
  { intros r c. rewrite space_color_parity, Z.even_add.
    by destruct (Z.even r), (Z.even c). }
  rewrite !Hcol. split.
  - intros [_ Hd]%Bishop_true_diagonal; [| assumption].
    assert (y to + x to = y from + x from + 2 * (y to - y from) \/
            y to + x to = y from + x from + 2 * 0) as [-> | ->] by lia;
      by rewrite Z.even_add_mul_2.
  - intros Hk.
    destruct (Knight_IsValidMove_returns board from to Hok) as (b & Hb & Hiff).
    rewrite Hb in Hk. injection Hk as ->.
    destruct (proj1 Hiff eq_refl) as (_ & Hshape).
    assert (exists k, y to + x to = y from + x from + 1 + 2 * k) as (k & ->).
    { destruct Hshape as [[H1 H2] | [H1 H2]].
      - assert (x to - x from = 1 \/ x to - x from = -1) as Hx by lia.
        assert (y to - y from = 2 \/ y to - y from = -2) as Hy by lia.
        destruct Hx, Hy; [exists 1 | exists (-1) | exists 0 | exists (-2)]; lia.
      - assert (x to - x from = 2 \/ x to - x from = -2) as Hx by lia.
        assert (y to - y from = 1 \/ y to - y from = -1) as Hy by lia.
        destruct Hx, Hy; [exists 1 | exists 0 | exists (-1) | exists (-2)]; lia. }
    rewrite Z.even_add_mul_2, Z.even_add. cbn [Z.even].
    by destruct (Z.even (y from + x from)).
Qed.

Lemma moves_and_colours_witness :
  origin_ok (mkBoardCoord 1 7) /\
  Knight_IsValidMove initial_board (mkBoardCoord 1 7) (mkBoardCoord 2 5) = Ret true /\
  space_color 5 2 <> space_color 7 1.
Proof.
  assert (H1 : origin_ok (mkBoardCoord 1 7)) by (ranges; lia).
  assert (H2 : Knight_IsValidMove initial_board (mkBoardCoord 1 7) (mkBoardCoord 2 5)
               = Ret true) by (vm_compute; reflexivity).
  repeat (split; [assumption |]).
  exact (proj2 (moves_and_colours initial_board (mkBoardCoord 1 7) (mkBoardCoord 2 5) H1) H2).
Defined.


(** ** Pieces over a game *)




